(** * AP placement optimizer: grid tiling, manual AP set, coordinate mapping

    Shallow embedding of
      - [src/services/optimizationService.ts]  ([calculateAPPlacement]),
      - [src/App.tsx]  ([handlePlanClick], [handleDeleteManualAp],
        [handleMoveManualAp], the metric columns of the manual AP table,
        the validation step of [getAiPlacementSuggestions]),
      - [src/components/BuildingVisualizer.tsx], component
        [InteractivePlanDisplay]  ([handleApMouseDown],
        [handleGlobalMouseMove]).

    Number model.  A JavaScript [number] is a binary64 number; the file
    reads it in three ways.

    - As a real number, with exact operations (the placement multiplies by
      [Math.sqrt(2)], so rationals would not do): the arithmetic operators,
      [Math.sqrt], [Math.ceil], [Math.max], [Math.min] and [Math.pow] are
      the exact real operations, and [toFixed(2)] is the exact decimal
      rounding of ECMA-262.  This reading carries the properties that the
      rounding of intermediate results cannot change: structure, order,
      bounds with room to spare, state handling.
    - As a real number, with the rounding of every operation made explicit
      (module [Rounded]): the result of an operation is [rnd] of its exact
      value, for any [rnd] that is monotone and has a relative error of at
      most [2^-53], as round-to-nearest of binary64 has while no result
      overflows or is subnormal.  This reading carries the properties that
      depend on the value of a ceiling or on the digits [toFixed(2)]
      prints: the count of the placement, the printed metric columns.
    - As a binary64 number of the kernel (module [Binary64]), to run the
      placement on given inputs.

    Infinities and NaN are outside the first two readings; where the source
    can meet a missing value ([parseFloat] of a text field, a [null] state,
    a JSON field that is not a number) the model uses [option] or a variant.
    Integer-valued quantities (loop counters, array indices and lengths,
    results of [Math.ceil]) are [Z] or [nat]. *)

From Stdlib Require Import Reals ZArith List Bool Lra Lia Psatz.
From Stdlib Require String.
From Stdlib Require Floats.
Import ListNotations String.StringSyntax.

Open Scope string_scope.
Open Scope R_scope.

(** ** JavaScript numbers as reals *)

Module JSNumber.

(** Comparison operators of the source, as booleans. *)
Definition ltb (a b : R) : bool := if Rlt_dec a b then true else false.
Definition leb (a b : R) : bool := if Rle_dec a b then true else false.
Definition gtb (a b : R) : bool := ltb b a.
Definition geb (a b : R) : bool := leb b a.

(** [Math.ceil], on a finite number. *)
Definition Math_ceil (a : R) : Z := Zceil a.

(** [Math.max] and [Math.min]. *)
Definition Math_max (a b : R) : R := Rmax a b.
Definition Math_min (a b : R) : R := Rmin a b.

(** [Math.pow(a, 2)]. *)
Definition Math_pow2 (a : R) : R := a ^ 2.

(** [Number.prototype.toFixed(2)], as the number its result denotes
    (which is what [parseFloat] reads back).  ECMA-262: a value of
    magnitude at least 10^21 is printed by [ToString] and so is left as it
    is; otherwise the sign is set aside and the magnitude [a] becomes
    [n / 100] for the integer [n] that makes [n / 100 - a] closest to
    zero, the larger [n] when two are equally close. *)
Definition nearest_hundredth (a : R) : R := IZR (Zfloor (a * 100 + / 2)) / 100.

Definition toFixed2 (a : R) : R :=
  if leb 1e21 (Rabs a) then a
  else if ltb a 0 then - nearest_hundredth (- a)
  else nearest_hundredth a.

End JSNumber.

Import JSNumber.

(** ** Types ([types.ts]) *)

Record APCoordinate : Type := mkAP { x : R; y : R }.

Record OptimizationResult : Type := mkResult {
  nAP : Z;
  coordinates : list APCoordinate;
  message : option String.string
}.

(** ** Placement engine ([optimizationService.ts]) *)

Module PlacementEngine.

Definition msg_not_positive : String.string :=
  "Todos los valores de entrada deben ser positivos.".

Definition msg_invalid_cell : String.string :=
  "El radio de cobertura produce un área de celda inválida o demasiado pequeña.".

Definition msg_small_building : String.string :=
  "Las dimensiones del edificio son más pequeñas que el tamaño de celda del AP (L_calc) en una o ambas direcciones. Los APs se colocarán centrados dentro del edificio para cubrirlo lo mejor posible con la configuración dada.".

Section Loops.
(** The values the two nested [for] loops read. *)
Variables (nAP_target num_placement_cols : Z).
Variables (cell_placement_width cell_placement_height : R).

(** [resultado.length >= nAP_target] *)
Definition target_reached (resultado : list APCoordinate) : bool :=
  (nAP_target <=? Z.of_nat (length resultado))%Z.

(** Inner loop [for (c_idx ...; c_idx < num_placement_cols; c_idx++)]
    with [todo] iterations left before the loop condition fails. *)
Fixpoint cols_loop (todo : nat) (r_idx c_idx : Z)
         (resultado : list APCoordinate) : list APCoordinate :=
  match todo with
  | O => resultado
  | S todo' =>
      if target_reached resultado then resultado (* break *)
      else
        let ap_x := (IZR c_idx + 0.5) * cell_placement_width in
        let ap_y := (IZR r_idx + 0.5) * cell_placement_height in
        cols_loop todo' r_idx (c_idx + 1)
                  (resultado ++ [mkAP ap_x ap_y])
  end.

(** Outer loop [for (r_idx ...; r_idx < num_placement_rows; r_idx++)]. *)
Fixpoint rows_loop (todo : nat) (r_idx : Z)
         (resultado : list APCoordinate) : list APCoordinate :=
  match todo with
  | O => resultado
  | S todo' =>
      let resultado' :=
        cols_loop (Z.to_nat num_placement_cols) r_idx 0 resultado in
      if target_reached resultado' then resultado' (* break *)
      else rows_loop todo' (r_idx + 1) resultado'
  end.
End Loops.

Definition formatted (ap : APCoordinate) : APCoordinate :=
  mkAP (toFixed2 (x ap)) (toFixed2 (y ap)).

Definition calculateAPPlacement
           (radius buildingLength buildingWidth : R) : OptimizationResult :=
  let R_param := radius in
  let Largo := buildingLength in
  let Ancho := buildingWidth in
  if leb R_param 0 || leb Largo 0 || leb Ancho 0 then
    mkResult 0 [] (Some msg_not_positive)
  else
    let L_calc := sqrt 2 * R_param in
    if ltb L_calc 1e-6 then
      mkResult 0 [] (Some msg_invalid_cell)
    else
      let Area_C := L_calc * L_calc in
      let Area_E := Largo * Ancho in
      let nAP_target := Z.max 1 (Math_ceil (Area_E / Area_C)) in
      let message :=
        if ltb Largo L_calc || ltb Ancho L_calc
        then Some msg_small_building else None in
      let num_placement_cols := Z.max 1 (Math_ceil (Largo / L_calc)) in
      let num_placement_rows := Z.max 1 (Math_ceil (Ancho / L_calc)) in
      let cell_placement_width := Largo / IZR num_placement_cols in
      let cell_placement_height := Ancho / IZR num_placement_rows in
      let resultado :=
        rows_loop nAP_target num_placement_cols
                  cell_placement_width cell_placement_height
                  (Z.to_nat num_placement_rows) 0 [] in
      let finalCoordinates := map formatted resultado in
      mkResult (Z.of_nat (length finalCoordinates))
               finalCoordinates message.

(** Names for the intermediate values of [calculateAPPlacement] on its main
    path, used to state the properties. *)
Definition L_calc_of (radius : R) : R := sqrt 2 * radius.

Definition nAP_target_of (radius Largo Ancho : R) : Z :=
  Z.max 1 (Math_ceil (Largo * Ancho / (L_calc_of radius * L_calc_of radius))).

Definition placement_cells (radius side : R) : Z :=
  Z.max 1 (Math_ceil (side / L_calc_of radius)).

Definition resultado_of (radius Largo Ancho : R) : list APCoordinate :=
  rows_loop (nAP_target_of radius Largo Ancho)
            (placement_cells radius Largo)
            (Largo / IZR (placement_cells radius Largo))
            (Ancho / IZR (placement_cells radius Ancho))
            (Z.to_nat (placement_cells radius Ancho)) 0 [].

(** The centre of the cell in row [r_idx], column [c_idx]. *)
Definition cell_centre (cw ch : R) (r_idx c_idx : Z) : APCoordinate :=
  mkAP ((IZR c_idx + 0.5) * cw) ((IZR r_idx + 0.5) * ch).

(** [[from; from + 1; ...]], [count] indices. *)
Fixpoint indices (from : Z) (count : nat) : list Z :=
  match count with
  | O => []
  | S count' => from :: indices (from + 1) count'
  end.

(** The cell centres in row-major order: row 0 from left to right, then
    row 1, and so on. *)
Definition row_major (cols rows : Z) (cw ch : R) : list APCoordinate :=
  flat_map (fun r_idx =>
              map (cell_centre cw ch r_idx) (indices 0 (Z.to_nat cols)))
           (indices 0 (Z.to_nat rows)).

(** [ap] is the centre of the cell in column [c], row [r] of a grid of
    [cols] by [rows] cells of size [cw] by [ch]. *)
Definition on_grid (cols rows : Z) (cw ch : R) (ap : APCoordinate) : Prop :=
  exists c r : Z,
    (0 <= c < cols)%Z /\ (0 <= r < rows)%Z /\
    ap = mkAP ((IZR c + 0.5) * cw) ((IZR r + 0.5) * ch).

Definition message_of (radius Largo Ancho : R) : option String.string :=
  if ltb Largo (L_calc_of radius) || ltb Ancho (L_calc_of radius)
  then Some msg_small_building else None.

End PlacementEngine.

(** ** The manually placed APs ([App.tsx]) *)

Module ManualAPSet.

(** [arr.map((a, i) => f a i)] and [arr.filter((a, i) => f a i)]: the
    callback receives the element and its index, counted from [i]. *)
Fixpoint map_indexed {A B : Type} (f : A -> Z -> B) (i : Z) (arr : list A)
  : list B :=
  match arr with
  | [] => []
  | a :: arr' => f a i :: map_indexed f (i + 1) arr'
  end.

Fixpoint filter_indexed {A : Type} (f : A -> Z -> bool) (i : Z) (arr : list A)
  : list A :=
  match arr with
  | [] => []
  | a :: arr' =>
      if f a i then a :: filter_indexed f (i + 1) arr'
      else filter_indexed f (i + 1) arr'
  end.

(** Minimum distance in original image pixels to consider a new AP as
    distinct. *)
Definition MIN_DISTANCE_THRESHOLD : R := 5.

Definition distanceSquared (existingAP coords : APCoordinate) : R :=
  Math_pow2 (x existingAP - x coords) + Math_pow2 (y existingAP - y coords).

Definition isTooCloseToExisting
           (manualAPs : list APCoordinate) (coords : APCoordinate) : bool :=
  existsb
    (fun existingAP =>
       ltb (distanceSquared existingAP coords)
           (MIN_DISTANCE_THRESHOLD * MIN_DISTANCE_THRESHOLD))
    manualAPs.

(** The test [!isTooCloseToExisting] of [handlePlanClick]: the proximity
    filter accepts [candidate]. *)
Definition accept (candidate : APCoordinate) (existing : list APCoordinate)
  : bool :=
  negb (isTooCloseToExisting existing candidate).

(** [handlePlanClick]: the state [manualAPs] after the click. *)
Definition handlePlanClick
           (manualAPs : list APCoordinate) (coords : APCoordinate)
  : list APCoordinate :=
  if accept coords manualAPs
  then manualAPs ++ [coords]
  else manualAPs.

Definition handleDeleteManualAp (index : Z) (prevAPs : list APCoordinate)
  : list APCoordinate :=
  filter_indexed (fun _ i => negb (i =? index)%Z) 0 prevAPs.

Definition handleMoveManualAp
           (index : Z) (newCoords : APCoordinate) (prevAPs : list APCoordinate)
  : list APCoordinate :=
  map_indexed (fun ap i => if (i =? index)%Z then newCoords else ap) 0 prevAPs.

(** No two APs of the list are closer than the threshold. *)
Definition separated (aps : list APCoordinate) : Prop :=
  ForallOrdPairs
    (fun p q => MIN_DISTANCE_THRESHOLD * MIN_DISTANCE_THRESHOLD
                <= distanceSquared p q)
    aps.

End ManualAPSet.

(** ** Pointer interaction on the plan ([InteractivePlanDisplay]) *)

Module InteractivePlanDisplay.

(** What the handlers read from the [<img>] element: [complete],
    [naturalWidth], [naturalHeight] and the [left] and [top] of
    [getBoundingClientRect()]. *)
Record ImageElement : Type := mkImage {
  complete : bool;
  naturalWidth : N;
  naturalHeight : N;
  rect_left : R;
  rect_top : R
}.

Record Dimensions : Type := mkDimensions { width : R; height : R }.

Record MouseEvent : Type := mkMouse { clientX : R; clientY : R }.

(** Component state together with the [manualAPs] of the parent, which
    [onMoveAp] updates. *)
Record State : Type := mkState {
  imageRef : option ImageElement;
  displayedImageDimensions : Dimensions;
  draggingApIndex : option Z;
  dragStartOffset : option APCoordinate;
  manualAPs : list APCoordinate
}.

Definition natW (img : ImageElement) : R := IZR (Z.of_N (naturalWidth img)).
Definition natH (img : ImageElement) : R := IZR (Z.of_N (naturalHeight img)).

(** [manualAPs[index]] *)
Definition at_index (aps : list APCoordinate) (index : Z)
  : option APCoordinate :=
  if (index <? 0)%Z then None else nth_error aps (Z.to_nat index).

(** [handleApMouseDown]; [None] is the [TypeError] of reading [ap.x] when
    [manualAPs[index]] is [undefined].  [event.stopPropagation()] changes
    no state and is left out. *)
Definition handleApMouseDown (event : MouseEvent) (index : Z) (st : State)
  : option State :=
  match imageRef st with
  | None => Some st
  | Some img =>
      if negb (complete img) || (naturalWidth img =? 0)%N then Some st
      else
        match at_index (manualAPs st) index with
        | None => None
        | Some ap =>
            let displayScaleX :=
              width (displayedImageDimensions st) / natW img in
            let displayScaleY :=
              height (displayedImageDimensions st) / natH img in
            let apCenterX_display := x ap * displayScaleX in
            let apCenterY_display := y ap * displayScaleY in
            Some (mkState (imageRef st) (displayedImageDimensions st)
                    (Some index)
                    (Some (mkAP
                       (clientX event - rect_left img - apCenterX_display)
                       (clientY event - rect_top img - apCenterY_display)))
                    (manualAPs st))
        end
  end.

(** The position [handleGlobalMouseMove] hands to [onMoveAp]: the pointer
    on the displayed image, minus the offset, scaled to natural pixels and
    clamped to the natural dimensions. *)
Definition dragged_position
           (img : ImageElement) (displayed : Dimensions)
           (offset : APCoordinate) (event : MouseEvent) : APCoordinate :=
  let mouseXOnDisplayedImage := clientX event - rect_left img in
  let mouseYOnDisplayedImage := clientY event - rect_top img in
  let newApCenterX_display := mouseXOnDisplayedImage - x offset in
  let newApCenterY_display := mouseYOnDisplayedImage - y offset in
  let originalX := (newApCenterX_display / width displayed) * natW img in
  let originalY := (newApCenterY_display / height displayed) * natH img in
  let originalX := Math_max 0 (Math_min originalX (natW img)) in
  let originalY := Math_max 0 (Math_min originalY (natH img)) in
  mkAP originalX originalY.

(** [handleGlobalMouseMove]: nothing happens unless an AP is being dragged
    and the image has loaded; [onMoveAp] is [handleMoveManualAp] of the
    parent. *)
Definition handleGlobalMouseMove (event : MouseEvent) (st : State) : State :=
  match draggingApIndex st, imageRef st, dragStartOffset st with
  | Some index, Some img, Some offset =>
      if negb (complete img) || (naturalWidth img =? 0)%N then st
      else
        mkState (imageRef st) (displayedImageDimensions st)
                (draggingApIndex st) (dragStartOffset st)
                (ManualAPSet.handleMoveManualAp index
                   (dragged_position img (displayedImageDimensions st)
                                     offset event)
                   (manualAPs st))
  | _, _, _ => st
  end.

(** [handleGlobalMouseUp]: ends a drag, if there is one. *)
Definition handleGlobalMouseUp (st : State) : State :=
  match draggingApIndex st with
  | Some _ =>
      mkState (imageRef st) (displayedImageDimensions st) None None
              (manualAPs st)
  | None => st
  end.

(** [handleApDoubleClick]: [onDeleteAp] is [handleDeleteManualAp] of the
    parent. *)
Definition handleApDoubleClick (index : Z) (st : State) : State :=
  mkState (imageRef st) (displayedImageDimensions st)
          (draggingApIndex st) (dragStartOffset st)
          (ManualAPSet.handleDeleteManualAp index (manualAPs st)).

(** [handleContainerClick]; [rect] holds the [width] and [height] of
    [imageRef.current.getBoundingClientRect()], whose [left] and [top] are
    in [img]; [onImageClick] is [handlePlanClick] of the parent.  The
    container is mounted whenever the handler runs, so the test of
    [containerRef.current] is left out. *)
Definition handleContainerClick
           (rect : Dimensions) (event : MouseEvent) (st : State) : State :=
  match draggingApIndex st with
  | Some _ => st
  | None =>
      match imageRef st with
      | None => st
      | Some img =>
          if negb (complete img) || (naturalWidth img =? 0)%N then st
          else
            let xOnDisplayedImage := clientX event - rect_left img in
            let yOnDisplayedImage := clientY event - rect_top img in
            if geb xOnDisplayedImage 0 && leb xOnDisplayedImage (width rect)
               && geb yOnDisplayedImage 0
               && leb yOnDisplayedImage (height rect)
            then
              let originalX := (xOnDisplayedImage / width rect) * natW img in
              let originalY := (yOnDisplayedImage / height rect) * natH img in
              mkState (imageRef st) (displayedImageDimensions st)
                      (draggingApIndex st) (dragStartOffset st)
                      (ManualAPSet.handlePlanClick (manualAPs st)
                                                   (mkAP originalX originalY))
            else st
      end
  end.

(** Where the marker of [ap] is drawn ([cx], [cy] of the circles), on the
    displayed image; nothing is drawn while a natural dimension is 0. *)
Definition marker_position
           (img : ImageElement) (displayed : Dimensions) (ap : APCoordinate)
  : option APCoordinate :=
  if (naturalWidth img =? 0)%N || (naturalHeight img =? 0)%N then None
  else
    let displayScaleX := width displayed / natW img in
    let displayScaleY := height displayed / natH img in
    let apCenterX_display := x ap * displayScaleX in
    let apCenterY_display := y ap * displayScaleY in
    Some (mkAP apCenterX_display apCenterY_display).

(** The scale of the component body and the radius of the coverage circle
    of a marker, [coverageRadius_display]. *)
Definition pixelsPerMeterScale
           (image : option ImageElement) (buildingLengthMeters : R) : R :=
  match image with
  | Some img =>
      if (0 <? naturalWidth img)%N && gtb buildingLengthMeters 0
      then natW img / buildingLengthMeters else 0
  | None => 0
  end.

Definition coverageRadiusInOriginalImagePixels
           (image : option ImageElement)
           (coverageRadiusMeters buildingLengthMeters : R) : R :=
  match image with
  | Some img =>
      if (0 <? naturalWidth img)%N && gtb buildingLengthMeters 0
      then coverageRadiusMeters
           * pixelsPerMeterScale image buildingLengthMeters
      else 0
  | None => 0
  end.

Definition coverageRadius_display
           (img : ImageElement) (displayed : Dimensions)
           (coverageRadiusMeters buildingLengthMeters : R) : R :=
  let displayScaleX := width displayed / natW img in
  if gtb (pixelsPerMeterScale (Some img) buildingLengthMeters) 0
  then coverageRadiusInOriginalImagePixels
         (Some img) coverageRadiusMeters buildingLengthMeters
       * displayScaleX
  else 0.

(** The coverage circle is drawn when
    [coverageRadius_display > 0 && buildingLengthMeters > 0]. *)
Definition coverage_circle_drawn
           (img : ImageElement) (displayed : Dimensions)
           (coverageRadiusMeters buildingLengthMeters : R) : bool :=
  gtb (coverageRadius_display img displayed
         coverageRadiusMeters buildingLengthMeters) 0
  && gtb buildingLengthMeters 0.

(** Every AP lies within the natural image. *)
Definition within_image (img : ImageElement) (ap : APCoordinate) : Prop :=
  0 <= x ap <= natW img /\ 0 <= y ap <= natH img.

(** The pointer events the component listens to.  A click carries the size
    of the image on screen at that moment. *)
Inductive PointerEvent : Type :=
| Click (rect : Dimensions) (event : MouseEvent)
| MouseDown (event : MouseEvent) (index : Z)
| DoubleClick (index : Z)
| MouseMove (event : MouseEvent)
| MouseUp.

Definition handle (ev : PointerEvent) (st : State) : option State :=
  match ev with
  | Click rect event => Some (handleContainerClick rect event st)
  | MouseDown event index => handleApMouseDown event index st
  | DoubleClick index => Some (handleApDoubleClick index st)
  | MouseMove event => Some (handleGlobalMouseMove event st)
  | MouseUp => Some (handleGlobalMouseUp st)
  end.

(** The handlers run one after the other; an exception ends the run. *)
Fixpoint run (evs : list PointerEvent) (st : State) : option State :=
  match evs with
  | [] => Some st
  | ev :: evs' =>
      match handle ev st with
      | Some st' => run evs' st'
      | None => None
      end
  end.

(** The image is on screen when a click of the run happens. *)
Definition click_on_screen (ev : PointerEvent) : Prop :=
  match ev with
  | Click rect _ => 0 < width rect /\ 0 < height rect
  | _ => True
  end.

End InteractivePlanDisplay.

(** ** Metric columns of the manual AP table ([App.tsx]) *)

Module ManualTable.

Import InteractivePlanDisplay.

(** A cell of the columns [X (m) Est.] and [Y (m) Est.]: the text ['N/A'] or
    the text of [toFixed(2)], kept as the number it denotes. *)
Inductive MetricCell : Type :=
| NA
| Fixed2 (v : R).

(** [uploadedPlanNaturalDimensions] is [null] until the image has loaded;
    [parseFloat(buildingLength)] is [None] when it is [NaN]. *)
Definition pixelsPerMeterScaleManual
           (uploadedPlanNaturalDimensions : option Dimensions)
           (parsedBuildingLength : option R) : R :=
  match uploadedPlanNaturalDimensions, parsedBuildingLength with
  | Some dims, Some len =>
      if gtb (width dims) 0 && gtb len 0 then width dims / len else 0
  | _, _ => 0
  end.

Definition x_m (scale : R) (ap : APCoordinate) : MetricCell :=
  if gtb scale 0 then Fixed2 (toFixed2 (x ap / scale)) else NA.

Definition y_m (scale : R) (ap : APCoordinate) : MetricCell :=
  if gtb scale 0 then Fixed2 (toFixed2 (y ap / scale)) else NA.

(** The two metric cells of the row of [ap]. *)
Definition metric_cells
           (uploadedPlanNaturalDimensions : option Dimensions)
           (parsedBuildingLength : option R) (ap : APCoordinate)
  : MetricCell * MetricCell :=
  let scale :=
    pixelsPerMeterScaleManual uploadedPlanNaturalDimensions
                              parsedBuildingLength in
  (x_m scale ap, y_m scale ap).

End ManualTable.

(** ** Validation of the AI suggestions ([getAiPlacementSuggestions]) *)

Module AiSuggestions.

(** A field of an item of the parsed JSON array: a number, or anything on
    which [typeof v === 'number'] is false (a string, [null], a missing
    field, ...). *)
Inductive JsonField : Type :=
| JNumber (v : R)
| JNotNumber.

Record JsonItem : Type := mkItem { item_x : JsonField; item_y : JsonField }.

(** The function returns a result or throws an [Error] with a message. *)
Inductive Outcome : Type :=
| Returned (r : OptimizationResult)
| Thrown (msg : String.string).

Definition msg_none_valid : String.string :=
  "La IA devolvió coordenadas, pero ninguna era válida o estaba dentro de los límites del edificio después del formateo.".

Definition msg_no_coordinates : String.string :=
  "La IA no devolvió coordenadas válidas.".

Definition msg_bad_format : String.string :=
  "La respuesta de la IA no tiene el formato esperado (array de objetos {x, y}).".

(** [typeof item.x === 'number' && typeof item.y === 'number'], giving the
    two numbers when it holds. *)
Definition numeric_item (item : JsonItem) : option APCoordinate :=
  match item_x item, item_y item with
  | JNumber vx, JNumber vy => Some (mkAP vx vy)
  | _, _ => None
  end.

(** [parsedData.every(...)], giving the items as pairs of numbers. *)
Fixpoint every_numeric (parsedData : list JsonItem)
  : option (list APCoordinate) :=
  match parsedData with
  | [] => Some []
  | item :: rest =>
      match numeric_item item, every_numeric rest with
      | Some ap, Some aps => Some (ap :: aps)
      | _, _ => None
      end
  end.

Definition rounded (ap : APCoordinate) : APCoordinate :=
  mkAP (toFixed2 (x ap)) (toFixed2 (y ap)).

(** The predicate of [.filter]; [!isNaN] always holds of a real. *)
Definition within_building (length width : R) (ap : APCoordinate) : bool :=
  geb (x ap) 0 && leb (x ap) length && geb (y ap) 0 && leb (y ap) width.

(** What [getAiPlacementSuggestions] does with [parsedData], the parsed
    answer, when it is an array: a result, or the error of the [else]
    branch (which the [catch] rethrows with the raw text appended). *)
Definition validate_suggestions
           (length width : R) (parsedData : list JsonItem) : Outcome :=
  match every_numeric parsedData with
  | Some points =>
      let validatedCoordinates :=
        filter (within_building length width) (map rounded points) in
      if (List.length validatedCoordinates =? 0)%nat
         && negb (List.length parsedData =? 0)%nat
      then Returned (mkResult 0 [] (Some msg_none_valid))
      else
        Returned
          (mkResult (Z.of_nat (List.length validatedCoordinates))
                    validatedCoordinates
                    (if (0 <? List.length validatedCoordinates)%nat
                     then None else Some msg_no_coordinates))
  | None => Thrown msg_bad_format
  end.

(** The item [{x: ..., y: ...}] of a point with two numbers. *)
Definition item_of_point (ap : APCoordinate) : JsonItem :=
  mkItem (JNumber (x ap)) (JNumber (y ap)).



End AiSuggestions.

(** ** The building drawing ([BuildingVisualizer]) *)

Module BuildingVisualizer.

Record BuildingDimensions : Type := mkBuilding { length : R; width : R }.

(** [currentBuildingDimensions] of [App.tsx]: [parseFloat(...) || 0], the
    parsed value being [None] when it is [NaN]. *)
Definition currentBuildingDimensions
           (parsedLength parsedWidth : option R) : BuildingDimensions :=
  mkBuilding (match parsedLength with Some v => v | None => 0 end)
             (match parsedWidth with Some v => v | None => 0 end).

Definition viewBoxWidth : R := 800.
Definition padding : R := 20.

Definition scaleFactor (building : BuildingDimensions) : R :=
  if gtb (length building) 0 then viewBoxWidth / length building else 1.

Definition viewBoxHeight (building : BuildingDimensions) : R :=
  width building * scaleFactor building.

Definition scaledAPs (building : BuildingDimensions) (aps : list APCoordinate)
  : list APCoordinate :=
  map (fun ap => mkAP (x ap * scaleFactor building + padding)
                      (y ap * scaleFactor building + padding))
      aps.

Definition scaledRadius (building : BuildingDimensions) (coverageRadius : R)
  : R :=
  coverageRadius * scaleFactor building.

(** The [<svg>] is rendered when [building.length > 0 && building.width > 0];
    the building is the rectangle at [(padding, padding)] of size
    [viewBoxWidth] by [viewBoxHeight]. *)
Definition svg_rendered (building : BuildingDimensions) : bool :=
  gtb (length building) 0 && gtb (width building) 0.

End BuildingVisualizer.

(** ** The form and the reports ([App.tsx]) *)

Module App.

Definition msg_not_numbers : String.string :=
  "Por favor, ingrese valores numéricos válidos.".

Definition msg_not_positive_inputs : String.string :=
  "Los valores de área y dimensiones deben ser positivos.".

(** The state [handleSubmit] writes. *)
Record SubmitState : Type := mkSubmit {
  results : option OptimizationResult;
  error : option String.string;
  isLoading : bool
}.

(** A string is truthy when it is not empty; [undefined] is not. *)
Definition truthy (m : option String.string) : bool :=
  match m with
  | Some text => negb (String.eqb text "")
  | None => false
  end.

(** [handleSubmit], from the three parsed fields ([None] is [NaN]); the
    state starts from [setError(null)], [setResults(null)]. *)
Definition handleSubmit (area_m2 l w : option R) : SubmitState :=
  match area_m2, l, w with
  | Some area_m2, Some l, Some w =>
      if leb area_m2 0 || leb l 0 || leb w 0 then
        mkSubmit None (Some msg_not_positive_inputs) false
      else
        let rParamForAlgorithm := sqrt (area_m2 / 2) in
        let optimizationData :=
          PlacementEngine.calculateAPPlacement rParamForAlgorithm l w in
        if truthy (message optimizationData)
           && (List.length (coordinates optimizationData) =? 0)%nat
        then mkSubmit None (message optimizationData) false
        else if truthy (message optimizationData)
        then mkSubmit (Some optimizationData) (message optimizationData) false
        else mkSubmit (Some optimizationData) None false
  | _, _, _ => mkSubmit None (Some msg_not_numbers) false
  end.

Definition msg_no_suggestion : String.string :=
  "La IA no sugirió ninguna ubicación de AP.".

(** What [handleAiOptimize] stores in [aiResults] when
    [getAiPlacementSuggestions] has returned [aiData]. *)
Definition stored_ai_results (aiData : OptimizationResult)
  : OptimizationResult :=
  if (List.length (coordinates aiData) =? 0)%nat
     && negb (truthy (message aiData))
  then mkResult (nAP aiData) (coordinates aiData) (Some msg_no_suggestion)
  else aiData.

(** The size of the captured plan in [handleDownloadManualPdf]: it starts at
    the page width and is reduced to the height that is left. *)
Definition plan_image_size
           (pdfPageWidth maxImgHeight props_width props_height : R) : R * R :=
  let imgWidth := pdfPageWidth in
  let imgHeight := (props_height * imgWidth) / props_width in
  let '(imgWidth, imgHeight) :=
    if gtb imgHeight maxImgHeight
    then ((props_width * maxImgHeight) / props_height, maxImgHeight)
    else (imgWidth, imgHeight) in
  if gtb imgWidth pdfPageWidth
  then (pdfPageWidth, (props_height * pdfPageWidth) / props_width)
  else (imgWidth, imgHeight).

End App.

(** ** Combinations ([mathHelpers.ts]) *)

Module MathHelpers.

Section Nchoosek.
Variable T : Type.
(** The value of [arr[i]] outside the array. *)
Variable undefined : T.

(** [buildIndices(startIndex, currentIndices)] for an array of length [n],
    with [startIndex = n - remaining]; the result is what the call pushes on
    [combinationIndices], in order. *)
Fixpoint buildIndices (n : nat) (k : Z) (remaining : nat)
         (currentIndices : list nat) : list (list nat) :=
  if (Z.of_nat (List.length currentIndices) =? k)%Z then [currentIndices]
  else
    match remaining with
    | O => []
    | S remaining' =>
        let startIndex := (n - remaining)%nat in
        buildIndices n k remaining' (currentIndices ++ [startIndex])
        ++ (if (k - Z.of_nat (List.length currentIndices)
                <=? Z.of_nat n - Z.of_nat (startIndex + 1))%Z
            then buildIndices n k remaining' currentIndices
            else [])
    end.

Definition nchoosek (arr : list T) (k : Z) : list (list T) :=
  let n := List.length arr in
  if (k <? 0)%Z || (Z.of_nat n <? k)%Z then []
  else if (k =? 0)%Z then [[]]
  else if (k =? Z.of_nat n)%Z then [arr]
  else if (k =? 1)%Z then map (fun item => [item]) arr
  else
    map (fun indices => map (fun i => nth i arr undefined) indices)
        (buildIndices n k n []).

(** The sublists of [k] elements of a list, those with the first element
    first. *)
Fixpoint combinations (k : nat) (l : list T) : list (list T) :=
  match k, l with
  | O, _ => [[]]
  | S _, [] => []
  | S k', a :: l' => map (cons a) (combinations k' l') ++ combinations k l'
  end.

(** [s] is [l] with some elements left out. *)
Inductive subsequence : list T -> list T -> Prop :=
| subsequence_nil : subsequence [] []
| subsequence_take (a : T) (s l : list T) :
    subsequence s l -> subsequence (a :: s) (a :: l)
| subsequence_skip (a : T) (s l : list T) :
    subsequence s l -> subsequence s (a :: l).

End Nchoosek.

(** Pascal's triangle. *)
Fixpoint binomial (n k : nat) : nat :=
  match n, k with
  | _, O => 1
  | O, S _ => 0
  | S n', S k' => binomial n' k' + binomial n' k
  end.

(** [heaviside] *)
Definition heaviside (a : R) : R := if geb a 0 then 1 else 0.

End MathHelpers.

(** ** The placement loops, for any kind of number ([optimizationService.ts]) *)

(** The two nested [for] loops of [calculateAPPlacement] do not look at the
    coordinates they append: here they are written once, over the values
    [cell_centre r_idx c_idx] appended for row [r_idx] and column [c_idx],
    for the two readings of the arithmetic below. *)
Module GridLoops.

Section Loops.
Variable A : Type.
Variables (nAP_target num_placement_cols : Z).
(** [{ x: ap_x, y: ap_y }] *)
Variable cell_centre : Z -> Z -> A.

(** [resultado.length >= nAP_target] *)
Definition target_reached (resultado : list A) : bool :=
  (nAP_target <=? Z.of_nat (length resultado))%Z.

(** Inner loop, with [todo] iterations left before the loop condition
    fails. *)
Fixpoint cols_loop (todo : nat) (r_idx c_idx : Z) (resultado : list A)
  : list A :=
  match todo with
  | O => resultado
  | S todo' =>
      if target_reached resultado then resultado (* break *)
      else
        cols_loop todo' r_idx (c_idx + 1)
                  (resultado ++ [cell_centre r_idx c_idx])
  end.

(** Outer loop. *)
Fixpoint rows_loop (todo : nat) (r_idx : Z) (resultado : list A) : list A :=
  match todo with
  | O => resultado
  | S todo' =>
      let resultado' :=
        cols_loop (Z.to_nat num_placement_cols) r_idx 0 resultado in
      if target_reached resultado' then resultado' (* break *)
      else rows_loop todo' (r_idx + 1) resultado'
  end.

(** The cells of a grid in row-major order. *)
Definition row_major (rows : Z) : list A :=
  flat_map (fun r_idx =>
              map (cell_centre r_idx)
                  (PlacementEngine.indices 0 (Z.to_nat num_placement_cols)))
           (PlacementEngine.indices 0 (Z.to_nat rows)).
End Loops.

Arguments target_reached {A}.
Arguments cols_loop {A}.
Arguments rows_loop {A}.
Arguments row_major {A}.

End GridLoops.

(** ** The arithmetic with its rounding ([optimizationService.ts], [App.tsx]) *)

(** The result of an arithmetic operation of the source is the binary64
    number nearest to its exact value.  Here the functions whose result
    depends on that are written again with the rounding [rnd] of every
    operation in place; what is assumed of [rnd] is [rounding] below, which
    round-to-nearest of binary64 meets as long as no result overflows or is
    subnormal, and which the identity (exact arithmetic) meets as well. *)
Module Rounded.

(** The unit roundoff [2^-53]. *)
Definition u : R := / 9007199254740992.

Record rounding (rnd : R -> R) : Prop := mkRounding {
  rnd_monotone : forall a b : R, a <= b -> rnd a <= rnd b;
  rnd_error : forall a : R, Rabs (rnd a - a) <= u * Rabs a
}.

Section Arithmetic.
Variable rnd : R -> R.

(** A decimal literal of the source, and [parseFloat] of a decimal text. *)
Definition literal (a : R) : R := rnd a.
Definition parseFloat (a : R) : R := rnd a.

(** [a + b], [a * b], [a / b] and [Math.sqrt(a)]. *)
Definition add (a b : R) : R := rnd (a + b).
Definition mul (a b : R) : R := rnd (a * b).
Definition div (a b : R) : R := rnd (a / b).
Definition Math_sqrt (a : R) : R := rnd (sqrt a).

(** [parseFloat(ap.x.toFixed(2))]: [toFixed] prints the exact decimal
    rounding of the number it is given and [parseFloat] rounds what it
    reads. *)
Definition formatted (ap : APCoordinate) : APCoordinate :=
  mkAP (parseFloat (toFixed2 (x ap))) (parseFloat (toFixed2 (y ap))).

(** The coordinates appended for row [r_idx] and column [c_idx].  The
    counters are integers below [2^53], which binary64 holds exactly; so is
    [0.5]. *)
Definition cell_centre (cell_placement_width cell_placement_height : R)
           (r_idx c_idx : Z) : APCoordinate :=
  let ap_x := mul (add (IZR c_idx) 0.5) cell_placement_width in
  let ap_y := mul (add (IZR r_idx) 0.5) cell_placement_height in
  mkAP ap_x ap_y.

(** The intermediate values of [calculateAPPlacement]. *)
Definition L_calc_of (radius : R) : R := mul (Math_sqrt 2) radius.

Definition Area_C_of (radius : R) : R :=
  mul (L_calc_of radius) (L_calc_of radius).

Definition nAP_target_of (radius Largo Ancho : R) : Z :=
  Z.max 1 (Math_ceil (div (mul Largo Ancho) (Area_C_of radius))).

Definition placement_cells (radius side : R) : Z :=
  Z.max 1 (Math_ceil (div side (L_calc_of radius))).

Definition cell_size (radius side : R) : R :=
  div side (IZR (placement_cells radius side)).

Definition message_of (radius Largo Ancho : R) : option String.string :=
  if ltb Largo (L_calc_of radius) || ltb Ancho (L_calc_of radius)
  then Some PlacementEngine.msg_small_building else None.

Definition calculateAPPlacement
           (radius buildingLength buildingWidth : R) : OptimizationResult :=
  let R_param := radius in
  let Largo := buildingLength in
  let Ancho := buildingWidth in
  if leb R_param 0 || leb Largo 0 || leb Ancho 0 then
    mkResult 0 [] (Some PlacementEngine.msg_not_positive)
  else
    let L_calc := mul (Math_sqrt 2) R_param in
    if ltb L_calc (literal 1e-6) then
      mkResult 0 [] (Some PlacementEngine.msg_invalid_cell)
    else
      let Area_C := mul L_calc L_calc in
      let Area_E := mul Largo Ancho in
      let nAP_target := Z.max 1 (Math_ceil (div Area_E Area_C)) in
      let message :=
        if ltb Largo L_calc || ltb Ancho L_calc
        then Some PlacementEngine.msg_small_building else None in
      let num_placement_cols := Z.max 1 (Math_ceil (div Largo L_calc)) in
      let num_placement_rows := Z.max 1 (Math_ceil (div Ancho L_calc)) in
      let cell_placement_width := div Largo (IZR num_placement_cols) in
      let cell_placement_height := div Ancho (IZR num_placement_rows) in
      let resultado :=
        GridLoops.rows_loop
          nAP_target num_placement_cols
          (cell_centre cell_placement_width cell_placement_height)
          (Z.to_nat num_placement_rows) 0 [] in
      let finalCoordinates := map formatted resultado in
      mkResult (Z.of_nat (length finalCoordinates))
               finalCoordinates message.

(** [handleSubmit] of [App.tsx]. *)
Definition handleSubmit (area_m2 l w : option R) : App.SubmitState :=
  match area_m2, l, w with
  | Some area_m2, Some l, Some w =>
      if leb area_m2 0 || leb l 0 || leb w 0 then
        App.mkSubmit None (Some App.msg_not_positive_inputs) false
      else
        let rParamForAlgorithm := Math_sqrt (div area_m2 2) in
        let optimizationData := calculateAPPlacement rParamForAlgorithm l w in
        if App.truthy (message optimizationData)
           && (List.length (coordinates optimizationData) =? 0)%nat
        then App.mkSubmit None (message optimizationData) false
        else if App.truthy (message optimizationData)
        then App.mkSubmit (Some optimizationData)
                          (message optimizationData) false
        else App.mkSubmit (Some optimizationData) None false
  | _, _, _ => App.mkSubmit None (Some App.msg_not_numbers) false
  end.

(** The metric columns of the manual AP table. *)
Definition pixelsPerMeterScaleManual
           (uploadedPlanNaturalDimensions
              : option InteractivePlanDisplay.Dimensions)
           (parsedBuildingLength : option R) : R :=
  match uploadedPlanNaturalDimensions, parsedBuildingLength with
  | Some dims, Some len =>
      if gtb (InteractivePlanDisplay.width dims) 0 && gtb len 0
      then div (InteractivePlanDisplay.width dims) len else 0
  | _, _ => 0
  end.

Definition x_m (scale : R) (ap : APCoordinate) : ManualTable.MetricCell :=
  if gtb scale 0 then ManualTable.Fixed2 (toFixed2 (div (x ap) scale))
  else ManualTable.NA.

Definition y_m (scale : R) (ap : APCoordinate) : ManualTable.MetricCell :=
  if gtb scale 0 then ManualTable.Fixed2 (toFixed2 (div (y ap) scale))
  else ManualTable.NA.

Definition metric_cells
           (uploadedPlanNaturalDimensions
              : option InteractivePlanDisplay.Dimensions)
           (parsedBuildingLength : option R) (ap : APCoordinate)
  : ManualTable.MetricCell * ManualTable.MetricCell :=
  let scale :=
    pixelsPerMeterScaleManual uploadedPlanNaturalDimensions
                              parsedBuildingLength in
  (x_m scale ap, y_m scale ap).

End Arithmetic.

(** [a] is [b] up to [k] roundings: within the relative distance
    [k * 1.2e-16] of it. *)
Definition near (k : R) (b a : R) : Prop :=
  b * (1 - k * 1.2e-16) <= a <= b * (1 + k * 1.2e-16).

End Rounded.

(** ** The placement on binary64 numbers ([optimizationService.ts]) *)

(** [calculateAPPlacement] on the binary64 numbers of the kernel, whose
    operations are those of IEEE 754 with rounding to nearest, to run it on
    given inputs.  The result is [None] where a ceiling is NaN or infinite
    or the grid has more than [2^53] rows or columns: these runs are left
    out of the transcription. *)
Module Binary64.
Import PrimFloat SpecFloat FloatOps.
Local Open Scope float_scope.

Record APCoordinate : Type := mkAP { x : float; y : float }.

Record OptimizationResult : Type := mkResult {
  nAP : Z;
  coordinates : list APCoordinate;
  message : option String.string
}.

(** The integer [n] as a number; exact for [|n| <= 2^53]. *)
Definition of_Z (n : Z) : float :=
  if (n <? 0)%Z then - of_uint63 (Uint63.of_Z (- n))
  else of_uint63 (Uint63.of_Z n).

(** The number [parseFloat] reads from the decimal text of [n / d], for
    integers [n] and [d] below [2^53]: the binary64 number nearest to the
    quotient. *)
Definition decimal (n d : Z) : float := of_Z n / of_Z d.


(** [Math.ceil] of a finite number, an integer; [None] for NaN and the
    infinities.  The number is [m * 2^e], negated when [s] is set. *)
Definition Math_ceil (a : float) : option Z :=
  match Prim2SF a with
  | S754_zero _ => Some 0%Z
  | S754_finite s m e =>
      if (0 <=? e)%Z then Some (cond_Zopp s (Zpos m * 2 ^ e))
      else
        let d := (2 ^ (- e))%Z in
        Some (if s then - (Zpos m / d) else (Zpos m + d - 1) / d)%Z
  | _ => None
  end.

(** [parseFloat(a.toFixed(2))].  For a magnitude below [2^46] the text is
    that of [n / 100], with [n] the integer nearest to [100 * |a|] (the
    larger one on a tie), below [2^53], and [parseFloat] gives the number
    nearest to that quotient.  From [2^46] on, neighbouring binary64
    numbers are [2^-6 = 0.015625] or more apart, so the number nearest to
    the text, which is within 0.005 of [a], is [a] itself; an infinity and
    NaN print as such.  The sign of a zero is left aside. *)
Definition toFixed2 (a : float) : float :=
  match Prim2SF (abs a) with
  | S754_finite _ m e =>
      if leb 0x1p46 (abs a) then a
      else
        let n :=
          if (0 <=? e)%Z then (Zpos m * 2 ^ e * 100)%Z
          else ((200 * Zpos m + 2 ^ (- e)) / (2 * 2 ^ (- e)))%Z in
        let v := of_Z n / 100 in
        if ltb a 0 then - v else v
  | _ => a
  end.

Definition formatted (ap : APCoordinate) : APCoordinate :=
  mkAP (toFixed2 (x ap)) (toFixed2 (y ap)).

(** The coordinates appended for row [r_idx] and column [c_idx]. *)
Definition cell_centre (cell_placement_width cell_placement_height : float)
           (r_idx c_idx : Z) : APCoordinate :=
  let ap_x := (of_Z c_idx + 0.5) * cell_placement_width in
  let ap_y := (of_Z r_idx + 0.5) * cell_placement_height in
  mkAP ap_x ap_y.

(** The intermediate values of [calculateAPPlacement]. *)
Definition L_calc_of (radius : float) : float := sqrt 2 * radius.

Definition placement_cells (radius side : float) : option Z :=
  option_map (Z.max 1) (Math_ceil (side / L_calc_of radius)).

Definition nAP_target_of (radius Largo Ancho : float) : option Z :=
  option_map (Z.max 1)
    (Math_ceil (Largo * Ancho / (L_calc_of radius * L_calc_of radius))).

(** [1e-6] is the binary64 number [0x1.0c6f7a0b5ed8dp-20]. *)
Definition calculateAPPlacement
           (radius buildingLength buildingWidth : float)
  : option OptimizationResult :=
  let R_param := radius in
  let Largo := buildingLength in
  let Ancho := buildingWidth in
  if leb R_param 0 || leb Largo 0 || leb Ancho 0 then
    Some (mkResult 0 [] (Some PlacementEngine.msg_not_positive))
  else
    let L_calc := sqrt 2 * R_param in
    if ltb L_calc 0x1.0c6f7a0b5ed8dp-20 then
      Some (mkResult 0 [] (Some PlacementEngine.msg_invalid_cell))
    else
      let Area_C := L_calc * L_calc in
      let Area_E := Largo * Ancho in
      let message :=
        if ltb Largo L_calc || ltb Ancho L_calc
        then Some PlacementEngine.msg_small_building else None in
      match Math_ceil (Area_E / Area_C),
            Math_ceil (Largo / L_calc), Math_ceil (Ancho / L_calc) with
      | Some target_ceiling, Some cols_ceiling, Some rows_ceiling =>
          let nAP_target := Z.max 1 target_ceiling in
          let num_placement_cols := Z.max 1 cols_ceiling in
          let num_placement_rows := Z.max 1 rows_ceiling in
          if (num_placement_cols <=? 2 ^ 53)%Z
             && (num_placement_rows <=? 2 ^ 53)%Z
          then
            let cell_placement_width := Largo / of_Z num_placement_cols in
            let cell_placement_height := Ancho / of_Z num_placement_rows in
            let resultado :=
              GridLoops.rows_loop
                nAP_target num_placement_cols
                (cell_centre cell_placement_width cell_placement_height)
                (Z.to_nat num_placement_rows) 0 [] in
            let finalCoordinates := map formatted resultado in
            Some (mkResult (Z.of_nat (length finalCoordinates))
                           finalCoordinates message)
          else None
      | _, _, _ => None
      end.

End Binary64.

(** * Properties *)

(** ** Facts about the number model *)

Section NumberFacts.

Lemma ltb_true_iff (a b : R) : ltb a b = true <-> a < b.
Proof. unfold ltb; destruct (Rlt_dec a b); split; intros; try easy. Qed.

Lemma ltb_false_iff (a b : R) : ltb a b = false <-> b <= a.
Proof.
  unfold ltb; destruct (Rlt_dec a b); split; intros; try easy; lra.
Qed.

Lemma leb_true_iff (a b : R) : leb a b = true <-> a <= b.
Proof. unfold leb; destruct (Rle_dec a b); split; intros; try easy. Qed.

Lemma leb_false_iff (a b : R) : leb a b = false <-> b < a.
Proof.
  unfold leb; destruct (Rle_dec a b); split; intros; try easy; lra.
Qed.

Lemma sqrt2_sqr : sqrt 2 * sqrt 2 = 2.
Proof. apply sqrt_sqrt; lra. Qed.

Lemma sqrt2_pos : 0 < sqrt 2.
Proof. apply sqrt_lt_R0; lra. Qed.

(** [1.41 < sqrt 2 < 1.42] *)
Lemma sqrt2_bounds : 1.41 < sqrt 2 < 1.42.
Proof.
  pose proof sqrt2_sqr as Hs. pose proof sqrt2_pos as Hp. split; nra.
Qed.

End NumberFacts.

(** Settles the comparisons of the goal that linear arithmetic decides from
    the hypotheses. *)
Ltac settle_cmp :=
  repeat match goal with
    | |- context [ltb ?a ?b] =>
        first [ rewrite (proj2 (ltb_true_iff a b)) by lra
              | rewrite (proj2 (ltb_false_iff a b)) by lra ]
    | |- context [leb ?a ?b] =>
        first [ rewrite (proj2 (leb_true_iff a b)) by lra
              | rewrite (proj2 (leb_false_iff a b)) by lra ]
    end.

Section CeilFacts.

Lemma Zceil_le_of_le_IZR (a : R) (z : Z) : a <= IZR z -> (Zceil a <= z)%Z.
Proof.
  intros Ha. destruct (Zceil_bound a) as [Hlo _].
  apply Z.lt_succ_r, lt_IZR. rewrite succ_IZR. lra.
Qed.

Lemma Zceil_pos (a : R) : 0 < a -> (1 <= Zceil a)%Z.
Proof.
  intros Ha. destruct (Zceil_bound a) as [_ Hhi].
  assert (0 < Zceil a)%Z by (apply lt_IZR; lra). lia.
Qed.

Lemma IZR_Zmax1_ge (a : R) : a <= IZR (Z.max 1 (Zceil a)).
Proof.
  destruct (Zceil_bound a) as [_ Hhi].
  apply Rle_trans with (IZR (Zceil a)); [exact Hhi | apply IZR_le; lia].
Qed.

End CeilFacts.

(** ** The placement loops *)

Module Import PlacementFacts.
Import PlacementEngine.

Section LoopFacts.
Variables (target cols : Z) (cw ch : R).

Abbreviation cols_loop := (cols_loop target cw ch).
Abbreviation rows_loop := (rows_loop target cols cw ch).

Local Abbreviation len l := (Z.of_nat (length l)).

(** The inner loop appends until the target or the end of the row. *)
Lemma cols_loop_length (todo : nat) (r_idx c_idx : Z) (res : list APCoordinate) :
  len (cols_loop todo r_idx c_idx res)
  = Z.max (len res) (Z.min target (len res + Z.of_nat todo)).
Proof.
  revert c_idx res. induction todo as [|todo IH]; intros c_idx res.
  - simpl. lia.
  - cbn [PlacementEngine.cols_loop]. unfold target_reached.
    destruct (Z.leb_spec target (len res)) as [Hge|Hlt].
    + lia.
    + rewrite IH, length_app. cbn [length]. lia.
Qed.

Lemma rows_loop_length (todo : nat) (r_idx : Z) (res : list APCoordinate) :
  (0 <= cols)%Z ->
  len (rows_loop todo r_idx res)
  = Z.max (len res) (Z.min target (len res + Z.of_nat todo * cols)).
Proof.
  intros Hc. revert r_idx res. induction todo as [|todo IH]; intros r_idx res.
  - simpl. lia.
  - cbn [PlacementEngine.rows_loop].
    pose proof (cols_loop_length (Z.to_nat cols) r_idx 0 res) as Hin.
    rewrite Z2Nat.id in Hin by exact Hc.
    set (res' := cols_loop (Z.to_nat cols) r_idx 0 res) in *.
    unfold target_reached.
    destruct (Z.leb_spec target (len res')) as [Hge|Hlt].
    + nia.
    + rewrite IH. nia.
Qed.

(** The loops append the cell centres in row-major order and stop at the
    target. *)
Lemma cols_loop_enum (todo : nat) (r_idx c_idx : Z) (res : list APCoordinate) :
  cols_loop todo r_idx c_idx res
  = res ++ firstn (Z.to_nat (target - len res))
                  (map (cell_centre cw ch r_idx) (indices c_idx todo)).
Proof.
  revert c_idx res. induction todo as [|todo IH]; intros c_idx res.
  - cbn. now rewrite firstn_nil, app_nil_r.
  - cbn [PlacementEngine.cols_loop indices map]. unfold target_reached.
    destruct (Z.leb_spec target (len res)) as [Hge|Hlt].
    + replace (Z.to_nat (target - len res)) with 0%nat by lia.
      cbn. now rewrite app_nil_r.
    + rewrite IH, length_app. cbn [length].
      replace (Z.to_nat (target - len res))
        with (S (Z.to_nat (target - Z.of_nat (length res + 1)))) by lia.
      cbn [firstn]. rewrite <- app_assoc. reflexivity.
Qed.

Lemma rows_loop_enum (todo : nat) (r_idx : Z) (res : list APCoordinate) :
  rows_loop todo r_idx res
  = res ++ firstn (Z.to_nat (target - len res))
                  (flat_map
                     (fun r => map (cell_centre cw ch r)
                                   (indices 0 (Z.to_nat cols)))
                     (indices r_idx todo)).
Proof.
  revert r_idx res. induction todo as [|todo IH]; intros r_idx res.
  - cbn. now rewrite firstn_nil, app_nil_r.
  - cbn [PlacementEngine.rows_loop indices flat_map].
    rewrite cols_loop_enum.
    set (row := map (cell_centre cw ch r_idx) (indices 0 (Z.to_nat cols))).
    set (n := Z.to_nat (target - len res)).
    rewrite firstn_app. unfold target_reached.
    destruct (Z.leb_spec target (len (res ++ firstn n row))) as [Hge|Hlt].
    + rewrite length_app, length_firstn in Hge.
      replace (n - length row)%nat with 0%nat by lia.
      cbn [firstn]. now rewrite app_nil_r.
    + rewrite IH. rewrite length_app, length_firstn in *.
      rewrite <- app_assoc. f_equal.
      rewrite (@firstn_all2 _ n row) by lia. do 2 f_equal. lia.
Qed.

End LoopFacts.
End PlacementFacts.

(** ** Degenerate inputs *)

Section Placement.
Import PlacementEngine.

(** At a guard the function returns one of its two fixed results. *)
Lemma calculateAPPlacement_guarded (radius len wid : R) :
  (radius <= 0 \/ len <= 0 \/ wid <= 0) \/ sqrt 2 * radius < 1e-6 ->
  calculateAPPlacement radius len wid = mkResult 0 [] (Some msg_not_positive)
  \/ calculateAPPlacement radius len wid = mkResult 0 [] (Some msg_invalid_cell).
Proof.
  intros H. unfold calculateAPPlacement.
  destruct (leb radius 0 || leb len 0 || leb wid 0) eqn:Hguard; [now left|].
  destruct (ltb (sqrt 2 * radius) 1e-6) eqn:Hcell; [now right|]. exfalso.
  apply orb_false_elim in Hguard as [Hguard Hw].
  apply orb_false_elim in Hguard as [Hr Hl].
  apply leb_false_iff in Hr, Hl, Hw. apply ltb_false_iff in Hcell.
  destruct H as [[H|[H|H]]|H]; lra.
Qed.



(** ** The main path *)

(** Past the two guards the function is the grid enumeration, formatted. *)
Lemma calculateAPPlacement_regular (radius len wid : R) :
  0 < radius -> 0 < len -> 0 < wid -> 1e-6 <= sqrt 2 * radius ->
  calculateAPPlacement radius len wid
  = mkResult (Z.of_nat (length (map formatted (resultado_of radius len wid))))
             (map formatted (resultado_of radius len wid))
             (message_of radius len wid).
Proof.
  intros Hr Hl Hw Hc. unfold calculateAPPlacement. settle_cmp. reflexivity.
Qed.

Lemma L_calc_pos (radius : R) : 0 < radius -> 0 < L_calc_of radius.
Proof.
  intros Hr. unfold L_calc_of. apply Rmult_lt_0_compat; [apply sqrt2_pos | exact Hr].
Qed.

Lemma L_calc_sqr (radius : R) :
  L_calc_of radius * L_calc_of radius = 2 * radius ^ 2.
Proof.
  unfold L_calc_of.
  replace (sqrt 2 * radius * (sqrt 2 * radius))
    with (sqrt 2 * sqrt 2 * radius ^ 2) by ring.
  now rewrite sqrt2_sqr.
Qed.

Lemma placement_cells_ge_1 (radius side : R) : (1 <= placement_cells radius side)%Z.
Proof. unfold placement_cells. lia. Qed.

Lemma placement_cells_covers (radius side : R) :
  side / L_calc_of radius <= IZR (placement_cells radius side).
Proof. apply IZR_Zmax1_ge. Qed.

(** [ceil(length/cell) * ceil(width/cell) >= ceil(length*width/cell^2)]:
    the grid has at least [nAP_target] cells. *)
Lemma grid_holds_target (radius len wid : R) :
  0 < radius -> 0 < len -> 0 < wid ->
  (nAP_target_of radius len wid
   <= placement_cells radius wid * placement_cells radius len)%Z.
Proof.
  intros Hr Hl Hw. pose proof (L_calc_pos radius Hr) as Hc.
  pose proof (placement_cells_ge_1 radius len) as Hcols.
  pose proof (placement_cells_ge_1 radius wid) as Hrows.
  unfold nAP_target_of, Math_ceil. apply Z.max_lub; [nia|].
  apply Zceil_le_of_le_IZR. rewrite mult_IZR.
  pose proof (placement_cells_covers radius len) as Hx.
  pose proof (placement_cells_covers radius wid) as Hy.
  assert (0 < len / L_calc_of radius) by (apply Rdiv_lt_0_compat; lra).
  assert (0 < wid / L_calc_of radius) by (apply Rdiv_lt_0_compat; lra).
  replace (len * wid / (L_calc_of radius * L_calc_of radius))
    with ((wid / L_calc_of radius) * (len / L_calc_of radius))
    by (field; lra).
  apply Rmult_le_compat; lra.
Qed.

Lemma nAP_target_formula (radius len wid : R) :
  0 < radius -> 0 < len -> 0 < wid ->
  nAP_target_of radius len wid = Zceil (len * wid / (2 * radius ^ 2))
  /\ (1 <= nAP_target_of radius len wid)%Z.
Proof.
  intros Hr Hl Hw. unfold nAP_target_of, Math_ceil. rewrite L_calc_sqr.
  assert (0 < len * wid / (2 * radius ^ 2)) as Hq.
  { apply Rdiv_lt_0_compat; nra. }
  pose proof (Zceil_pos _ Hq). split; lia.
Qed.

Lemma resultado_length (radius len wid : R) :
  0 < radius -> 0 < len -> 0 < wid ->
  Z.of_nat (length (resultado_of radius len wid)) = nAP_target_of radius len wid.
Proof.
  intros Hr Hl Hw. unfold resultado_of.
  pose proof (placement_cells_ge_1 radius len) as Hcols.
  pose proof (placement_cells_ge_1 radius wid) as Hrows.
  rewrite rows_loop_length by lia. cbn [length].
  rewrite Z2Nat.id by lia.
  pose proof (grid_holds_target radius len wid Hr Hl Hw).
  pose proof (nAP_target_formula radius len wid Hr Hl Hw) as [_ H1].
  lia.
Qed.

(** On every input of the main path the raw coordinates are the first
    [nAP_target] cell centres in row-major order. *)
Lemma resultado_row_major (radius len wid : R) :
  resultado_of radius len wid
  = firstn (Z.to_nat (nAP_target_of radius len wid))
           (row_major (placement_cells radius len) (placement_cells radius wid)
                      (len / IZR (placement_cells radius len))
                      (wid / IZR (placement_cells radius wid))).
Proof.
  unfold resultado_of, row_major. rewrite rows_loop_enum.
  cbn [app length Z.of_nat]. now rewrite Z.sub_0_r.
Qed.

Lemma message_of_small (radius len wid : R) :
  (len < sqrt 2 * radius \/ wid < sqrt 2 * radius ->
   message_of radius len wid = Some msg_small_building)
  /\ (sqrt 2 * radius <= len /\ sqrt 2 * radius <= wid ->
      message_of radius len wid = None).
Proof.
  unfold message_of, L_calc_of. split.
  - intros [H|H]; apply ltb_true_iff in H; rewrite H;
      [reflexivity | now rewrite orb_true_r].
  - intros [Hl Hw]. now settle_cmp.
Qed.


(** ** Rounding to two decimals *)

Lemma nearest_hundredth_of_hundredths (n : Z) :
  nearest_hundredth (IZR n / 100) = IZR n / 100.
Proof.
  unfold nearest_hundredth. f_equal. f_equal.
  apply Zfloor_eq. lra.
Qed.

(** [toFixed(2)] leaves a non-negative number with at most two decimals
    unchanged. *)
Lemma toFixed2_hundredths (a : R) (n : Z) :
  a = IZR n / 100 -> 0 <= a < 1e21 -> toFixed2 a = a.
Proof.
  intros -> [H0 H1]. unfold toFixed2. rewrite Rabs_pos_eq by exact H0.
  settle_cmp. apply nearest_hundredth_of_hundredths.
Qed.

(** Deciding a ceiling of a quotient without dividing. *)
Lemma Zceil_div_eq (a c : R) (k : Z) :
  0 < c -> (IZR k - 1) * c < a <= IZR k * c -> Zceil (a / c) = k.
Proof.
  intros Hc [Hlo Hhi]. apply Zceil_eq. split.
  - apply Rmult_lt_reg_r with c; [exact Hc|].
    unfold Rdiv. rewrite Rmult_assoc, Rinv_l by lra. lra.
  - apply Rmult_le_reg_r with c; [exact Hc|].
    unfold Rdiv. rewrite Rmult_assoc, Rinv_l by lra. lra.
Qed.

Lemma placement_cells_eq (radius side : R) (k : Z) :
  0 < radius -> (1 <= k)%Z ->
  (IZR k - 1) * (sqrt 2 * radius) < side <= IZR k * (sqrt 2 * radius) ->
  placement_cells radius side = k.
Proof.
  intros Hr Hk H. unfold placement_cells, Math_ceil.
  rewrite (Zceil_div_eq side (L_calc_of radius) k (L_calc_pos radius Hr) H). lia.
Qed.

Lemma nAP_target_eq (radius len wid : R) (k : Z) :
  0 < radius -> (1 <= k)%Z ->
  (IZR k - 1) * (2 * radius ^ 2) < len * wid <= IZR k * (2 * radius ^ 2) ->
  nAP_target_of radius len wid = k.
Proof.
  intros Hr Hk H. unfold nAP_target_of, Math_ceil. rewrite L_calc_sqr.
  rewrite (Zceil_div_eq (len * wid) (2 * radius ^ 2) k); [lia | nra | exact H].
Qed.

(** ** The scenario [place(radius=10, length=50, width=30)] *)

Lemma scenario_cols : placement_cells 10 50 = 4%Z.
Proof. apply placement_cells_eq; [lra | lia | pose proof sqrt2_bounds; lra]. Qed.

Lemma scenario_rows : placement_cells 10 30 = 3%Z.
Proof. apply placement_cells_eq; [lra | lia | pose proof sqrt2_bounds; lra]. Qed.

Lemma scenario_target : nAP_target_of 10 50 30 = 8%Z.
Proof. apply nAP_target_eq; [lra | lia | lra]. Qed.

Lemma scenario_message : message_of 10 50 30 = None.
Proof.
  unfold message_of, L_calc_of. pose proof sqrt2_bounds. settle_cmp. reflexivity.
Qed.

Lemma scenario_resultado :
  resultado_of 10 50 30
  = [ mkAP 6.25 5; mkAP 18.75 5; mkAP 31.25 5; mkAP 43.75 5;
      mkAP 6.25 15; mkAP 18.75 15; mkAP 31.25 15; mkAP 43.75 15 ].
Proof.
  unfold resultado_of. rewrite scenario_cols, scenario_rows, scenario_target.
  change (Z.to_nat 3) with 3%nat.
  cbn -[IZR Rplus Rmult Rdiv Rinv].
  change (Pos.to_nat 4) with 4%nat.
  cbn -[IZR Rplus Rmult Rdiv Rinv].
  repeat f_equal; lra.
Qed.

Lemma formatted_hundredths (a b : R) (n m : Z) :
  a = IZR n / 100 -> 0 <= a < 1e21 ->
  b = IZR m / 100 -> 0 <= b < 1e21 ->
  formatted (mkAP a b) = mkAP a b.
Proof.
  intros Ha Ha' Hb Hb'. unfold formatted. cbn [x y].
  now rewrite (toFixed2_hundredths a n Ha Ha'), (toFixed2_hundredths b m Hb Hb').
Qed.

Lemma scenario_result :
  calculateAPPlacement 10 50 30
  = mkResult 8
      [ mkAP 6.25 5; mkAP 18.75 5; mkAP 31.25 5; mkAP 43.75 5;
        mkAP 6.25 15; mkAP 18.75 15; mkAP 31.25 15; mkAP 43.75 15 ]
      None.
Proof.
  rewrite calculateAPPlacement_regular by (pose proof sqrt2_bounds; lra).
  rewrite scenario_resultado, scenario_message.
  cbn [map length Z.of_nat Pos.of_succ_nat Pos.succ].
  rewrite (formatted_hundredths 6.25 5 625 500) by lra.
  rewrite (formatted_hundredths 18.75 5 1875 500) by lra.
  rewrite (formatted_hundredths 31.25 5 3125 500) by lra.
  rewrite (formatted_hundredths 43.75 5 4375 500) by lra.
  rewrite (formatted_hundredths 6.25 15 625 1500) by lra.
  rewrite (formatted_hundredths 18.75 15 1875 1500) by lra.
  rewrite (formatted_hundredths 31.25 15 3125 1500) by lra.
  rewrite (formatted_hundredths 43.75 15 4375 1500) by lra.
  reflexivity.
Qed.

(** C3. [calculateAPPlacement 10 50 30]: 4 columns and 3 rows of cells
    12.5 by 10, target 8; the 8 coordinates are the first 8 cell centres in
    row-major order, that is row 0 from left to right and then row 1, the
    first one [(6.25, 5)]. *)
Theorem calculateAPPlacement_scenario :
  let res := calculateAPPlacement 10 50 30 in
  placement_cells 10 50 = 4%Z /\ placement_cells 10 30 = 3%Z
  /\ 50 / IZR (placement_cells 10 50) = 12.5
  /\ 30 / IZR (placement_cells 10 30) = 10
  /\ nAP_target_of 10 50 30 = 8%Z
  /\ nAP res = 8%Z
  /\ length (coordinates res) = 8%nat
  /\ coordinates res = map formatted (firstn 8 (row_major 4 3 12.5 10))
  /\ coordinates res
     = [ mkAP 6.25 5; mkAP 18.75 5; mkAP 31.25 5; mkAP 43.75 5;
         mkAP 6.25 15; mkAP 18.75 15; mkAP 31.25 15; mkAP 43.75 15 ]
  /\ hd_error (coordinates res) = Some (mkAP 6.25 5)
  /\ message res = None.
Proof.
  cbv zeta.
  assert (50 / IZR 4 = 12.5) as Hw by lra.
  assert (30 / IZR 3 = 10) as Hh by lra.
  assert (coordinates (calculateAPPlacement 10 50 30)
          = map formatted (firstn 8 (row_major 4 3 12.5 10))) as Henum.
  { rewrite calculateAPPlacement_regular by (pose proof sqrt2_bounds; lra).
    cbn [coordinates]. rewrite resultado_row_major.
    now rewrite scenario_cols, scenario_rows, scenario_target, Hw, Hh. }
  split; [exact scenario_cols|]. split; [exact scenario_rows|].
  rewrite scenario_cols, scenario_rows. split; [exact Hw|]. split; [exact Hh|].
  split; [exact scenario_target|]. split; [now rewrite scenario_result|].
  split; [now rewrite scenario_result|]. split; [exact Henum|].
  rewrite scenario_result. cbn [coordinates message hd_error]. auto.
Qed.

(** ** Where the emitted coordinates lie *)

Lemma toFixed2_eq (a : R) (n : Z) :
  0 <= a < 1e21 -> IZR n <= a * 100 + / 2 < IZR n + 1 ->
  toFixed2 a = IZR n / 100.
Proof.
  intros [H0 H1] Hn. unfold toFixed2. rewrite Rabs_pos_eq by exact H0.
  settle_cmp. unfold nearest_hundredth. now rewrite (Zfloor_eq n).
Qed.

Lemma toFixed2_nonneg (a : R) : 0 <= a -> 0 <= toFixed2 a.
Proof.
  intros Ha. unfold toFixed2.
  destruct (leb 1e21 (Rabs a)); [exact Ha|]. settle_cmp.
  unfold nearest_hundredth.
  assert (0 <= Zfloor (a * 100 + / 2))%Z as Hz by (apply Zfloor_lub; lra).
  apply IZR_le in Hz. lra.
Qed.

(** Rounding moves a non-negative number up by at most 0.005. *)
Lemma toFixed2_upper (a : R) : 0 <= a -> toFixed2 a <= a + 0.005.
Proof.
  intros Ha. unfold toFixed2.
  destruct (leb 1e21 (Rabs a)); [lra|]. settle_cmp.
  unfold nearest_hundredth.
  destruct (Zfloor_bound (a * 100 + / 2)) as [Hlo _]. lra.
Qed.

Lemma toFixed2_small (a : R) : 0 <= a < 0.005 -> toFixed2 a = 0.
Proof.
  intros Ha. rewrite (toFixed2_eq a 0); lra.
Qed.

Lemma toFixed2_within (a b : R) :
  0 <= a -> a + 0.005 <= b \/ (a < 0.005 /\ 0 <= b) -> toFixed2 a <= b.
Proof.
  intros Ha [H|[H Hb]].
  - pose proof (toFixed2_upper a Ha). lra.
  - rewrite toFixed2_small; lra.
Qed.

Section GridInvariant.
Variables (target cols rows : Z) (cw ch : R).

Lemma cols_loop_on_grid (todo : nat) (r_idx c_idx : Z) (res : list APCoordinate) :
  (0 <= r_idx < rows)%Z -> (0 <= c_idx)%Z -> (c_idx + Z.of_nat todo <= cols)%Z ->
  Forall (on_grid cols rows cw ch) res ->
  Forall (on_grid cols rows cw ch) (cols_loop target cw ch todo r_idx c_idx res).
Proof.
  intros Hr. revert c_idx res.
  induction todo as [|todo IH]; intros c_idx res Hc Hend Hres.
  - exact Hres.
  - cbn [cols_loop]. destruct (target_reached target res); [exact Hres|].
    apply IH; [lia | lia |].
    apply Forall_app. split; [exact Hres|].
    constructor; [|constructor].
    exists c_idx, r_idx. repeat split; lia.
Qed.

Lemma rows_loop_on_grid (todo : nat) (r_idx : Z) (res : list APCoordinate) :
  (0 <= cols)%Z -> (0 <= r_idx)%Z -> (r_idx + Z.of_nat todo <= rows)%Z ->
  Forall (on_grid cols rows cw ch) res ->
  Forall (on_grid cols rows cw ch) (rows_loop target cols cw ch todo r_idx res).
Proof.
  intros Hcols. revert r_idx res.
  induction todo as [|todo IH]; intros r_idx res Hr Hend Hres.
  - exact Hres.
  - cbn [rows_loop].
    assert (Forall (on_grid cols rows cw ch)
                   (cols_loop target cw ch (Z.to_nat cols) r_idx 0 res)) as Hin.
    { apply cols_loop_on_grid; try lia. exact Hres. }
    destruct (target_reached target _); [exact Hin|].
    apply IH; [lia | lia | exact Hin].
Qed.

End GridInvariant.

Lemma resultado_on_grid (radius len wid : R) :
  Forall (on_grid (placement_cells radius len) (placement_cells radius wid)
                  (len / IZR (placement_cells radius len))
                  (wid / IZR (placement_cells radius wid)))
         (resultado_of radius len wid).
Proof.
  unfold resultado_of.
  pose proof (placement_cells_ge_1 radius len).
  pose proof (placement_cells_ge_1 radius wid).
  apply rows_loop_on_grid; [lia | lia | lia | constructor].
Qed.

(** A centre [(i + 0.5) * side / cells] of one of [cells] equal parts of
    [side] lies strictly inside [(0, side)], half a part from the end. *)
Lemma centre_inside (side : R) (cells i : Z) :
  0 < side -> (0 <= i < cells)%Z ->
  0 < (IZR i + 0.5) * (side / IZR cells)
  /\ (IZR i + 0.5) * (side / IZR cells) + side / IZR cells / 2 <= side.
Proof.
  intros Hs [Hi0 Hi1].
  assert (0 < IZR cells) as Hc by (apply IZR_lt; lia).
  assert (0 <= IZR i) as Hi by (apply IZR_le; lia).
  assert (IZR i + 1 <= IZR cells) as Hi'
      by (rewrite <- succ_IZR; apply IZR_le; lia).
  set (p := side / IZR cells).
  assert (0 < p) as Hp by (apply Rdiv_lt_0_compat; lra).
  assert (side = p * IZR cells) as Hside by (unfold p; field; lra).
  clearbody p. subst side. split; nra.
Qed.

(** With a cell side of at least 2 cm, a side is either one cell or cut in
    parts of at least 1 cm. *)
Lemma placement_pitch (radius side : R) :
  0 < radius -> 0 < side -> 0.02 <= sqrt 2 * radius ->
  placement_cells radius side = 1%Z
  \/ 0.01 <= side / IZR (placement_cells radius side).
Proof.
  intros Hr Hs Hc. unfold placement_cells, Math_ceil.
  pose proof (L_calc_pos radius Hr) as Hpos. fold (L_calc_of radius) in Hc.
  set (k := Zceil (side / L_calc_of radius)).
  destruct (Z.le_gt_cases k 1) as [Hk|Hk]; [left; lia | right].
  replace (Z.max 1 k) with k by lia.
  destruct (Zceil_bound (side / L_calc_of radius)) as [Hlo _]. fold k in Hlo.
  assert (2 <= IZR k) as Hk2 by (apply IZR_le; lia).
  assert ((IZR k - 1) * L_calc_of radius < side) as Hside.
  { apply Rmult_lt_compat_r with (r := L_calc_of radius) in Hlo; [|exact Hpos].
    unfold Rdiv in Hlo. rewrite Rmult_assoc, Rinv_l, Rmult_1_r in Hlo by lra.
    exact Hlo. }
  apply Rmult_le_reg_r with (IZR k); [lra|].
  unfold Rdiv. rewrite Rmult_assoc, Rinv_l, Rmult_1_r by lra. nra.
Qed.

(** The rounded centre stays inside the side under the same condition. *)
Lemma rounded_centre_inside (radius side : R) (i : Z) :
  0 < radius -> 0 < side -> 0.02 <= sqrt 2 * radius ->
  (0 <= i < placement_cells radius side)%Z ->
  toFixed2 ((IZR i + 0.5) * (side / IZR (placement_cells radius side))) <= side.
Proof.
  intros Hr Hs Hc Hi.
  destruct (centre_inside side (placement_cells radius side) i Hs Hi) as [Hpos Hend].
  apply toFixed2_within; [lra|].
  destruct (placement_pitch radius side Hr Hs Hc) as [H1|Hp].
  - rewrite H1 in *. assert (i = 0%Z) as -> by lia.
    destruct (Rlt_dec ((0 + 0.5) * (side / 1)) 0.005); [right; lra | left; lra].
  - left. lra.
Qed.

(** C2 (amended). Every returned coordinate is non-negative and exceeds the
    building by at most the rounding step, [x <= length + 0.005] and
    [y <= width + 0.005]; it satisfies [x <= length] and [y <= width] when
    the cell side [sqrt 2 * radius] is at least 0.02. *)
Theorem calculateAPPlacement_bounds (radius len wid : R) (c : APCoordinate) :
  In c (coordinates (calculateAPPlacement radius len wid)) ->
  (0 <= x c <= len + 0.005 /\ 0 <= y c <= wid + 0.005)
  /\ (0.02 <= sqrt 2 * radius -> x c <= len /\ y c <= wid).
Proof.
  intros Hin.
  destruct (Rle_dec radius 0) as [Hr|Hr];
    [|destruct (Rle_dec len 0) as [Hl|Hl];
      [|destruct (Rle_dec wid 0) as [Hw|Hw];
        [|destruct (Rlt_dec (sqrt 2 * radius) 1e-6) as [Hc|Hc]]]].
  1-4: exfalso;
    destruct (calculateAPPlacement_guarded radius len wid) as [Hg|Hg];
    [tauto | rewrite Hg in Hin; exact Hin | rewrite Hg in Hin; exact Hin].
  apply Rnot_le_lt in Hr, Hl, Hw. apply Rnot_lt_le in Hc.
  rewrite (calculateAPPlacement_regular radius len wid Hr Hl Hw Hc) in Hin.
  cbn [coordinates] in Hin. apply in_map_iff in Hin as (raw & <- & Hraw).
  pose proof (resultado_on_grid radius len wid) as Hgrid.
  rewrite Forall_forall in Hgrid.
  destruct (Hgrid raw Hraw) as (ci & ri & Hci & Hri & ->).
  unfold formatted. cbn [x y].
  destruct (centre_inside len _ ci Hl Hci) as [Hx0 Hx1].
  destruct (centre_inside wid _ ri Hw Hri) as [Hy0 Hy1].
  assert (0 < len / IZR (placement_cells radius len)).
  { apply Rdiv_lt_0_compat; [lra|]. apply IZR_lt.
    pose proof (placement_cells_ge_1 radius len). lia. }
  assert (0 < wid / IZR (placement_cells radius wid)).
  { apply Rdiv_lt_0_compat; [lra|]. apply IZR_lt.
    pose proof (placement_cells_ge_1 radius wid). lia. }
  split; [split; split|].
  - apply toFixed2_nonneg; lra.
  - etransitivity; [apply toFixed2_upper; lra | lra].
  - apply toFixed2_nonneg; lra.
  - etransitivity; [apply toFixed2_upper; lra | lra].
  - intros Hcell. split; apply rounded_centre_inside; assumption.
Qed.

Lemma calculateAPPlacement_bounds_witness :
  In (mkAP 43.75 15) (coordinates (calculateAPPlacement 10 50 30))
  /\ (0 <= 43.75 <= 50 + 0.005 /\ 0 <= 15 <= 30 + 0.005)
  /\ (0.02 <= sqrt 2 * 10 -> 43.75 <= 50 /\ 15 <= 30).
Proof.
  assert (H : In (mkAP 43.75 15) (coordinates (calculateAPPlacement 10 50 30))).
  { rewrite scenario_result. cbn [coordinates]. do 7 right. left. reflexivity. }
  split; [exact H|].
  exact (calculateAPPlacement_bounds 10 50 30 (mkAP 43.75 15) H).
Defined.

(** ** A rounded coordinate outside the building *)

Lemma small_building_resultado :
  resultado_of 0.004 0.008 0.01
  = [ mkAP 0.002 0.0025; mkAP 0.006 0.0025; mkAP 0.002 0.0075 ].
Proof.
  unfold resultado_of. pose proof sqrt2_bounds.
  rewrite (placement_cells_eq 0.004 0.008 2) by (lra || lia).
  rewrite (placement_cells_eq 0.004 0.01 2) by (lra || lia).
  rewrite (nAP_target_eq 0.004 0.008 0.01 3) by (lra || lia).
  change (Z.to_nat 2) with 2%nat.
  cbn -[IZR Rplus Rmult Rdiv Rinv].
  change (Pos.to_nat 2) with 2%nat.
  cbn -[IZR Rplus Rmult Rdiv Rinv].
  repeat f_equal; lra.
Qed.

Lemma small_building_result :
  calculateAPPlacement 0.004 0.008 0.01
  = mkResult 3 [ mkAP 0 0; mkAP 0.01 0; mkAP 0 0.01 ] None.
Proof.
  pose proof sqrt2_bounds.
  rewrite calculateAPPlacement_regular by lra.
  rewrite small_building_resultado.
  unfold message_of, L_calc_of. settle_cmp.
  cbn [map length Z.of_nat Pos.of_succ_nat Pos.succ orb]. unfold formatted. cbn [x y].
  rewrite (toFixed2_eq 0.002 0), (toFixed2_eq 0.0025 0),
    (toFixed2_eq 0.006 1), (toFixed2_eq 0.0075 1) by lra.
  repeat f_equal; lra.
Qed.

(** C2 as stated fails: with radius 0.004, length 0.008 and width 0.01 the
    second coordinate is [(0.006, 0.0025)] before rounding and [(0.01, 0)]
    after it, and [0.01 > 0.008 = length]. *)
Lemma calculateAPPlacement_rounds_outside :
  calculateAPPlacement 0.004 0.008 0.01
  = mkResult 3 [ mkAP 0 0; mkAP 0.01 0; mkAP 0 0.01 ] None
  /\ ~ (forall c : APCoordinate,
          In c (coordinates (calculateAPPlacement 0.004 0.008 0.01)) ->
          0 <= x c <= 0.008 /\ 0 <= y c <= 0.01).
Proof.
  split; [exact small_building_result|].
  intros Hall. rewrite small_building_result in Hall. cbn [coordinates] in Hall.
  destruct (Hall (mkAP 0.01 0)) as [[_ Hx] _].
  - right. left. reflexivity.
  - cbn [x] in Hx. lra.
Qed.

End Placement.

(** ** The proximity filter and the click *)

Section ManualAPSetFacts.
Import ManualAPSet.

Lemma isTooClose_iff (existing : list APCoordinate) (p : APCoordinate) :
  isTooCloseToExisting existing p = true
  <-> exists q, In q existing /\ (x q - x p) ^ 2 + (y q - y p) ^ 2 < 25.
Proof.
  unfold isTooCloseToExisting. rewrite existsb_exists.
  unfold distanceSquared, Math_pow2, MIN_DISTANCE_THRESHOLD.
  split; intros (q & Hq & Hd); exists q; split; try exact Hq.
  - apply ltb_true_iff in Hd. lra.
  - apply ltb_true_iff. lra.
Qed.

Lemma accept_false_iff (p : APCoordinate) (existing : list APCoordinate) :
  accept p existing = false
  <-> exists q, In q existing /\ (x q - x p) ^ 2 + (y q - y p) ^ 2 < 25.
Proof.
  unfold accept. rewrite negb_false_iff. apply isTooClose_iff.
Qed.




(** ** Replace-at-index and remove-at-index *)

Lemma map_indexed_length {A B : Type} (f : A -> Z -> B) (i : Z) (arr : list A) :
  length (map_indexed f i arr) = length arr.
Proof.
  revert i. induction arr as [|a arr IH]; intros i; cbn; [reflexivity|].
  now rewrite IH.
Qed.

Lemma map_indexed_nth {A B : Type} (f : A -> Z -> B) (i : Z) (arr : list A) (j : nat) :
  nth_error (map_indexed f i arr) j
  = option_map (fun a => f a (i + Z.of_nat j)%Z) (nth_error arr j).
Proof.
  revert i j. induction arr as [|a arr IH]; intros i [|j]; cbn [map_indexed nth_error option_map];
    try reflexivity.
  - now rewrite Z.add_0_r.
  - rewrite IH. destruct (nth_error arr j); cbn; [|reflexivity].
    do 2 f_equal. lia.
Qed.

(** Away from [index] the filter of [handleDeleteManualAp] keeps all. *)
Lemma filter_indexed_miss {A : Type} (index i : Z) (arr : list A) :
  (index < i \/ i + Z.of_nat (length arr) <= index)%Z ->
  filter_indexed (fun _ k => negb (k =? index)%Z) i arr = arr.
Proof.
  revert i. induction arr as [|a arr IH]; intros i H; cbn [filter_indexed];
    [reflexivity|].
  cbn [length] in H.
  destruct (Z.eqb_spec i index) as [->|Hne]; [lia|].
  cbn [negb]. f_equal. apply IH. lia.
Qed.

Lemma filter_indexed_hit {A : Type} (index i : Z) (arr : list A) :
  (i <= index < i + Z.of_nat (length arr))%Z ->
  filter_indexed (fun _ k => negb (k =? index)%Z) i arr
  = firstn (Z.to_nat (index - i)) arr ++ skipn (S (Z.to_nat (index - i))) arr.
Proof.
  revert i. induction arr as [|a arr IH]; intros i H; cbn [length] in H; [lia|].
  cbn [filter_indexed].
  destruct (Z.eqb_spec i index) as [->|Hne]; cbn [negb].
  - rewrite Z.sub_diag. cbn [Z.to_nat firstn skipn app].
    apply filter_indexed_miss. lia.
  - rewrite IH by lia.
    replace (Z.to_nat (index - i)) with (S (Z.to_nat (index - (i + 1)))) by lia.
    reflexivity.
Qed.

Lemma map_indexed_miss {A : Type} (index i : Z) (b : A) (arr : list A) :
  (index < i \/ i + Z.of_nat (length arr) <= index)%Z ->
  map_indexed (fun a k => if (k =? index)%Z then b else a) i arr = arr.
Proof.
  revert i. induction arr as [|a arr IH]; intros i H; cbn [map_indexed];
    [reflexivity|].
  cbn [length] in H.
  destruct (Z.eqb_spec i index) as [->|Hne]; [lia|].
  f_equal. apply IH. lia.
Qed.

Lemma map_indexed_hit {A : Type} (index i : Z) (b : A) (arr : list A) :
  (i <= index < i + Z.of_nat (length arr))%Z ->
  map_indexed (fun a k => if (k =? index)%Z then b else a) i arr
  = firstn (Z.to_nat (index - i)) arr
    ++ b :: skipn (S (Z.to_nat (index - i))) arr.
Proof.
  revert i. induction arr as [|a arr IH]; intros i H; cbn [length] in H; [lia|].
  cbn [map_indexed].
  destruct (Z.eqb_spec i index) as [->|Hne].
  - rewrite Z.sub_diag. cbn [Z.to_nat firstn skipn app].
    f_equal. apply map_indexed_miss. lia.
  - rewrite IH by lia.
    replace (Z.to_nat (index - i)) with (S (Z.to_nat (index - (i + 1)))) by lia.
    reflexivity.
Qed.

Lemma handleMove_in_range (index : Z) (p : APCoordinate) (aps : list APCoordinate) :
  (0 <= index < Z.of_nat (length aps))%Z ->
  handleMoveManualAp index p aps
  = firstn (Z.to_nat index) aps ++ p :: skipn (S (Z.to_nat index)) aps.
Proof.
  intros H. unfold handleMoveManualAp.
  rewrite map_indexed_hit by lia. now rewrite Z.sub_0_r.
Qed.

Lemma handleMove_nth (index : Z) (p : APCoordinate) (aps : list APCoordinate) (j : nat) :
  nth_error (handleMoveManualAp index p aps) j
  = if (Z.of_nat j =? index)%Z
    then option_map (fun _ => p) (nth_error aps j)
    else nth_error aps j.
Proof.
  unfold handleMoveManualAp. rewrite map_indexed_nth. rewrite Z.add_0_l.
  destruct (Z.of_nat j =? index)%Z; [reflexivity|].
  now destruct (nth_error aps j).
Qed.

Lemma handleDelete_in_range (index : Z) (aps : list APCoordinate) :
  (0 <= index < Z.of_nat (length aps))%Z ->
  handleDeleteManualAp index aps
  = firstn (Z.to_nat index) aps ++ skipn (S (Z.to_nat index)) aps.
Proof.
  intros H. unfold handleDeleteManualAp.
  rewrite filter_indexed_hit by lia. now rewrite Z.sub_0_r.
Qed.

(** C7. For a valid index, replace-at-index keeps the length, puts the new
    coordinate at the index and leaves every other position as it was;
    remove-at-index yields the elements before the index followed by those
    after it, in their order, one element fewer. *)
Theorem manual_set_frame
        (aps : list APCoordinate) (index : Z) (newCoords : APCoordinate) :
  (0 <= index < Z.of_nat (length aps))%Z ->
  (handleMoveManualAp index newCoords aps
   = firstn (Z.to_nat index) aps ++ newCoords :: skipn (S (Z.to_nat index)) aps
   /\ length (handleMoveManualAp index newCoords aps) = length aps
   /\ nth_error (handleMoveManualAp index newCoords aps) (Z.to_nat index)
      = Some newCoords
   /\ forall j : nat, j <> Z.to_nat index ->
        nth_error (handleMoveManualAp index newCoords aps) j = nth_error aps j)
  /\ (handleDeleteManualAp index aps
      = firstn (Z.to_nat index) aps ++ skipn (S (Z.to_nat index)) aps
      /\ S (length (handleDeleteManualAp index aps)) = length aps
      /\ (forall j : nat, (j < Z.to_nat index)%nat ->
            nth_error (handleDeleteManualAp index aps) j = nth_error aps j)
      /\ (forall j : nat, (Z.to_nat index <= j)%nat ->
            nth_error (handleDeleteManualAp index aps) j = nth_error aps (S j))).
Proof.
  intros Hi. split.
  - split; [apply handleMove_in_range, Hi|].
    split; [apply map_indexed_length|]. split.
    + rewrite handleMove_nth. rewrite Z2Nat.id, Z.eqb_refl by lia.
      destruct (nth_error aps (Z.to_nat index)) eqn:Hnth; [reflexivity|].
      apply nth_error_None in Hnth. lia.
    + intros j Hj. rewrite handleMove_nth.
      destruct (Z.eqb_spec (Z.of_nat j) index) as [<-|]; [|reflexivity].
      rewrite Nat2Z.id in Hj. contradiction.
  - rewrite (handleDelete_in_range index aps Hi).
    assert (Z.to_nat index < length aps)%nat as Hlt by lia.
    set (n := Z.to_nat index) in *.
    assert (length (firstn n aps) = n) as Hfirst
        by (rewrite length_firstn; lia).
    split; [reflexivity|]. split; [|split].
    + rewrite length_app, Hfirst, length_skipn. lia.
    + intros j Hj. rewrite nth_error_app1 by lia.
      now rewrite nth_error_firstn, (proj2 (Nat.ltb_lt j n) Hj).
    + intros j Hj. rewrite nth_error_app2 by lia.
      rewrite Hfirst, nth_error_skipn. f_equal. lia.
Qed.

Lemma manual_set_frame_witness :
  let aps := [mkAP 1 1; mkAP 2 2; mkAP 3 3] in
  (0 <= 1 < Z.of_nat (length aps))%Z
  /\ handleMoveManualAp 1 (mkAP 9 9) aps = [mkAP 1 1; mkAP 9 9; mkAP 3 3]
  /\ handleDeleteManualAp 1 aps = [mkAP 1 1; mkAP 3 3]
  /\ nth_error (handleMoveManualAp 1 (mkAP 9 9) aps) (Z.to_nat 1)
     = Some (mkAP 9 9).
Proof.
  cbv zeta.
  assert (H : (0 <= 1 < Z.of_nat (length [mkAP 1 1; mkAP 2 2; mkAP 3 3]))%Z)
    by (cbn; lia).
  split; [exact H|]. split; [reflexivity|]. split; [reflexivity|].
  exact (proj1 (proj2 (proj2 (proj1
    (manual_set_frame [mkAP 1 1; mkAP 2 2; mkAP 3 3] 1 (mkAP 9 9) H))))).
Defined.

(** C10. For an index below 0 or at least the length, replace-at-index and
    remove-at-index return the list unchanged. *)
Theorem manual_set_out_of_range
        (aps : list APCoordinate) (index : Z) (newCoords : APCoordinate) :
  (index < 0 \/ Z.of_nat (length aps) <= index)%Z ->
  handleMoveManualAp index newCoords aps = aps
  /\ handleDeleteManualAp index aps = aps.
Proof.
  intros Hout. split.
  - unfold handleMoveManualAp. apply map_indexed_miss. lia.
  - unfold handleDeleteManualAp. apply filter_indexed_miss. lia.
Qed.

Lemma manual_set_out_of_range_witness :
  let aps := [mkAP 1 1; mkAP 2 2] in
  ((2 < 0 \/ Z.of_nat (length aps) <= 2)%Z
   /\ handleMoveManualAp 2 (mkAP 9 9) aps = aps
   /\ handleDeleteManualAp 2 aps = aps)
  /\ ((-1 < 0 \/ Z.of_nat (length aps) <= -1)%Z
      /\ handleMoveManualAp (-1) (mkAP 9 9) aps = aps
      /\ handleDeleteManualAp (-1) aps = aps).
Proof.
  cbv zeta.
  assert (H2 : (2 < 0 \/ Z.of_nat (length [mkAP 1 1; mkAP 2 2]) <= 2)%Z)
    by (right; cbn; lia).
  assert (Hm : (-1 < 0 \/ Z.of_nat (length [mkAP 1 1; mkAP 2 2]) <= -1)%Z)
    by (left; lia).
  split; (split; [assumption|]).
  - exact (manual_set_out_of_range [mkAP 1 1; mkAP 2 2] 2 (mkAP 9 9) H2).
  - exact (manual_set_out_of_range [mkAP 1 1; mkAP 2 2] (-1) (mkAP 9 9) Hm).
Defined.

End ManualAPSetFacts.

(** ** Dragging an AP *)

Section DragFacts.
Import ManualAPSet InteractivePlanDisplay.

Lemma natW_nonneg (img : ImageElement) : 0 <= natW img.
Proof. unfold natW. apply IZR_le. lia. Qed.

Lemma natH_nonneg (img : ImageElement) : 0 <= natH img.
Proof. unfold natH. apply IZR_le. lia. Qed.

(** [Math.max(0, Math.min(v, hi))] is [v] brought into [[0, hi]]. *)
Lemma clamp_spec (v hi : R) :
  0 <= hi ->
  0 <= Math_max 0 (Math_min v hi) <= hi
  /\ (0 <= v <= hi -> Math_max 0 (Math_min v hi) = v)
  /\ (v < 0 -> Math_max 0 (Math_min v hi) = 0)
  /\ (hi < v -> Math_max 0 (Math_min v hi) = hi).
Proof.
  intros Hhi. unfold Math_max, Math_min, Rmax, Rmin.
  destruct (Rle_dec v hi); destruct (Rle_dec 0 _); repeat split; intros; lra.
Qed.

(** While dragging with a loaded image, a move event replaces the dragged
    index by [dragged_position]. *)
Lemma handleGlobalMouseMove_dragging
      (st : State) (event : MouseEvent) (index : Z)
      (offset : APCoordinate) (img : ImageElement) :
  draggingApIndex st = Some index -> dragStartOffset st = Some offset ->
  imageRef st = Some img -> complete img = true -> naturalWidth img <> 0%N ->
  handleGlobalMouseMove event st
  = mkState (imageRef st) (displayedImageDimensions st)
            (draggingApIndex st) (dragStartOffset st)
            (handleMoveManualAp index
               (dragged_position img (displayedImageDimensions st) offset event)
               (manualAPs st)).
Proof.
  intros Hi Ho Him Hc Hn. unfold handleGlobalMouseMove.
  rewrite Hi, Him, Ho, Hc. apply N.eqb_neq in Hn. rewrite Hn. reflexivity.
Qed.

(** The scenario, at any display scale: the AP at natural (100,100) is
    grabbed at the display point of natural (105,105) and the pointer moves
    to the display point of natural (150,100). *)
Lemma drag_scenario
      (img : ImageElement) (displayed : Dimensions)
      (aps : list APCoordinate) (index : Z) :
  complete img = true -> 145 <= natW img -> 95 <= natH img ->
  0 < width displayed -> 0 < height displayed ->
  at_index aps index = Some (mkAP 100 100) ->
  let sx := width displayed / natW img in
  let sy := height displayed / natH img in
  let down := mkMouse (rect_left img + 105 * sx) (rect_top img + 105 * sy) in
  let move := mkMouse (rect_left img + 150 * sx) (rect_top img + 100 * sy) in
  exists st1,
    handleApMouseDown down index
      (mkState (Some img) displayed None None aps) = Some st1
    /\ draggingApIndex st1 = Some index
    /\ dragStartOffset st1 = Some (mkAP (5 * sx) (5 * sy))
    /\ manualAPs (handleGlobalMouseMove move st1)
       = handleMoveManualAp index (mkAP 145 95) aps.
Proof.
  intros Hc Hw Hh Hdw Hdh Hap. cbv zeta.
  assert (naturalWidth img <> 0%N) as Hn.
  { intros H0. unfold natW in Hw. rewrite H0 in Hw. cbn in Hw. lra. }
  assert (Hn' := Hn). apply N.eqb_neq in Hn'.
  eexists. split.
  { unfold handleApMouseDown. cbn [imageRef manualAPs displayedImageDimensions].
    rewrite Hc, Hn', Hap. cbn [negb orb x y clientX clientY]. reflexivity. }
  split; [reflexivity|]. split.
  { cbn [dragStartOffset]. do 2 f_equal; lra. }
  rewrite (handleGlobalMouseMove_dragging _ _ index _ img) by (reflexivity || assumption).
  cbn [manualAPs displayedImageDimensions]. f_equal.
  unfold dragged_position. cbn [clientX clientY x y].
  destruct (clamp_spec 145 (natW img)) as (_ & Hx & _); [lra|].
  destruct (clamp_spec 95 (natH img)) as (_ & Hy & _); [lra|].
  f_equal.
  - etransitivity; [|apply Hx; lra]. do 2 f_equal. field. lra.
  - etransitivity; [|apply Hy; lra]. do 2 f_equal. field. lra.
Qed.

(** The offset that [handleApMouseDown] stores is the pointer on the
    displayed image minus the display position of the grabbed AP. *)
Lemma handleApMouseDown_offset
      (down : MouseEvent) (index : Z) (st0 st : State)
      (img : ImageElement) (offset : APCoordinate) :
  handleApMouseDown down index st0 = Some st ->
  imageRef st0 = Some img -> complete img = true -> naturalWidth img <> 0%N ->
  dragStartOffset st = Some offset ->
  exists ap,
    at_index (manualAPs st0) index = Some ap
    /\ draggingApIndex st = Some index
    /\ manualAPs st = manualAPs st0
    /\ offset
       = mkAP (clientX down - rect_left img
               - x ap * (width (displayedImageDimensions st0) / natW img))
              (clientY down - rect_top img
               - y ap * (height (displayedImageDimensions st0) / natH img)).
Proof.
  intros Hdown Him Hc Hn Ho. unfold handleApMouseDown in Hdown.
  apply N.eqb_neq in Hn. rewrite Him, Hc, Hn in Hdown. cbn [negb orb] in Hdown.
  destruct (at_index (manualAPs st0) index) as [ap|]; [|discriminate].
  injection Hdown as <-. cbn [dragStartOffset] in Ho. injection Ho as <-.
  exists ap. repeat split.
Qed.

(** C6. A move event while dragging index [index]: the new position is the
    pointer position minus the drag-start offset, taken from display to
    natural pixels and clamped into [[0, naturalWidth] x [0, naturalHeight]]
    (clamped at the edge when outside, the event is not dropped), and it
    replaces index [index] of the manual set; the offset is the one stored
    at pointer-down, the pointer minus the display position of the AP.  With
    an offset worth 5 natural pixels on each axis and the pointer at the
    display point of natural (150,100), the new position is natural
    (145,95). *)
Theorem drag_move_position
        (st : State) (event : MouseEvent) (index : Z)
        (offset : APCoordinate) (img : ImageElement) :
  draggingApIndex st = Some index -> dragStartOffset st = Some offset ->
  imageRef st = Some img -> complete img = true -> naturalWidth img <> 0%N ->
  0 < width (displayedImageDimensions st) ->
  0 < height (displayedImageDimensions st) ->
  let displayed := displayedImageDimensions st in
  let px :=
    (clientX event - rect_left img - x offset) / width displayed * natW img in
  let py :=
    (clientY event - rect_top img - y offset) / height displayed * natH img in
  let new := mkAP (Rmax 0 (Rmin px (natW img))) (Rmax 0 (Rmin py (natH img))) in
  let st' := handleGlobalMouseMove event st in
  manualAPs st' = handleMoveManualAp index new (manualAPs st)
  /\ draggingApIndex st' = Some index
  /\ (0 <= x new <= natW img /\ 0 <= y new <= natH img)
  /\ ((0 <= px <= natW img -> x new = px)
      /\ (px < 0 -> x new = 0) /\ (natW img < px -> x new = natW img))
  /\ ((0 <= py <= natH img -> y new = py)
      /\ (py < 0 -> y new = 0) /\ (natH img < py -> y new = natH img))
  /\ ((0 <= index < Z.of_nat (length (manualAPs st)))%Z ->
      length (manualAPs st') = length (manualAPs st)
      /\ nth_error (manualAPs st') (Z.to_nat index) = Some new
      /\ forall j : nat, j <> Z.to_nat index ->
           nth_error (manualAPs st') j = nth_error (manualAPs st) j)
  /\ (forall (down : MouseEvent) (st0 : State),
        handleApMouseDown down index st0 = Some st -> imageRef st0 = Some img ->
        exists ap,
          at_index (manualAPs st0) index = Some ap
          /\ offset
             = mkAP (clientX down - rect_left img
                     - x ap * (width (displayedImageDimensions st0) / natW img))
                    (clientY down - rect_top img
                     - y ap * (height (displayedImageDimensions st0) / natH img)))
  /\ (x offset = 5 * (width displayed / natW img) ->
      y offset = 5 * (height displayed / natH img) ->
      clientX event - rect_left img = 150 * (width displayed / natW img) ->
      clientY event - rect_top img = 100 * (height displayed / natH img) ->
      145 <= natW img -> 95 <= natH img ->
      new = mkAP 145 95).
Proof.
  intros Hi Ho Him Hc Hn Hdw Hdh. cbv zeta.
  rewrite (handleGlobalMouseMove_dragging st event index offset img Hi Ho Him Hc Hn).
  cbn [manualAPs draggingApIndex x y].
  set (px := (clientX event - rect_left img - x offset)
             / width (displayedImageDimensions st) * natW img).
  set (py := (clientY event - rect_top img - y offset)
             / height (displayedImageDimensions st) * natH img).
  destruct (clamp_spec px (natW img) (natW_nonneg img)) as (Hbx & Hx1 & Hx2 & Hx3).
  destruct (clamp_spec py (natH img) (natH_nonneg img)) as (Hby & Hy1 & Hy2 & Hy3).
  unfold Math_max, Math_min in *.
  split; [reflexivity|]. split; [exact Hi|]. split; [split; assumption|].
  split; [repeat split; assumption|]. split; [repeat split; assumption|]. split.
  - intros Hrange. split; [apply map_indexed_length|]. split.
    + rewrite handleMove_nth, Z2Nat.id, Z.eqb_refl by lia.
      destruct (nth_error (manualAPs st) (Z.to_nat index)) eqn:Hnth; [reflexivity|].
      apply nth_error_None in Hnth. lia.
    + intros j Hj. rewrite handleMove_nth.
      destruct (Z.eqb_spec (Z.of_nat j) index) as [<-|]; [|reflexivity].
      rewrite Nat2Z.id in Hj. contradiction.
  - split.
    { intros down st0 Hdown Him0.
      destruct (handleApMouseDown_offset down index st0 st img offset
                  Hdown Him0 Hc Hn Ho) as (ap & Hap & _ & _ & Hoff).
      exists ap. split; assumption. }
    intros Hox Hoy Hex Hey Hw Hh.
    assert (px = 145) as Hpx by (unfold px; rewrite Hex, Hox; field; lra).
    assert (py = 95) as Hpy by (unfold py; rewrite Hey, Hoy; field; lra).
    f_equal; [rewrite Hx1 | rewrite Hy1]; lra.
Qed.

(** The scenario at display scale 1: AP 0 at natural (100,100), offset
    (5,5), pointer moved to (150,100). *)
Lemma drag_move_position_witness :
  let img := mkImage true 200 200 0 0 in
  let st := mkState (Some img) (mkDimensions 200 200)
                    (Some 0%Z) (Some (mkAP 5 5)) [mkAP 100 100] in
  manualAPs (handleGlobalMouseMove (mkMouse 150 100) st) = [mkAP 145 95].
Proof.
  cbv zeta.
  pose (img := mkImage true 200 200 0 0).
  pose (st := mkState (Some img) (mkDimensions 200 200)
                      (Some 0%Z) (Some (mkAP 5 5)) [mkAP 100 100]).
  assert (Hn : naturalWidth img <> 0%N) by discriminate.
  assert (Hw : 0 < width (displayedImageDimensions st)) by (cbn; lra).
  assert (Hh : 0 < height (displayedImageDimensions st)) by (cbn; lra).
  destruct (drag_move_position st (mkMouse 150 100) 0 (mkAP 5 5) img
              eq_refl eq_refl eq_refl eq_refl Hn Hw Hh)
    as (Hset & _ & _ & _ & _ & _ & _ & Hnew).
  fold img. fold st. rewrite Hset, Hnew; [reflexivity | | | | | | ];
    unfold natW, natH; cbn; lra.
Defined.

End DragFacts.

(** ** Natural pixels to metres *)

Section MetricFacts.
Import InteractivePlanDisplay ManualTable.

Lemma gtb_true_iff (a b : R) : gtb a b = true <-> b < a.
Proof. unfold gtb. apply ltb_true_iff. Qed.

Lemma gtb_false_iff (a b : R) : gtb a b = false <-> a <= b.
Proof. unfold gtb. apply ltb_false_iff. Qed.

(** The scale is 0, the value that stands for "no scale", unless both the
    natural width and the building length are known and positive. *)
Lemma scale_unavailable (dims : option Dimensions) (len : option R) :
  dims = None \/ (exists d, dims = Some d /\ width d <= 0)
  \/ len = None \/ (exists l, len = Some l /\ l <= 0) ->
  pixelsPerMeterScaleManual dims len = 0.
Proof.
  unfold pixelsPerMeterScaleManual.
  intros [-> | [(d & -> & Hd) | [-> | (l & -> & Hl)]]].
  - reflexivity.
  - destruct len as [l|]; [|reflexivity].
    apply gtb_false_iff in Hd. now rewrite Hd.
  - now destruct dims.
  - destruct dims as [d|]; [|reflexivity].
    apply gtb_false_iff in Hl. rewrite Hl. now rewrite andb_false_r.
Qed.

Lemma scale_available (d : Dimensions) (l : R) :
  0 < width d -> 0 < l ->
  pixelsPerMeterScaleManual (Some d) (Some l) = width d / l
  /\ 0 < width d / l.
Proof.
  intros Hd Hl. unfold pixelsPerMeterScaleManual.
  rewrite (proj2 (gtb_true_iff (width d) 0) Hd), (proj2 (gtb_true_iff l 0) Hl).
  split; [reflexivity | apply Rdiv_lt_0_compat; assumption].
Qed.


End MetricFacts.

(** ** Validation of the AI suggestions *)

Section AiFacts.
Import AiSuggestions.

Lemma geb_true_iff (a b : R) : geb a b = true <-> b <= a.
Proof. unfold geb. apply leb_true_iff. Qed.

Lemma within_building_iff (len wid : R) (ap : APCoordinate) :
  within_building len wid ap = true
  <-> 0 <= x ap <= len /\ 0 <= y ap <= wid.
Proof.
  unfold within_building. rewrite !andb_true_iff, !geb_true_iff, !leb_true_iff.
  tauto.
Qed.

Lemma every_numeric_of_points (points : list APCoordinate) :
  every_numeric (map item_of_point points) = Some points.
Proof.
  induction points as [|[px py] points IH]; cbn; [reflexivity|].
  cbn in IH. now rewrite IH.
Qed.



(** With numbers in every field the outcome is a result made of the rounded
    points that lie within the building. *)
Lemma validate_numeric (len wid : R) (points : list APCoordinate) :
  let kept := filter (within_building len wid) (map rounded points) in
  validate_suggestions len wid (map item_of_point points)
  = Returned
      (mkResult (Z.of_nat (length kept)) kept
         (match kept, points with
          | [], [] => Some msg_no_coordinates
          | [], _ :: _ => Some msg_none_valid
          | _ :: _, _ => None
          end)).
Proof.
  cbv zeta. unfold validate_suggestions. rewrite every_numeric_of_points.
  rewrite length_map.
  destruct (filter (within_building len wid) (map rounded points)) as [|c kept];
    destruct points as [|p points]; reflexivity.
Qed.


Lemma rounded_values :
  rounded (mkAP 10.004 5) = mkAP 10 5 /\ rounded (mkAP 1 1) = mkAP 1 1
  /\ rounded (mkAP 12 5) = mkAP 12 5.
Proof.
  unfold rounded. cbn [x y].
  rewrite (toFixed2_eq 10.004 1000), (toFixed2_eq 5 500),
    (toFixed2_eq 1 100), (toFixed2_eq 12 1200) by lra.
  repeat split; f_equal; lra.
Qed.



Lemma rounded_into_building :
  validate_suggestions 10 10 [item_of_point (mkAP 10.004 5)]
  = Returned (mkResult 1 [mkAP 10 5] None).
Proof.
  change [item_of_point (mkAP 10.004 5)]
    with (map item_of_point [mkAP 10.004 5]).
  rewrite validate_numeric. cbn [map filter].
  destruct rounded_values as (H1 & _). rewrite H1.
  now rewrite (proj2 (within_building_iff 10 10 (mkAP 10 5))) by (cbn; lra).
Qed.


End AiFacts.

(** * Further properties *)

(** ** The order of the returned coordinates *)

Section PlacementOrder.
Import PlacementEngine.

Lemma indices_length (from : Z) (count : nat) : length (indices from count) = count.
Proof.
  revert from. induction count as [|count IH]; intros from; cbn; [reflexivity|].
  now rewrite IH.
Qed.

Lemma indices_nth (from : Z) (count j : nat) :
  (j < count)%nat ->
  nth_error (indices from count) j = Some (from + Z.of_nat j)%Z.
Proof.
  revert from j. induction count as [|count IH]; intros from [|j] Hj; try lia.
  - cbn. now rewrite Z.add_0_r.
  - cbn [indices nth_error]. rewrite IH by lia. f_equal. lia.
Qed.

(** Cell [(r, c)] is at position [r * cols + c] of the enumeration. *)
Lemma rows_nth (cw ch : R) (cols : nat) (from : Z) (rows r c : nat) :
  (r < rows)%nat -> (c < cols)%nat ->
  nth_error
    (flat_map (fun r_idx => map (cell_centre cw ch r_idx) (indices 0 cols))
              (indices from rows))
    (r * cols + c)
  = Some (cell_centre cw ch (from + Z.of_nat r) (Z.of_nat c)).
Proof.
  revert from r. induction rows as [|rows IH]; intros from r Hr Hc; [lia|].
  cbn [indices flat_map].
  destruct r as [|r].
  - rewrite nth_error_app1 by (rewrite length_map, indices_length; lia).
    cbn [Nat.mul Nat.add]. rewrite nth_error_map, indices_nth by lia.
    cbn. now rewrite Z.add_0_r.
  - rewrite nth_error_app2 by (rewrite length_map, indices_length; lia).
    rewrite length_map, indices_length.
    replace (S r * cols + c - cols)%nat with (r * cols + c)%nat by lia.
    rewrite IH by lia. do 2 f_equal. lia.
Qed.

Lemma row_major_nth (cols rows : Z) (cw ch : R) (r c : Z) :
  (0 <= r < rows)%Z -> (0 <= c < cols)%Z ->
  nth_error (row_major cols rows cw ch) (Z.to_nat (r * cols + c))
  = Some (cell_centre cw ch r c).
Proof.
  intros Hr Hc. unfold row_major.
  replace (Z.to_nat (r * cols + c))
    with (Z.to_nat r * Z.to_nat cols + Z.to_nat c)%nat by nia.
  rewrite rows_nth by lia. f_equal. f_equal; lia.
Qed.

Lemma row_major_length (cols rows : Z) (cw ch : R) :
  (0 <= cols)%Z -> (0 <= rows)%Z ->
  Z.of_nat (length (row_major cols rows cw ch)) = (rows * cols)%Z.
Proof.
  intros Hc Hr. unfold row_major.
  assert (forall from n,
            length (flat_map
                      (fun r_idx => map (cell_centre cw ch r_idx)
                                        (indices 0 (Z.to_nat cols)))
                      (indices from n))
            = (n * Z.to_nat cols)%nat) as Hlen.
  { intros from n. revert from. induction n as [|n IH]; intros from; cbn [indices flat_map];
      [reflexivity|].
    rewrite length_app, length_map, indices_length, IH. lia. }
  rewrite Hlen. nia.
Qed.

End PlacementOrder.

Section MainPath.
Import PlacementEngine.
Variables radius len wid : R.
Hypothesis Hr : 0 < radius.
Hypothesis Hl : 0 < len.
Hypothesis Hw : 0 < wid.
Hypothesis Hc : 1e-6 <= sqrt 2 * radius.

Local Abbreviation cols := (placement_cells radius len).
Local Abbreviation rows := (placement_cells radius wid).
Local Abbreviation cw := (len / IZR (placement_cells radius len)).
Local Abbreviation ch := (wid / IZR (placement_cells radius wid)).
Local Abbreviation res := (calculateAPPlacement radius len wid).

Lemma main_nAP : nAP res = nAP_target_of radius len wid.
Proof.
  rewrite (calculateAPPlacement_regular radius len wid Hr Hl Hw Hc).
  cbn [nAP]. rewrite length_map. now apply resultado_length.
Qed.

Lemma main_nAP_le_cells : (1 <= nAP res <= rows * cols)%Z.
Proof.
  rewrite main_nAP.
  pose proof (grid_holds_target radius len wid Hr Hl Hw).
  pose proof (nAP_target_formula radius len wid Hr Hl Hw) as [_ H1]. lia.
Qed.

Lemma main_coordinates :
  coordinates res
  = map formatted (firstn (Z.to_nat (nAP res)) (row_major cols rows cw ch)).
Proof.
  rewrite main_nAP.
  rewrite (calculateAPPlacement_regular radius len wid Hr Hl Hw Hc).
  cbn [coordinates]. now rewrite resultado_row_major.
Qed.

Lemma main_pitch_pos : 0 < cw /\ 0 < ch.
Proof.
  pose proof (placement_cells_ge_1 radius len).
  pose proof (placement_cells_ge_1 radius wid).
  split; apply Rdiv_lt_0_compat; try assumption; apply IZR_lt; lia.
Qed.

(** The AP at position [k] is the rounded centre of the cell in row
    [k / cols], column [k mod cols]. *)
Lemma main_nth (k : Z) :
  (0 <= k < nAP res)%Z ->
  nth_error (coordinates res) (Z.to_nat k)
  = Some (formatted (cell_centre cw ch (k / cols) (k mod cols))).
Proof.
  intros Hk. pose proof main_nAP_le_cells as Hn.
  pose proof (placement_cells_ge_1 radius len) as Hcols.
  rewrite main_coordinates, nth_error_map, nth_error_firstn.
  replace (Z.to_nat k <? Z.to_nat (nAP res))%nat with true
    by (symmetry; apply Nat.ltb_lt; lia).
  assert (0 <= k mod cols < cols)%Z as Hmod by (apply Z.mod_pos_bound; lia).
  assert (0 <= k / cols < rows)%Z as Hdiv.
  { split; [apply Z.div_pos; lia|]. apply Z.div_lt_upper_bound; nia. }
  replace k with (k / cols * cols + k mod cols)%Z at 1
    by (rewrite (Z.div_mod k cols) at 3 by lia; ring).
  now rewrite row_major_nth.
Qed.

Lemma main_in (c : APCoordinate) :
  In c (coordinates res) ->
  exists k, (0 <= k < nAP res)%Z
            /\ (0 <= k / cols < rows)%Z /\ (0 <= k mod cols < cols)%Z
            /\ c = formatted (cell_centre cw ch (k / cols) (k mod cols)).
Proof.
  intros Hin. apply In_nth_error in Hin as (j & Hj).
  assert (j < length (coordinates res))%nat as Hlen
      by (apply nth_error_Some; congruence).
  assert (Z.of_nat (length (coordinates res)) = nAP res) as Hcount.
  { rewrite (calculateAPPlacement_regular radius len wid Hr Hl Hw Hc).
    reflexivity. }
  pose proof main_nAP_le_cells as Hn.
  pose proof (placement_cells_ge_1 radius len) as Hcols.
  exists (Z.of_nat j). split; [lia|].
  split; [split; [apply Z.div_pos; lia | apply Z.div_lt_upper_bound; nia]|].
  split; [apply Z.mod_pos_bound; lia|].
  rewrite <- (Nat2Z.id j), main_nth in Hj by lia. congruence.
Qed.

End MainPath.

(** ** More on rounding *)

Section RoundingFacts.

Lemma toFixed2_small_magnitude (a : R) :
  0 <= a < 1e21 -> toFixed2 a = IZR (Zfloor (a * 100 + / 2)) / 100.
Proof.
  intros [H0 H1]. unfold toFixed2. rewrite Rabs_pos_eq by exact H0.
  now settle_cmp.
Qed.

Lemma toFixed2_large_magnitude (a : R) : 1e21 <= a -> toFixed2 a = a.
Proof.
  intros H. unfold toFixed2. rewrite Rabs_pos_eq by lra. now settle_cmp.
Qed.

(** Rounding moves a non-negative number by at most half a hundredth. *)
Lemma toFixed2_error (a : R) : 0 <= a -> Rabs (toFixed2 a - a) <= 0.005.
Proof.
  intros Ha. destruct (Rlt_dec a 1e21) as [Hs|Hb].
  - rewrite toFixed2_small_magnitude by lra.
    destruct (Zfloor_bound (a * 100 + / 2)) as [Hlo Hhi].
    apply Rabs_le. lra.
  - rewrite toFixed2_large_magnitude by lra.
    rewrite Rminus_diag, Rabs_R0. lra.
Qed.

(** Two non-negative numbers a hundredth apart stay apart. *)
Lemma toFixed2_separates (a b : R) :
  0 <= a -> a + 0.01 <= b -> toFixed2 a < toFixed2 b.
Proof.
  intros Ha Hab. destruct (Rlt_dec b 1e21) as [Hs|Hb].
  - rewrite (toFixed2_small_magnitude a), (toFixed2_small_magnitude b) by lra.
    assert (Zfloor (a * 100 + / 2) + 1 <= Zfloor (b * 100 + / 2))%Z as Hz.
    { rewrite <- Zfloor_addz. apply Zfloor_le. lra. }
    apply IZR_le in Hz. rewrite plus_IZR in Hz. lra.
  - rewrite (toFixed2_large_magnitude b) by lra.
    pose proof (toFixed2_upper a Ha). lra.
Qed.

(** A number of hundredths is printed as it is. *)
Lemma toFixed2_of_hundredths (n : Z) : toFixed2 (IZR n / 100) = IZR n / 100.
Proof.
  unfold toFixed2. destruct (leb 1e21 (Rabs (IZR n / 100))); [reflexivity|].
  destruct (ltb (IZR n / 100) 0).
  - replace (- (IZR n / 100)) with (IZR (- n) / 100)
      by (rewrite opp_IZR; lra).
    rewrite nearest_hundredth_of_hundredths, opp_IZR. lra.
  - apply nearest_hundredth_of_hundredths.
Qed.

Lemma toFixed2_idempotent (a : R) : toFixed2 (toFixed2 a) = toFixed2 a.
Proof.
  assert (toFixed2 a = a \/ exists n, toFixed2 a = IZR n / 100) as [H|(n & H)].
  { unfold toFixed2. destruct (leb 1e21 (Rabs a)); [now left | right].
    unfold nearest_hundredth. destruct (ltb a 0).
    - exists (- Zfloor (- a * 100 + / 2))%Z. rewrite opp_IZR. lra.
    - now eexists. }
  - now rewrite H.
  - rewrite H. apply toFixed2_of_hundredths.
Qed.

End RoundingFacts.

(** ** Coverage of the building *)

Section Coverage.
Import PlacementEngine.

(** A part of a side is never longer than the cell. *)
Lemma pitch_le_cell (radius side : R) :
  0 < radius -> 0 < side ->
  side / IZR (placement_cells radius side) <= sqrt 2 * radius.
Proof.
  intros Hr Hs. pose proof (L_calc_pos radius Hr) as Hpos.
  pose proof (placement_cells_covers radius side) as Hcov.
  pose proof (placement_cells_ge_1 radius side) as H1.
  assert (0 < IZR (placement_cells radius side)) as Hk by (apply IZR_lt; lia).
  fold (L_calc_of radius).
  apply Rmult_le_compat_r with (r := L_calc_of radius) in Hcov; [|lra].
  unfold Rdiv in Hcov. rewrite Rmult_assoc, Rinv_l, Rmult_1_r in Hcov by lra.
  apply Rmult_le_reg_r with (IZR (placement_cells radius side)); [exact Hk|].
  unfold Rdiv. rewrite Rmult_assoc, Rinv_l, Rmult_1_r by lra. lra.
Qed.

(** With two parts or more, a part is longer than half the cell. *)
Lemma pitch_gt_half_cell (radius side : R) :
  0 < radius -> (2 <= placement_cells radius side)%Z ->
  sqrt 2 * radius / 2 < side / IZR (placement_cells radius side).
Proof.
  intros Hr. unfold placement_cells, Math_ceil.
  pose proof (L_calc_pos radius Hr) as Hpos. fold (L_calc_of radius).
  set (k := Zceil (side / L_calc_of radius)). intros Hk.
  replace (Z.max 1 k) with k by lia.
  destruct (Zceil_bound (side / L_calc_of radius)) as [Hlo _]. fold k in Hlo.
  assert (2 <= IZR k) as Hk2 by (apply IZR_le; lia).
  assert ((IZR k - 1) * L_calc_of radius < side) as Hside.
  { apply Rmult_lt_compat_r with (r := L_calc_of radius) in Hlo; [|exact Hpos].
    unfold Rdiv in Hlo. rewrite Rmult_assoc, Rinv_l, Rmult_1_r in Hlo by lra.
    exact Hlo. }
  apply Rmult_lt_reg_r with (IZR k); [lra|].
  unfold Rdiv at 2. rewrite Rmult_assoc, Rinv_l, Rmult_1_r by lra. nra.
Qed.

(** Every point of a side is within half a part of the centre of a part. *)
Lemma nearest_centre (side : R) (cells : Z) (p : R) :
  0 < side -> (1 <= cells)%Z -> 0 <= p <= side ->
  exists i, (0 <= i < cells)%Z
            /\ Rabs (p - (IZR i + 0.5) * (side / IZR cells))
               <= side / IZR cells / 2.
Proof.
  intros Hs Hcells Hp.
  assert (0 < IZR cells) as Hk by (apply IZR_lt; lia).
  set (pitch := side / IZR cells).
  assert (0 < pitch) as Hpitch by (apply Rdiv_lt_0_compat; lra).
  assert (side = pitch * IZR cells) as Hside by (unfold pitch; field; lra).
  destruct (Zfloor_bound (p / pitch)) as [Hlo Hhi].
  set (i := Zfloor (p / pitch)) in *.
  assert (IZR i * pitch <= p < (IZR i + 1) * pitch) as [Hi0 Hi1].
  { split.
    - apply Rmult_le_compat_r with (r := pitch) in Hlo; [|lra].
      unfold Rdiv in Hlo. rewrite Rmult_assoc, Rinv_l, Rmult_1_r in Hlo by lra.
      exact Hlo.
    - apply Rmult_lt_compat_r with (r := pitch) in Hhi; [|lra].
      unfold Rdiv in Hhi. rewrite Rmult_assoc, Rinv_l, Rmult_1_r in Hhi by lra.
      exact Hhi. }
  assert (0 <= i)%Z as Hi_nonneg.
  { apply Zfloor_lub. apply Rmult_le_pos; [lra|].
    apply Rlt_le, Rinv_0_lt_compat, Hpitch. }
  assert (i <= cells)%Z as Hi_le.
  { apply le_IZR. apply Rmult_le_reg_r with pitch; [exact Hpitch|]. lra. }
  destruct (Z.eq_dec i cells) as [Heq|Hne].
  - exists (cells - 1)%Z. split; [lia|]. rewrite minus_IZR.
    rewrite Heq in Hi0. apply Rabs_le. lra.
  - exists i. split; [lia|]. apply Rabs_le. lra.
Qed.

(** Squares of bounded differences. *)
Lemma sqr_le_of_abs (d b : R) : Rabs d <= b -> d ^ 2 <= b ^ 2.
Proof.
  intros H. unfold Rabs in H. destruct (Rcase_abs d); nra.
Qed.

End Coverage.

Section PlacementExtras.
Import PlacementEngine.


(** X2. When the target is the whole grid ([nAP = rows * cols]) every point
    of the building is within [radius + 0.01] of a returned AP (the 0.01
    allows for the rounding of the coordinates). *)
Theorem complete_grid_covers (radius len wid px py : R) :
  0 < radius -> 0 < len -> 0 < wid -> 1e-6 <= sqrt 2 * radius ->
  let res := calculateAPPlacement radius len wid in
  nAP res = (placement_cells radius wid * placement_cells radius len)%Z ->
  0 <= px <= len -> 0 <= py <= wid ->
  exists c, In c (coordinates res)
            /\ (px - x c) ^ 2 + (py - y c) ^ 2 <= (radius + 0.01) ^ 2.
Proof.
  intros Hr Hl Hw Hc res Hfull Hpx Hpy. subst res.
  set (cols := placement_cells radius len) in *.
  set (rows := placement_cells radius wid) in *.
  pose proof (placement_cells_ge_1 radius len) as Hcols. fold cols in Hcols.
  pose proof (placement_cells_ge_1 radius wid) as Hrows. fold rows in Hrows.
  destruct (nearest_centre len cols px Hl Hcols Hpx) as (i & Hi & Hdx).
  destruct (nearest_centre wid rows py Hw Hrows Hpy) as (j & Hj & Hdy).
  assert (0 <= j * cols + i < nAP (calculateAPPlacement radius len wid))%Z
    as Hk by (rewrite Hfull; nia).
  pose proof (main_nth radius len wid Hr Hl Hw Hc _ Hk) as Hnth.
  fold cols in Hnth. fold rows in Hnth.
  rewrite Z.div_add_l, Z.div_small, Z.add_0_r in Hnth by lia.
  rewrite Z.add_comm, Z.mod_add, Z.mod_small in Hnth by lia.
  eexists. split; [eapply nth_error_In, Hnth|].
  unfold formatted, cell_centre. cbn [x y].
  destruct (main_pitch_pos radius len wid Hl Hw) as [Hcw Hch].
  fold cols in Hcw, Hdx. fold rows in Hch, Hdy.
  pose proof (pitch_le_cell radius len Hr Hl) as Hcw_le. fold cols in Hcw_le.
  pose proof (pitch_le_cell radius wid Hr Hw) as Hch_le. fold rows in Hch_le.
  set (a := (IZR i + 0.5) * (len / IZR cols)) in *.
  set (b := (IZR j + 0.5) * (wid / IZR rows)) in *.
  assert (0 <= a) as Ha.
  { unfold a. apply Rmult_le_pos; [|lra].
    assert (0 <= IZR i) by (apply IZR_le; lia). lra. }
  assert (0 <= b) as Hb.
  { unfold b. apply Rmult_le_pos; [|lra].
    assert (0 <= IZR j) by (apply IZR_le; lia). lra. }
  pose proof (toFixed2_error a Ha) as Hea.
  pose proof (toFixed2_error b Hb) as Heb.
  assert (Rabs (px - toFixed2 a) <= sqrt 2 * radius / 2 + 0.005) as Hx.
  { replace (px - toFixed2 a) with ((px - a) + - (toFixed2 a - a)) by ring.
    eapply Rle_trans; [apply Rabs_triang|]. rewrite Rabs_Ropp. lra. }
  assert (Rabs (py - toFixed2 b) <= sqrt 2 * radius / 2 + 0.005) as Hy.
  { replace (py - toFixed2 b) with ((py - b) + - (toFixed2 b - b)) by ring.
    eapply Rle_trans; [apply Rabs_triang|]. rewrite Rabs_Ropp. lra. }
  apply sqr_le_of_abs in Hx, Hy.
  pose proof sqrt2_sqr. pose proof sqrt2_bounds. nra.
Qed.

(** A building of 14 m by 14 m under radius 10: one cell, one AP, and the
    far corner is within reach of it. *)
Lemma complete_grid_covers_witness :
  exists c, In c (coordinates (calculateAPPlacement 10 14 14))
            /\ (14 - x c) ^ 2 + (14 - y c) ^ 2 <= (10 + 0.01) ^ 2.
Proof.
  assert (Hb : 1.41 < sqrt 2 < 1.42) by exact sqrt2_bounds.
  assert (H10 : 0 < 10) by lra. assert (H14 : 0 < 14) by lra.
  assert (Hc : 1e-6 <= sqrt 2 * 10) by lra.
  assert (Hcells : placement_cells 10 14 = 1%Z)
    by (apply placement_cells_eq; [lra | lia | lra]).
  assert (Hfull : nAP (calculateAPPlacement 10 14 14)
                  = (placement_cells 10 14 * placement_cells 10 14)%Z).
  { rewrite (main_nAP 10 14 14 H10 H14 H14 Hc), Hcells.
    change (1 * 1)%Z with 1%Z. apply nAP_target_eq; [lra | lia | lra]. }
  assert (Hp : 0 <= 14 <= 14) by lra.
  exact (complete_grid_covers 10 14 14 14 14 H10 H14 H14 Hc Hfull Hp Hp).
Defined.

(** A rounded centre of a part that is not the last one stays more than
    [0.725] cells from the end of the side, for a cell of 0.2 or more. *)
Lemma rounded_centre_far_from_end (radius side : R) (i : Z) :
  0 < radius -> 0 < side -> 0.2 <= sqrt 2 * radius ->
  (0 <= i <= placement_cells radius side - 2)%Z ->
  0.725 * (sqrt 2 * radius)
  < side - toFixed2 ((IZR i + 0.5)
                     * (side / IZR (placement_cells radius side))).
Proof.
  intros Hr Hs Hcell Hi.
  set (cells := placement_cells radius side) in *.
  assert (2 <= cells)%Z as H2 by lia.
  pose proof (pitch_gt_half_cell radius side Hr H2) as Hpitch. fold cells in Hpitch.
  assert (0 < IZR cells) as Hk by (apply IZR_lt; lia).
  set (pitch := side / IZR cells) in *.
  assert (side = pitch * IZR cells) as Hside by (unfold pitch; field; lra).
  assert (0 <= IZR i) as Hi0 by (apply IZR_le; lia).
  assert (IZR i + 2 <= IZR cells) as Hi2.
  { replace 2 with (IZR 2) by reflexivity. rewrite <- plus_IZR.
    apply IZR_le. lia. }
  assert (0 <= (IZR i + 0.5) * pitch) as Ha by nra.
  pose proof (toFixed2_upper _ Ha) as Hup. nra.
Qed.

(** X3. When the target cuts the grid short ([nAP < rows * cols]) and the
    cell side is at least 0.2, the far corner [(length, width)] of the
    building is farther than [radius] from every returned AP. *)
Theorem capped_grid_misses_corner (radius len wid : R) (c : APCoordinate) :
  0 < radius -> 0 < len -> 0 < wid -> 0.2 <= sqrt 2 * radius ->
  let res := calculateAPPlacement radius len wid in
  (nAP res < placement_cells radius wid * placement_cells radius len)%Z ->
  In c (coordinates res) ->
  radius ^ 2 < (len - x c) ^ 2 + (wid - y c) ^ 2.
Proof.
  intros Hr Hl Hw Hcell res Hcut Hin. subst res.
  assert (1e-6 <= sqrt 2 * radius) as Hc by lra.
  destruct (main_in radius len wid Hr Hl Hw Hc c Hin)
    as (k & Hk & Hrow & Hcol & ->).
  set (cols := placement_cells radius len) in *.
  set (rows := placement_cells radius wid) in *.
  unfold formatted, cell_centre. cbn [x y].
  pose proof sqrt2_sqr as Hs2. pose proof sqrt2_bounds as Hsb.
  assert (k = k / cols * cols + k mod cols)%Z as Hdm
      by (rewrite (Z.div_mod k cols) at 1 by lia; ring).
  assert (k mod cols <= cols - 2 \/ k / cols <= rows - 2)%Z as [Hleft|Hup] by nia.
  - pose proof (rounded_centre_far_from_end radius len (k mod cols)
                  Hr Hl Hcell) as Hfar.
    fold cols in Hfar. specialize (Hfar ltac:(lia)).
    pose proof (pow2_ge_0 (wid - toFixed2 ((IZR (k / cols) + 0.5)
                                           * (wid / IZR rows)))).
    nra.
  - pose proof (rounded_centre_far_from_end radius wid (k / cols)
                  Hr Hw Hcell) as Hfar.
    fold rows in Hfar. specialize (Hfar ltac:(lia)).
    pose proof (pow2_ge_0 (len - toFixed2 ((IZR (k mod cols) + 0.5)
                                           * (len / IZR cols)))).
    nra.
Qed.

(** For [place(10, 50, 30)] the grid has 12 cells and the target is 8: the
    corner (50, 30) is out of reach of the last AP, (43.75, 15). *)
Lemma capped_grid_misses_corner_witness :
  (nAP (calculateAPPlacement 10 50 30)
   < placement_cells 10 30 * placement_cells 10 50)%Z
  /\ 10 ^ 2 < (50 - 43.75) ^ 2 + (30 - 15) ^ 2.
Proof.
  assert (Hb : 1.41 < sqrt 2 < 1.42) by exact sqrt2_bounds.
  assert (H10 : 0 < 10) by lra. assert (H50 : 0 < 50) by lra.
  assert (H30 : 0 < 30) by lra. assert (Hc : 0.2 <= sqrt 2 * 10) by lra.
  assert (Hcut : (nAP (calculateAPPlacement 10 50 30)
                  < placement_cells 10 30 * placement_cells 10 50)%Z)
    by (rewrite scenario_result, scenario_rows, scenario_cols; cbn; lia).
  assert (Hin : In (mkAP 43.75 15) (coordinates (calculateAPPlacement 10 50 30))).
  { rewrite scenario_result. cbn [coordinates]. do 7 right. left. reflexivity. }
  split; [exact Hcut|].
  exact (capped_grid_misses_corner 10 50 30 (mkAP 43.75 15)
           H10 H50 H30 Hc Hcut Hin).
Defined.

(** Rounding keeps the centres of two different parts of a side apart, for
    a cell of 0.02 or more. *)
Lemma rounded_centre_injective (radius side : R) (i j : Z) :
  0 < radius -> 0 < side -> 0.02 <= sqrt 2 * radius ->
  (0 <= i < placement_cells radius side)%Z ->
  (0 <= j < placement_cells radius side)%Z ->
  toFixed2 ((IZR i + 0.5) * (side / IZR (placement_cells radius side)))
  = toFixed2 ((IZR j + 0.5) * (side / IZR (placement_cells radius side))) ->
  i = j.
Proof.
  intros Hr Hs Hcell.
  assert (forall a b : Z,
            (0 <= a < b)%Z -> (b < placement_cells radius side)%Z ->
            toFixed2 ((IZR a + 0.5) * (side / IZR (placement_cells radius side)))
            < toFixed2 ((IZR b + 0.5) * (side / IZR (placement_cells radius side))))
    as Hlt.
  { intros a b Hab Hb.
    destruct (placement_pitch radius side Hr Hs Hcell) as [H1|Hp]; [lia|].
    set (pitch := side / IZR (placement_cells radius side)) in *.
    assert (0 <= IZR a) by (apply IZR_le; lia).
    assert (IZR a + 1 <= IZR b)
      by (rewrite <- succ_IZR; apply IZR_le; lia).
    apply toFixed2_separates; nra. }
  intros Hi Hj Heq.
  destruct (Z.lt_trichotomy i j) as [Hij|[Hij|Hij]]; [|exact Hij|].
  - specialize (Hlt i j ltac:(lia) ltac:(lia)). lra.
  - specialize (Hlt j i ltac:(lia) ltac:(lia)). lra.
Qed.

(** X4. With a cell side of at least 0.02 no two returned coordinates are
    equal. *)
Theorem coordinates_distinct (radius len wid : R) :
  0.02 <= sqrt 2 * radius ->
  NoDup (coordinates (calculateAPPlacement radius len wid)).
Proof.
  intros Hcell.
  destruct (Rle_dec radius 0) as [Hr|Hr];
    [|destruct (Rle_dec len 0) as [Hl|Hl];
      [|destruct (Rle_dec wid 0) as [Hw|Hw]]].
  1-3: destruct (calculateAPPlacement_guarded radius len wid) as [Hg|Hg];
    [tauto | rewrite Hg; constructor | rewrite Hg; constructor].
  apply Rnot_le_lt in Hr, Hl, Hw.
  assert (1e-6 <= sqrt 2 * radius) as Hc by lra.
  assert (Z.of_nat (length (coordinates (calculateAPPlacement radius len wid)))
          = nAP (calculateAPPlacement radius len wid)) as Hcount.
  { rewrite (calculateAPPlacement_regular radius len wid Hr Hl Hw Hc).
    reflexivity. }
  pose proof (placement_cells_ge_1 radius len) as Hcols.
  pose proof (main_nAP_le_cells radius len wid Hr Hl Hw Hc) as Hn.
  pose proof (main_nth radius len wid Hr Hl Hw Hc) as Hnth.
  set (res := calculateAPPlacement radius len wid) in *.
  set (cols := placement_cells radius len) in *.
  set (rows := placement_cells radius wid) in *.
  apply NoDup_nth_error. intros i j Hi Heq.
  assert (j < length (coordinates res))%nat as Hj.
  { apply nth_error_Some. rewrite <- Heq. apply nth_error_Some. exact Hi. }
  assert (forall k, (0 <= k < nAP res)%Z ->
                    (0 <= k mod cols < cols)%Z /\ (0 <= k / cols < rows)%Z) as Hrange.
  { intros k Hk. split; [apply Z.mod_pos_bound; lia|].
    split; [apply Z.div_pos; lia | apply Z.div_lt_upper_bound; nia]. }
  assert (0 <= Z.of_nat i < nAP res)%Z as Hki by lia.
  assert (0 <= Z.of_nat j < nAP res)%Z as Hkj by lia.
  pose proof (Hnth _ Hki) as Hni. pose proof (Hnth _ Hkj) as Hnj.
  rewrite Nat2Z.id in Hni, Hnj.
  rewrite Hni, Hnj in Heq. injection Heq as Hx Hy.
  destruct (Hrange _ Hki) as [Hmi Hdi]. destruct (Hrange _ Hkj) as [Hmj Hdj].
  apply (rounded_centre_injective radius len _ _ Hr Hl Hcell Hmi Hmj) in Hx.
  apply (rounded_centre_injective radius wid _ _ Hr Hw Hcell Hdi Hdj) in Hy.
  pose proof (Z.div_mod (Z.of_nat i) cols ltac:(lia)) as Ei.
  pose proof (Z.div_mod (Z.of_nat j) cols ltac:(lia)) as Ej.
  rewrite Hx, Hy in Ei. lia.
Qed.

Lemma coordinates_distinct_witness :
  0.02 <= sqrt 2 * 10
  /\ NoDup (coordinates (calculateAPPlacement 10 50 30)).
Proof.
  assert (Hb : 1.41 < sqrt 2 < 1.42) by exact sqrt2_bounds.
  assert (Hc : 0.02 <= sqrt 2 * 10) by lra.
  split; [exact Hc | exact (coordinates_distinct 10 50 30 Hc)].
Defined.

End PlacementExtras.

(** ** What the tables print *)

Section PrintedCoordinates.
Import PlacementEngine AiSuggestions.

Lemma coordinates_formatted (radius len wid : R) (c : APCoordinate) :
  In c (coordinates (calculateAPPlacement radius len wid)) ->
  exists raw, c = formatted raw.
Proof.
  unfold calculateAPPlacement.
  destruct (leb radius 0 || leb len 0 || leb wid 0); [intros []|].
  destruct (ltb (sqrt 2 * radius) 1e-6); [intros []|].
  cbn [coordinates]. intros Hin. apply in_map_iff in Hin as (raw & <- & _).
  now exists raw.
Qed.

Lemma validated_rounded (len wid : R) (parsedData : list JsonItem)
      (res : OptimizationResult) (c : APCoordinate) :
  validate_suggestions len wid parsedData = Returned res ->
  In c (coordinates res) ->
  (exists p, c = rounded p) /\ within_building len wid c = true.
Proof.
  unfold validate_suggestions.
  destruct (every_numeric parsedData) as [points|]; [|discriminate].
  destruct (_ && _); intros Hres; injection Hres as <-; cbn [coordinates];
    [intros []|].
  intros Hin. apply filter_In in Hin as [Hin Hb].
  apply in_map_iff in Hin as (p & <- & _). split; [now exists p | exact Hb].
Qed.

(** X5. Every coordinate returned by [calculateAPPlacement] and every
    coordinate kept by the validation of the AI answer is left unchanged by
    [toFixed(2)]: the result tables and the report, which print
    [ap.x.toFixed(2)] and [ap.y.toFixed(2)], show the stored values. *)
Theorem coordinates_printed_as_stored :
  (forall (radius len wid : R) (c : APCoordinate),
      In c (coordinates (calculateAPPlacement radius len wid)) ->
      toFixed2 (x c) = x c /\ toFixed2 (y c) = y c)
  /\ (forall (len wid : R) (parsedData : list JsonItem)
             (res : OptimizationResult) (c : APCoordinate),
         validate_suggestions len wid parsedData = Returned res ->
         In c (coordinates res) ->
         toFixed2 (x c) = x c /\ toFixed2 (y c) = y c).
Proof.
  split.
  - intros radius len wid c Hin.
    destruct (coordinates_formatted radius len wid c Hin) as (raw & ->).
    unfold formatted. cbn [x y]. split; apply toFixed2_idempotent.
  - intros len wid parsedData res c Hres Hin.
    destruct (validated_rounded len wid parsedData res c Hres Hin)
      as [(p & ->) _].
    unfold rounded. cbn [x y]. split; apply toFixed2_idempotent.
Qed.

End PrintedCoordinates.

(** ** The form *)

Section SubmitFacts.
Import PlacementEngine App.


Lemma truthy_messages :
  truthy (Some msg_small_building) = true
  /\ truthy (Some msg_invalid_cell) = true
  /\ truthy (Some msg_not_positive) = true.
Proof. repeat split. Qed.




End SubmitFacts.

(** ** The drawing of a result *)

Section DrawingFacts.
Import PlacementEngine AiSuggestions BuildingVisualizer.

Lemma placed_in_building (radius len wid : R) (c : APCoordinate) :
  0.02 <= sqrt 2 * radius ->
  In c (coordinates (calculateAPPlacement radius len wid)) ->
  (0 < len /\ 0 < wid) /\ (0 <= x c <= len) /\ (0 <= y c <= wid).
Proof.
  intros Hcell Hin.
  assert (0 < radius /\ 0 < len /\ 0 < wid) as (Hr & Hl & Hw).
  { destruct (Rlt_dec 0 radius), (Rlt_dec 0 len), (Rlt_dec 0 wid);
      try tauto; exfalso;
      (destruct (calculateAPPlacement_guarded radius len wid) as [E|E];
       [left; lra | rewrite E in Hin; exact Hin ..]). }
  assert (1e-6 <= sqrt 2 * radius) as Hc by lra.
  destruct (main_in radius len wid Hr Hl Hw Hc c Hin)
    as (k & _ & Hrow & Hcol & ->).
  unfold formatted, cell_centre. cbn [x y].
  destruct (centre_inside len _ _ Hl Hcol) as [Hx0 _].
  destruct (centre_inside wid _ _ Hw Hrow) as [Hy0 _].
  pose proof (rounded_centre_inside radius len _ Hr Hl Hcell Hcol).
  pose proof (rounded_centre_inside radius wid _ Hr Hw Hcell Hrow).
  pose proof (toFixed2_nonneg _ (Rlt_le _ _ Hx0)).
  pose proof (toFixed2_nonneg _ (Rlt_le _ _ Hy0)).
  repeat split; assumption.
Qed.

Lemma scaled_inside (len wid : R) (aps : list APCoordinate) (c : APCoordinate) :
  0 < len -> 0 < wid ->
  (forall ap, In ap aps -> (0 <= x ap <= len) /\ (0 <= y ap <= wid)) ->
  In c (scaledAPs (mkBuilding len wid) aps) ->
  svg_rendered (mkBuilding len wid) = true
  /\ (padding <= x c <= padding + viewBoxWidth)
  /\ (padding <= y c <= padding + viewBoxHeight (mkBuilding len wid)).
Proof.
  intros Hl Hw Hall Hin. unfold scaledAPs in Hin.
  apply in_map_iff in Hin as (ap & <- & Hap).
  destruct (Hall ap Hap) as [Hx Hy].
  unfold svg_rendered, viewBoxHeight, scaleFactor, viewBoxWidth, padding.
  cbn [length width x y]. unfold gtb. settle_cmp. split; [reflexivity|].
  assert (0 < 800 / len) as Hs by (apply Rdiv_lt_0_compat; lra).
  assert (len * (800 / len) = 800) as Hfull by (field; lra).
  set (s := 800 / len) in *. nra.
Qed.

(** X8. Drawn by [BuildingVisualizer] for the building it was computed for,
    every AP of [calculateAPPlacement] (cell side at least 0.02) lies on
    the rectangle of the building: the drawing is rendered, and the marker
    is between [padding] and [padding + viewBoxWidth] across and between
    [padding] and [padding + viewBoxHeight] down. *)
Theorem placement_drawn_inside (radius len wid : R) (c : APCoordinate) :
  0.02 <= sqrt 2 * radius ->
  let building := mkBuilding len wid in
  In c (scaledAPs building (coordinates (calculateAPPlacement radius len wid))) ->
  svg_rendered building = true
  /\ (padding <= x c <= padding + viewBoxWidth)
  /\ (padding <= y c <= padding + viewBoxHeight building).
Proof.
  intros Hcell building Hin. subst building.
  assert (exists ap, In ap (coordinates (calculateAPPlacement radius len wid)))
    as (ap0 & Hap0).
  { unfold scaledAPs in Hin. apply in_map_iff in Hin as (ap & _ & Hap).
    now exists ap. }
  destruct (placed_in_building radius len wid ap0 Hcell Hap0) as ((Hl & Hw) & _).
  eapply (scaled_inside len wid _ c Hl Hw); [|exact Hin].
  intros ap Hap. now apply (placed_in_building radius len wid ap Hcell).
Qed.

(** The first AP of [place(10, 50, 30)], drawn at (120, 100). *)
Lemma placement_drawn_inside_witness :
  let building := mkBuilding 50 30 in
  (padding <= 6.25 * scaleFactor building + padding <= padding + viewBoxWidth)
  /\ (padding <= 5 * scaleFactor building + padding
      <= padding + viewBoxHeight building).
Proof.
  assert (Hb : 1.41 < sqrt 2 < 1.42) by exact sqrt2_bounds.
  assert (Hcell : 0.02 <= sqrt 2 * 10) by lra.
  assert (Hin : In (mkAP (6.25 * scaleFactor (mkBuilding 50 30) + padding)
                         (5 * scaleFactor (mkBuilding 50 30) + padding))
                   (scaledAPs (mkBuilding 50 30)
                      (coordinates (calculateAPPlacement 10 50 30)))).
  { rewrite scenario_result. cbn [coordinates scaledAPs map x y]. now left. }
  exact (proj2 (placement_drawn_inside 10 50 30 _ Hcell Hin)).
Defined.

(** X9. The same holds of every coordinate kept by the validation of the AI
    answer, for a building with positive sides. *)
Theorem suggestions_drawn_inside
        (len wid : R) (parsedData : list JsonItem)
        (res : OptimizationResult) (c : APCoordinate) :
  0 < len -> 0 < wid ->
  validate_suggestions len wid parsedData = Returned res ->
  let building := mkBuilding len wid in
  In c (scaledAPs building (coordinates res)) ->
  svg_rendered building = true
  /\ (padding <= x c <= padding + viewBoxWidth)
  /\ (padding <= y c <= padding + viewBoxHeight building).
Proof.
  intros Hl Hw Hres building Hin. subst building.
  eapply (scaled_inside len wid _ c Hl Hw); [|exact Hin].
  intros ap Hap.
  destruct (validated_rounded len wid parsedData res ap Hres Hap) as [_ Hb].
  apply within_building_iff in Hb. tauto.
Qed.

(** The answer [[{x: 10.004, y: 5}]] for a building of 10 by 10. *)
Lemma suggestions_drawn_inside_witness :
  exists res,
    validate_suggestions 10 10 [mkItem (JNumber 10.004) (JNumber 5)]
    = Returned res
    /\ forall c, In c (scaledAPs (mkBuilding 10 10) (coordinates res)) ->
                 padding <= x c <= padding + viewBoxWidth.
Proof.
  assert (H10 : 0 < 10) by lra.
  destruct (validate_suggestions 10 10 [mkItem (JNumber 10.004) (JNumber 5)])
    as [res|msg] eqn:Hres.
  - exists res. split; [reflexivity|]. intros c Hin.
    exact (proj1 (proj2 (suggestions_drawn_inside 10 10 _ res c H10 H10 Hres Hin))).
  - exfalso. unfold validate_suggestions in Hres. cbn in Hres.
    destruct (_ && _) in Hres; discriminate Hres.
Defined.

End DrawingFacts.

(** ** Sequences of pointer events *)

Section PointerFacts.
Import ManualAPSet InteractivePlanDisplay.

Lemma map_indexed_Forall {A : Type} (P : A -> Prop) (index i : Z) (b : A)
      (arr : list A) :
  P b -> Forall P arr ->
  Forall P (map_indexed (fun a k => if (k =? index)%Z then b else a) i arr).
Proof.
  intros Hb Harr. revert i.
  induction Harr as [|a arr Ha _ IH]; intros i; cbn [map_indexed];
    constructor; [destruct (i =? index)%Z; assumption | apply IH].
Qed.

Lemma filter_indexed_Forall {A : Type} (P : A -> Prop) (f : A -> Z -> bool)
      (i : Z) (arr : list A) :
  Forall P arr -> Forall P (filter_indexed f i arr).
Proof.
  intros Harr. revert i.
  induction Harr as [|a arr Ha _ IH]; intros i; cbn [filter_indexed];
    [constructor|].
  destruct (f a i); [constructor; [assumption | apply IH] | apply IH].
Qed.

Lemma map_indexed_overwrite {A : Type} (index i : Z) (b1 b2 : A)
      (arr : list A) :
  map_indexed (fun a k => if (k =? index)%Z then b2 else a) i
    (map_indexed (fun a k => if (k =? index)%Z then b1 else a) i arr)
  = map_indexed (fun a k => if (k =? index)%Z then b2 else a) i arr.
Proof.
  revert i. induction arr as [|a arr IH]; intros i; cbn [map_indexed];
    [reflexivity|].
  rewrite IH. destruct (i =? index)%Z; reflexivity.
Qed.

Lemma dragged_within_image (img : ImageElement) (displayed : Dimensions)
      (offset : APCoordinate) (event : MouseEvent) :
  within_image img (dragged_position img displayed offset event).
Proof.
  unfold within_image, dragged_position. cbn [x y].
  split; [apply (clamp_spec _ _ (natW_nonneg img))
         | apply (clamp_spec _ _ (natH_nonneg img))].
Qed.

Lemma scaled_within (d side n : R) :
  0 < side -> 0 <= n -> 0 <= d <= side -> 0 <= d / side * n <= n.
Proof.
  intros Hs Hn Hd.
  assert (d = d / side * side) as Heq by (field; lra).
  set (q := d / side) in *.
  assert (0 <= q <= 1) by (split; nra). split; nra.
Qed.

Lemma clicked_within_image (img : ImageElement) (rect : Dimensions)
      (event : MouseEvent) :
  0 < width rect -> 0 < height rect ->
  geb (clientX event - rect_left img) 0
  && leb (clientX event - rect_left img) (width rect)
  && geb (clientY event - rect_top img) 0
  && leb (clientY event - rect_top img) (height rect) = true ->
  within_image img
    (mkAP ((clientX event - rect_left img) / width rect * natW img)
          ((clientY event - rect_top img) / height rect * natH img)).
Proof.
  intros Hw Hh Htest.
  rewrite !andb_true_iff, !geb_true_iff, !leb_true_iff in Htest.
  unfold within_image. cbn [x y].
  split; apply scaled_within;
    auto using natW_nonneg, natH_nonneg; tauto.
Qed.

Lemma handle_keeps_within_image
      (img : ImageElement) (ev : PointerEvent) (st st' : State) :
  imageRef st = Some img -> click_on_screen ev ->
  Forall (within_image img) (manualAPs st) ->
  handle ev st = Some st' ->
  imageRef st' = Some img /\ Forall (within_image img) (manualAPs st').
Proof.
  intros Himg Hscreen Hinv Hstep.
  destruct ev as [rect event|event index|index|event|]; cbn [handle] in Hstep.
  - injection Hstep as <-. unfold handleContainerClick.
    destruct (draggingApIndex st); [now split|]. rewrite Himg.
    destruct (negb (complete img) || (naturalWidth img =? 0)%N);
      [now split|].
    destruct (geb _ _ && _ && _ && _) eqn:Htest; [|now split].
    cbn [imageRef manualAPs]. split; [first [assumption | reflexivity]|].
    unfold handlePlanClick. destruct (accept _ _); [|assumption].
    apply Forall_app. split; [first [assumption | reflexivity]|]. constructor; [|constructor].
    destruct Hscreen as [Hw Hh]. now apply clicked_within_image.
  - unfold handleApMouseDown in Hstep. rewrite Himg in Hstep.
    destruct (negb (complete img) || (naturalWidth img =? 0)%N);
      [injection Hstep as <-; now split|].
    destruct (at_index (manualAPs st) index); [|discriminate].
    injection Hstep as <-. cbn [imageRef manualAPs]. now split.
  - injection Hstep as <-. unfold handleApDoubleClick.
    cbn [imageRef manualAPs]. split; [first [assumption | reflexivity]|].
    now apply filter_indexed_Forall.
  - injection Hstep as <-. unfold handleGlobalMouseMove. rewrite Himg.
    destruct (draggingApIndex st) as [i|]; [|now split].
    destruct (dragStartOffset st) as [offset|]; [|now split].
    destruct (negb (complete img) || (naturalWidth img =? 0)%N);
      [now split|].
    cbn [imageRef manualAPs]. split; [first [assumption | reflexivity]|].
    apply map_indexed_Forall; [apply dragged_within_image | assumption].
  - injection Hstep as <-. unfold handleGlobalMouseUp.
    destruct (draggingApIndex st); [|now split].
    cbn [imageRef manualAPs]. now split.
Qed.

(** X10. Whatever the sequence of clicks, mouse-downs, double clicks, moves
    and mouse-ups handled by the plan display (with the image on screen at
    each click), if all the APs lay within the natural image before, they
    all do afterwards. *)
Theorem pointer_events_keep_within_image
        (img : ImageElement) (evs : list PointerEvent) (st st' : State) :
  imageRef st = Some img -> Forall click_on_screen evs ->
  Forall (within_image img) (manualAPs st) ->
  run evs st = Some st' ->
  Forall (within_image img) (manualAPs st').
Proof.
  intros Himg Hscreen. revert st Himg.
  induction Hscreen as [|ev evs Hev _ IH]; intros st Himg Hinv Hrun;
    cbn [run] in Hrun.
  - now injection Hrun as <-.
  - destruct (handle ev st) as [st1|] eqn:Hstep; [|discriminate].
    destruct (handle_keeps_within_image img ev st st1 Himg Hev Hinv Hstep)
      as [Himg1 Hinv1].
    exact (IH st1 Himg1 Hinv1 Hrun).
Qed.

(** A click in the middle of a 200 by 100 image shown at twice its size,
    then a drag of the new AP far to the right. *)
Lemma pointer_events_keep_within_image_witness :
  let img := mkImage true 200 100 0 0 in
  let st := mkState (Some img) (mkDimensions 400 200) None None [] in
  let evs := [Click (mkDimensions 400 200) (mkMouse 200 100);
              MouseDown (mkMouse 200 100) 0;
              MouseMove (mkMouse 1000 100);
              MouseUp] in
  exists st', run evs st = Some st'
              /\ Forall (within_image img) (manualAPs st').
Proof.
  intros img st evs.
  destruct (run evs st) as [st'|] eqn:Hrun.
  - exists st'. split; [reflexivity|].
    apply (pointer_events_keep_within_image img evs st st');
      [reflexivity | | constructor | exact Hrun].
    repeat constructor; cbn; lra.
  - exfalso. subst evs st img. cbn [run handle] in Hrun.
    unfold handleContainerClick in Hrun.
    cbn [draggingApIndex imageRef complete naturalWidth negb orb N.eqb
         clientX clientY rect_left rect_top width height manualAPs] in Hrun.
    unfold geb in Hrun.
    repeat match type of Hrun with
      | context [leb ?a ?b] =>
          rewrite (proj2 (leb_true_iff a b)) in Hrun by lra
      end.
    cbn [andb] in Hrun. unfold handlePlanClick in Hrun.
    cbn [accept isTooCloseToExisting existsb negb app] in Hrun.
    unfold handleApMouseDown in Hrun.
    cbn [imageRef complete naturalWidth negb orb N.eqb manualAPs at_index
         Z.ltb Z.compare Z.to_nat nth_error] in Hrun.
    discriminate Hrun.
Defined.

End PointerFacts.

(** ** The distance between manual APs *)

Section SeparationFacts.
Import ManualAPSet InteractivePlanDisplay.

Lemma distanceSquared_sym (p q : APCoordinate) :
  distanceSquared p q = distanceSquared q p.
Proof. unfold distanceSquared, Math_pow2. ring. Qed.

Lemma distanceSquared_self (p : APCoordinate) : distanceSquared p p = 0.
Proof. unfold distanceSquared, Math_pow2. ring. Qed.


Lemma ForallOrdPairs_nth {A : Type} (P : A -> A -> Prop) (l : list A)
      (i j : nat) (p q : A) :
  ForallOrdPairs P l -> (i < j)%nat ->
  nth_error l i = Some p -> nth_error l j = Some q -> P p q.
Proof.
  intros Hl. revert i j. induction Hl as [|a l Ha _ IH]; intros i j Hij Hi Hj.
  - destruct i; discriminate.
  - destruct j as [|j]; [lia|]. cbn [nth_error] in Hj.
    destruct i as [|i]; cbn [nth_error] in Hi.
    + injection Hi as <-. rewrite Forall_forall in Ha.
      apply Ha. eapply nth_error_In, Hj.
    + apply (IH i j); [lia | assumption ..].
Qed.





(** X12. A drag is not held to the threshold: while AP [i] is dragged, for
    every other AP [q] of the list there is a pointer position that puts
    AP [i] exactly on [q], so that the list then has two APs at distance
    0. *)
Theorem drag_onto_another
        (st : State) (img : ImageElement) (i j : Z)
        (offset q : APCoordinate) :
  draggingApIndex st = Some i -> dragStartOffset st = Some offset ->
  imageRef st = Some img -> complete img = true ->
  naturalWidth img <> 0%N -> naturalHeight img <> 0%N ->
  0 < width (displayedImageDimensions st) ->
  0 < height (displayedImageDimensions st) ->
  (0 <= i < Z.of_nat (length (manualAPs st)))%Z ->
  (0 <= j)%Z -> i <> j ->
  nth_error (manualAPs st) (Z.to_nat j) = Some q ->
  within_image img q ->
  exists event,
    let aps' := manualAPs (handleGlobalMouseMove event st) in
    nth_error aps' (Z.to_nat i) = Some q
    /\ nth_error aps' (Z.to_nat j) = Some q
    /\ ~ separated aps'.
Proof.
  intros Hdrag Hoff Himg Hcomplete HnatW HnatH Hw Hh Hi Hj Hij Hq Hin.
  set (displayed := displayedImageDimensions st) in *.
  assert (0 < natW img) as HW.
  { unfold natW. apply IZR_lt. lia. }
  assert (0 < natH img) as HH.
  { unfold natH. apply IZR_lt. lia. }
  exists (mkMouse (rect_left img + x offset + x q / natW img * width displayed)
                  (rect_top img + y offset + y q / natH img * height displayed)).
  cbv zeta.
  rewrite (handleGlobalMouseMove_dragging st _ i offset img
             Hdrag Hoff Himg Hcomplete HnatW).
  cbn [manualAPs]. fold displayed.
  assert (dragged_position img displayed offset
            (mkMouse (rect_left img + x offset + x q / natW img * width displayed)
                     (rect_top img + y offset + y q / natH img * height displayed))
          = q) as ->.
  { unfold dragged_position. cbn [clientX clientY].
    destruct q as [qx qy]. destruct Hin as [Hqx Hqy]. cbn [x y] in *.
    f_equal.
    - replace ((rect_left img + x offset + qx / natW img * width displayed
                - rect_left img - x offset) / width displayed * natW img)
        with qx by (field; lra).
      now apply (clamp_spec qx (natW img) (natW_nonneg img)).
    - replace ((rect_top img + y offset + qy / natH img * height displayed
                - rect_top img - y offset) / height displayed * natH img)
        with qy by (field; lra).
      now apply (clamp_spec qy (natH img) (natH_nonneg img)). }
  assert (nth_error (handleMoveManualAp i q (manualAPs st)) (Z.to_nat i)
          = Some q) as Hni.
  { rewrite handleMove_nth, Z2Nat.id, Z.eqb_refl by lia.
    destruct (nth_error (manualAPs st) (Z.to_nat i)) eqn:Hnone;
      [reflexivity|].
    apply nth_error_None in Hnone. lia. }
  assert (nth_error (handleMoveManualAp i q (manualAPs st)) (Z.to_nat j)
          = Some q) as Hnj.
  { rewrite handleMove_nth, Z2Nat.id by lia.
    destruct (Z.eqb_spec j i); [congruence | exact Hq]. }
  split; [exact Hni|]. split; [exact Hnj|].
  intros Hsep.
  assert (MIN_DISTANCE_THRESHOLD * MIN_DISTANCE_THRESHOLD
          <= distanceSquared q q) as Hfar.
  { destruct (Z.lt_total i j) as [Hlt|[Heq|Hgt]]; [|congruence|].
    - apply (ForallOrdPairs_nth _ _ (Z.to_nat i) (Z.to_nat j) q q Hsep);
        [lia | assumption ..].
    - apply (ForallOrdPairs_nth _ _ (Z.to_nat j) (Z.to_nat i) q q Hsep);
        [lia | assumption ..]. }
  rewrite distanceSquared_self in Hfar. unfold MIN_DISTANCE_THRESHOLD in Hfar.
  lra.
Qed.

(** Two APs 100 pixels apart, the first one being dragged. *)
Lemma drag_onto_another_witness :
  let img := mkImage true 200 200 0 0 in
  let st := mkState (Some img) (mkDimensions 200 200)
                    (Some 0%Z) (Some (mkAP 0 0))
                    [mkAP 50 50; mkAP 150 50] in
  separated (manualAPs st)
  /\ exists event, ~ separated (manualAPs (handleGlobalMouseMove event st)).
Proof.
  intros img st. split.
  - unfold separated, st, distanceSquared, Math_pow2, MIN_DISTANCE_THRESHOLD.
    cbn [manualAPs].
    apply FOP_cons; [apply Forall_cons; [cbn [x y]; lra | apply Forall_nil]|].
    apply FOP_cons; [apply Forall_nil | apply FOP_nil].
  - assert (Hnw : naturalWidth img <> 0%N) by discriminate.
    assert (Hnh : naturalHeight img <> 0%N) by discriminate.
    assert (Hw : 0 < width (displayedImageDimensions st)) by (cbn; lra).
    assert (Hh : 0 < height (displayedImageDimensions st)) by (cbn; lra).
    assert (Hi : (0 <= 0 < Z.of_nat (length (manualAPs st)))%Z) by (cbn; lia).
    assert (Hj : (0 <= 1)%Z) by lia.
    assert (Hij : 0%Z <> 1%Z) by discriminate.
    assert (Hin : within_image img (mkAP 150 50)).
    { unfold within_image, natW, natH. cbn. lra. }
    destruct (drag_onto_another st img 0 1 (mkAP 0 0) (mkAP 150 50)
                eq_refl eq_refl eq_refl eq_refl Hnw Hnh Hw Hh Hi Hj Hij
                eq_refl Hin) as (event & _ & _ & Hclose).
    now exists event.
Defined.

End SeparationFacts.

(** ** Screen and natural coordinates *)

Section ScreenFacts.
Import ManualAPSet InteractivePlanDisplay.

Lemma marker_position_Some
      (img : ImageElement) (displayed : Dimensions) (ap m : APCoordinate) :
  marker_position img displayed ap = Some m ->
  0 < natW img /\ 0 < natH img
  /\ m = mkAP (x ap * (width displayed / natW img))
              (y ap * (height displayed / natH img)).
Proof.
  unfold marker_position.
  destruct (naturalWidth img =? 0)%N eqn:Hw; [discriminate|].
  destruct (naturalHeight img =? 0)%N eqn:Hh; [discriminate|].
  cbn [orb]. intros Hm. injection Hm as <-.
  apply N.eqb_neq in Hw, Hh.
  repeat split; unfold natW, natH; apply IZR_lt; lia.
Qed.

(** X13. The click undoes the drawing: a click on the centre of the marker
    of a point of the natural image is converted back to that point, so it
    is the point handed to [handlePlanClick]; and when that point is one of
    the APs of the list the click changes nothing. *)
Theorem click_on_marker
        (st : State) (img : ImageElement) (displayed : Dimensions)
        (ap m : APCoordinate) :
  imageRef st = Some img -> complete img = true ->
  draggingApIndex st = None ->
  0 < width displayed -> 0 < height displayed ->
  within_image img ap ->
  marker_position img displayed ap = Some m ->
  let click := mkMouse (rect_left img + x m) (rect_top img + y m) in
  manualAPs (handleContainerClick displayed click st)
  = handlePlanClick (manualAPs st) ap
  /\ (In ap (manualAPs st) -> handleContainerClick displayed click st = st).
Proof.
  intros Himg Hcomplete Hidle Hw Hh [Hx Hy] Hm.
  destruct (marker_position_Some img displayed ap m Hm) as (HW & HH & ->).
  cbv zeta. cbn [x y].
  assert (naturalWidth img <> 0%N) as Hnw.
  { intros Hz. unfold natW in HW. rewrite Hz in HW. cbn in HW. lra. }
  destruct (scaled_within (x ap) (natW img) (width displayed) HW
              (Rlt_le _ _ Hw) Hx) as [Hdx0 Hdx1].
  destruct (scaled_within (y ap) (natH img) (height displayed) HH
              (Rlt_le _ _ Hh) Hy) as [Hdy0 Hdy1].
  assert (handleContainerClick displayed
            (mkMouse (rect_left img + x ap * (width displayed / natW img))
                     (rect_top img + y ap * (height displayed / natH img))) st
          = mkState (imageRef st) (displayedImageDimensions st)
                    (draggingApIndex st) (dragStartOffset st)
                    (handlePlanClick (manualAPs st) ap)) as Hclick.
  { unfold handleContainerClick. rewrite Hidle, Himg, Hcomplete.
    rewrite (proj2 (N.eqb_neq _ _) Hnw). cbn [negb orb clientX clientY].
    unfold geb. settle_cmp. cbn [andb].
    do 2 f_equal. destruct ap as [ax ay]. cbn [x y] in *.
    f_equal; field; lra. }
  rewrite Hclick. cbn [manualAPs]. split; [reflexivity|].
  intros Hin. unfold handlePlanClick.
  assert (accept ap (manualAPs st) = false) as ->.
  { apply accept_false_iff. exists ap. split; [exact Hin | nra]. }
  destruct st; cbn in *. congruence.
Qed.

(** The AP (50, 25) of a 200 by 100 image shown at twice its size. *)
Lemma click_on_marker_witness :
  let img := mkImage true 200 100 10 20 in
  let st := mkState (Some img) (mkDimensions 400 200) None None [mkAP 50 25] in
  exists m,
    marker_position img (mkDimensions 400 200) (mkAP 50 25) = Some m
    /\ handleContainerClick (mkDimensions 400 200)
         (mkMouse (rect_left img + x m) (rect_top img + y m)) st = st.
Proof.
  intros img st. eexists. split; [reflexivity|].
  assert (Hw : 0 < width (mkDimensions 400 200)) by (cbn; lra).
  assert (Hh : 0 < height (mkDimensions 400 200)) by (cbn; lra).
  assert (Hin : within_image img (mkAP 50 25)).
  { unfold within_image, natW, natH. cbn. lra. }
  apply (click_on_marker st img (mkDimensions 400 200) (mkAP 50 25) _
           eq_refl eq_refl eq_refl Hw Hh Hin eq_refl).
  now left.
Defined.

(** X14. A drag follows the pointer: after a mouse-down on AP [index], a
    move to another pointer position puts the AP where it was plus the
    displacement of the pointer, converted to natural pixels, clamped to the
    image; a move to the position of the mouse-down leaves an AP of the
    image where it is. *)
Theorem drag_follows_pointer
        (st0 : State) (img : ImageElement) (index : Z) (ap : APCoordinate)
        (down move : MouseEvent) :
  imageRef st0 = Some img -> complete img = true ->
  naturalWidth img <> 0%N -> naturalHeight img <> 0%N ->
  0 < width (displayedImageDimensions st0) ->
  0 < height (displayedImageDimensions st0) ->
  at_index (manualAPs st0) index = Some ap ->
  let displayed := displayedImageDimensions st0 in
  let target :=
    mkAP (Math_max 0 (Math_min
            (x ap + (clientX move - clientX down) / width displayed * natW img)
            (natW img)))
         (Math_max 0 (Math_min
            (y ap + (clientY move - clientY down) / height displayed * natH img)
            (natH img))) in
  exists st1,
    handleApMouseDown down index st0 = Some st1
    /\ manualAPs (handleGlobalMouseMove move st1)
       = handleMoveManualAp index target (manualAPs st0)
    /\ (within_image img ap ->
        manualAPs (handleGlobalMouseMove down st1)
        = handleMoveManualAp index ap (manualAPs st0)).
Proof.
  intros Himg Hcomplete Hnw Hnh Hw Hh Hap. cbv zeta.
  set (displayed := displayedImageDimensions st0) in *.
  assert (0 < natW img) as HW by (unfold natW; apply IZR_lt; lia).
  assert (0 < natH img) as HH by (unfold natH; apply IZR_lt; lia).
  set (offset := mkAP (clientX down - rect_left img
                       - x ap * (width displayed / natW img))
                      (clientY down - rect_top img
                       - y ap * (height displayed / natH img))).
  assert (handleApMouseDown down index st0
          = Some (mkState (imageRef st0) displayed (Some index) (Some offset)
                          (manualAPs st0))) as Hdown.
  { unfold handleApMouseDown. rewrite Himg, Hcomplete, Hap.
    rewrite (proj2 (N.eqb_neq _ _) Hnw). reflexivity. }
  eexists. split; [exact Hdown|].
  assert (forall event,
            manualAPs (handleGlobalMouseMove event
                         (mkState (imageRef st0) displayed (Some index)
                                  (Some offset) (manualAPs st0)))
            = handleMoveManualAp index
                (dragged_position img displayed offset event) (manualAPs st0))
    as Hmove.
  { intros event.
    rewrite (handleGlobalMouseMove_dragging
               (mkState (imageRef st0) displayed (Some index) (Some offset)
                        (manualAPs st0))
               event index offset img eq_refl eq_refl Himg Hcomplete Hnw).
    reflexivity. }
  split.
  - rewrite Hmove. f_equal. unfold dragged_position, offset. cbn [x y].
    f_equal; f_equal; f_equal; field; lra.
  - intros [Hx Hy]. rewrite Hmove. f_equal.
    unfold dragged_position, offset. cbn [x y].
    destruct ap as [ax ay]. cbn [x y] in *. f_equal.
    + replace ((clientX down - rect_left img
                - (clientX down - rect_left img
                   - ax * (width displayed / natW img)))
               / width displayed * natW img) with ax by (field; lra).
      now apply (clamp_spec ax (natW img) (natW_nonneg img)).
    + replace ((clientY down - rect_top img
                - (clientY down - rect_top img
                   - ay * (height displayed / natH img)))
               / height displayed * natH img) with ay by (field; lra).
      now apply (clamp_spec ay (natH img) (natH_nonneg img)).
Qed.

(** A grab 3 pixels off the centre of the AP (100, 100), pulled 40 pixels
    to the right on an image shown at half its size: 80 natural pixels. *)
Lemma drag_follows_pointer_witness :
  let img := mkImage true 400 400 0 0 in
  let st0 := mkState (Some img) (mkDimensions 200 200) None None
                     [mkAP 100 100] in
  exists st1,
    handleApMouseDown (mkMouse 53 50) 0 st0 = Some st1
    /\ manualAPs (handleGlobalMouseMove (mkMouse 93 50) st1) = [mkAP 180 100].
Proof.
  intros img st0.
  assert (Hnw : naturalWidth img <> 0%N) by discriminate.
  assert (Hnh : naturalHeight img <> 0%N) by discriminate.
  assert (Hw : 0 < width (displayedImageDimensions st0)) by (cbn; lra).
  assert (Hh : 0 < height (displayedImageDimensions st0)) by (cbn; lra).
  destruct (drag_follows_pointer st0 img 0 (mkAP 100 100)
              (mkMouse 53 50) (mkMouse 93 50)
              eq_refl eq_refl Hnw Hnh Hw Hh eq_refl)
    as (st1 & Hdown & Hmove & _).
  exists st1. split; [exact Hdown|]. rewrite Hmove.
  cbn [st0 manualAPs handleMoveManualAp map_indexed Z.eqb
       displayedImageDimensions width height clientX clientY x y].
  assert (Hnat : natW img = 400 /\ natH img = 400)
    by (unfold natW, natH; cbn; split; reflexivity).
  destruct Hnat as [-> ->]. unfold Math_max, Math_min.
  do 2 f_equal.
  - rewrite Rmin_left, Rmax_right by lra. lra.
  - rewrite Rmin_left, Rmax_right by lra. lra.
Defined.

(** X15. Of two move events in a row only the second one counts: the state
    after both is the state after the second alone. *)
Theorem last_move_wins (e1 e2 : MouseEvent) (st : State) :
  handleGlobalMouseMove e2 (handleGlobalMouseMove e1 st)
  = handleGlobalMouseMove e2 st.
Proof.
  unfold handleGlobalMouseMove at 2 3.
  destruct (draggingApIndex st) as [index|] eqn:Hdrag;
    [|unfold handleGlobalMouseMove; now rewrite Hdrag].
  destruct (imageRef st) as [img|] eqn:Himg;
    [|unfold handleGlobalMouseMove; now rewrite Hdrag, Himg].
  destruct (dragStartOffset st) as [offset|] eqn:Hoff;
    [|unfold handleGlobalMouseMove; now rewrite Hdrag, Himg, Hoff].
  destruct (negb (complete img) || (naturalWidth img =? 0)%N) eqn:Hready;
    [unfold handleGlobalMouseMove; now rewrite Hdrag, Himg, Hoff, Hready|].
  unfold handleGlobalMouseMove.
  cbn [draggingApIndex imageRef dragStartOffset displayedImageDimensions
       manualAPs].
  rewrite Hready. f_equal. unfold handleMoveManualAp.
  apply map_indexed_overwrite.
Qed.

(** X16. A mouse-up ends the drag: it leaves the APs as they are, and a
    move that follows it changes nothing. *)
Theorem mouse_up_ends_drag (event : MouseEvent) (st : State) :
  manualAPs (handleGlobalMouseUp st) = manualAPs st
  /\ draggingApIndex (handleGlobalMouseUp st) = None
  /\ handleGlobalMouseMove event (handleGlobalMouseUp st)
     = handleGlobalMouseUp st.
Proof.
  unfold handleGlobalMouseUp.
  destruct (draggingApIndex st) eqn:Hdrag; cbn [manualAPs draggingApIndex].
  - repeat split; reflexivity.
  - repeat split; [assumption|]. unfold handleGlobalMouseMove.
    now rewrite Hdrag.
Qed.

(** X17. With the image loaded and a positive building length, the radius
    of the coverage circle on screen is the radius in metres times the
    displayed width over the building length, whatever the natural width;
    the circle is drawn exactly when this is positive. *)
Theorem coverage_radius_on_screen
        (img : ImageElement) (displayed : Dimensions)
        (coverageRadiusMeters buildingLengthMeters : R) :
  naturalWidth img <> 0%N -> 0 < buildingLengthMeters ->
  coverageRadius_display img displayed
    coverageRadiusMeters buildingLengthMeters
  = coverageRadiusMeters * width displayed / buildingLengthMeters
  /\ (coverage_circle_drawn img displayed
        coverageRadiusMeters buildingLengthMeters = true
      <-> 0 < coverageRadiusMeters * width displayed).
Proof.
  intros Hnw Hlen.
  assert (0 < natW img) as HW by (unfold natW; apply IZR_lt; lia).
  assert ((0 <? naturalWidth img)%N = true) as Hpos by (apply N.ltb_lt; lia).
  assert (coverageRadius_display img displayed
            coverageRadiusMeters buildingLengthMeters
          = coverageRadiusMeters * width displayed / buildingLengthMeters)
    as Heq.
  { unfold coverageRadius_display, coverageRadiusInOriginalImagePixels,
      pixelsPerMeterScale.
    rewrite Hpos, (proj2 (gtb_true_iff buildingLengthMeters 0) Hlen).
    cbn [andb].
    assert (0 < natW img / buildingLengthMeters) as Hscale
        by (apply Rdiv_lt_0_compat; lra).
    rewrite (proj2 (gtb_true_iff _ 0) Hscale). field. lra. }
  split; [exact Heq|].
  unfold coverage_circle_drawn. rewrite Heq, andb_true_iff, !gtb_true_iff.
  split.
  - intros [Hr _].
    replace (coverageRadiusMeters * width displayed)
      with (coverageRadiusMeters * width displayed / buildingLengthMeters
            * buildingLengthMeters) by (field; lra).
    now apply Rmult_lt_0_compat.
  - intros Hr. split; [now apply Rdiv_lt_0_compat | assumption].
Qed.

(** A radius of 10 m on an image shown 400 pixels wide for a building of
    50 m: 80 pixels. *)
Lemma coverage_radius_on_screen_witness :
  coverageRadius_display (mkImage true 1000 500 0 0) (mkDimensions 400 200)
                         10 50 = 80.
Proof.
  assert (Hnw : naturalWidth (mkImage true 1000 500 0 0) <> 0%N)
    by discriminate.
  assert (Hlen : 0 < 50) by lra.
  rewrite (proj1 (coverage_radius_on_screen (mkImage true 1000 500 0 0)
                    (mkDimensions 400 200) 10 50 Hnw Hlen)).
  cbn [width]. lra.
Defined.

End ScreenFacts.

(** ** What is stored and printed by the application *)

Section AppFacts.
Import AiSuggestions App.

(** X18. When the validation of the AI answer returns a result,
    [handleAiOptimize] stores it as it is: the result already has at least
    one coordinate or a non-empty message, its count is the number of its
    coordinates, and the fallback message is not used. *)
Theorem ai_result_stored
        (len wid : R) (parsedData : list JsonItem) (res : OptimizationResult) :
  validate_suggestions len wid parsedData = Returned res ->
  stored_ai_results res = res
  /\ nAP res = Z.of_nat (length (coordinates res))
  /\ (coordinates res = [] -> truthy (message res) = true)
  /\ (coordinates res <> [] -> message res = None).
Proof.
  unfold validate_suggestions.
  destruct (every_numeric parsedData) as [points|]; [|discriminate].
  set (kept := filter (within_building len wid) (map rounded points)).
  destruct ((length kept =? 0)%nat && negb (length parsedData =? 0)%nat);
    intros Hres; injection Hres as <-.
  - repeat split; try reflexivity. now intros [].
  - unfold stored_ai_results. cbn [nAP coordinates message].
    destruct kept as [|c kept']; cbn [length Nat.eqb Nat.ltb Nat.leb andb].
    + repeat split; try reflexivity. now intros [].
    + repeat split; try reflexivity. discriminate.
Qed.

(** An answer whose only point is outside the building. *)
Lemma ai_result_stored_witness :
  exists res,
    validate_suggestions 10 10 [mkItem (JNumber 11) (JNumber 5)] = Returned res
    /\ stored_ai_results res = res.
Proof.
  destruct (validate_suggestions 10 10 [mkItem (JNumber 11) (JNumber 5)])
    as [res|msg] eqn:Hres.
  - exists res. split; [reflexivity|].
    exact (proj1 (ai_result_stored 10 10 _ res Hres)).
  - exfalso. unfold validate_suggestions in Hres. cbn in Hres.
    destruct (_ && _) in Hres; discriminate Hres.
Defined.

(** X19. The captured plan is placed in the report with its proportions
    kept, not wider than the page and not higher than the room left, and as
    large as that allows; the second adjustment of the code (width above
    the page width) never applies. *)
Theorem plan_image_fits (pdfPageWidth maxImgHeight props_width props_height : R) :
  0 < pdfPageWidth -> 0 < maxImgHeight ->
  0 < props_width -> 0 < props_height ->
  let size :=
    plan_image_size pdfPageWidth maxImgHeight props_width props_height in
  let scaled := props_height * pdfPageWidth / props_width in
  (0 < fst size <= pdfPageWidth) /\ (0 < snd size <= maxImgHeight)
  /\ fst size * props_height = snd size * props_width
  /\ (fst size = pdfPageWidth \/ snd size = maxImgHeight)
  /\ size = (if gtb scaled maxImgHeight
             then (props_width * maxImgHeight / props_height, maxImgHeight)
             else (pdfPageWidth, scaled)).
Proof.
  intros Hpw Hmh Hw Hh. cbv zeta. unfold plan_image_size.
  set (scaled := props_height * pdfPageWidth / props_width).
  assert (scaled * props_width = props_height * pdfPageWidth) as Hscaled
      by (unfold scaled; field; lra).
  assert (0 < scaled) as Hpos.
  { unfold scaled. apply Rdiv_lt_0_compat; [nra | lra]. }
  destruct (gtb scaled maxImgHeight) eqn:Hcmp.
  - apply gtb_true_iff in Hcmp.
    set (narrow := props_width * maxImgHeight / props_height).
    assert (narrow * props_height = props_width * maxImgHeight) as Hnarrow
        by (unfold narrow; field; lra).
    assert (0 < narrow) as Hnpos.
    { unfold narrow. apply Rdiv_lt_0_compat; [nra | lra]. }
    assert (narrow < pdfPageWidth) as Hlt by nra.
    rewrite (proj2 (gtb_false_iff narrow pdfPageWidth)) by lra.
    cbn [fst snd]. repeat split; lra.
  - apply gtb_false_iff in Hcmp.
    rewrite (proj2 (gtb_false_iff pdfPageWidth pdfPageWidth)) by lra.
    cbn [fst snd]. repeat split; lra.
Qed.

(** A capture of 1200 by 1500 pixels on a page 182 wide with 200 left. *)
Lemma plan_image_fits_witness :
  plan_image_size 182 200 1200 1500 = (160, 200).
Proof.
  assert (H1 : 0 < 182) by lra. assert (H2 : 0 < 200) by lra.
  assert (H3 : 0 < 1200) by lra. assert (H4 : 0 < 1500) by lra.
  destruct (plan_image_fits 182 200 1200 1500 H1 H2 H3 H4)
    as (_ & _ & _ & _ & ->).
  rewrite (proj2 (gtb_true_iff _ _)) by lra. f_equal. lra.
Defined.

End AppFacts.

(** ** Combinations *)

Section NchoosekFacts.
Import MathHelpers.

Lemma combinations_short {T : Type} (k : nat) (l : list T) :
  (length l < k)%nat -> combinations T k l = [].
Proof.
  revert k. induction l as [|a l IH]; intros [|k] Hk; cbn [length] in Hk;
    try lia; cbn [combinations]; [reflexivity|].
  rewrite (IH k), (IH (S k)) by lia. reflexivity.
Qed.

Lemma combinations_all {T : Type} (l : list T) :
  combinations T (length l) l = [l].
Proof.
  induction l as [|a l IH]; cbn [length combinations]; [reflexivity|].
  rewrite IH, combinations_short by lia. reflexivity.
Qed.

Lemma combinations_zero {T : Type} (l : list T) : combinations T 0 l = [[]].
Proof. destruct l; reflexivity. Qed.

Lemma combinations_one {T : Type} (l : list T) :
  combinations T 1 l = map (fun item => [item]) l.
Proof.
  induction l as [|a l IH]; cbn [combinations map]; [reflexivity|].
  rewrite combinations_zero, IH. reflexivity.
Qed.

Lemma combinations_map {T U : Type} (f : T -> U) (k : nat) (l : list T) :
  map (map f) (combinations T k l) = combinations U k (map f l).
Proof.
  revert k. induction l as [|a l IH]; intros [|k]; cbn [combinations map];
    try reflexivity.
  rewrite map_app, map_map, <- IH, <- IH, map_map. reflexivity.
Qed.

Lemma map_nth_indices {T : Type} (d : T) (arr : list T) :
  map (fun i => nth i arr d) (seq 0 (length arr)) = arr.
Proof.
  induction arr as [|a arr IH]; cbn [length seq map nth]; [reflexivity|].
  rewrite <- seq_shift, map_map. cbn [nth]. now rewrite IH.
Qed.

Lemma buildIndices_combinations (n : nat) (k : Z) (remaining : nat)
      (currentIndices : list nat) :
  (remaining <= n)%nat -> (Z.of_nat (length currentIndices) <= k)%Z ->
  buildIndices n k remaining currentIndices
  = map (app currentIndices)
        (combinations nat (Z.to_nat (k - Z.of_nat (length currentIndices)))
                      (seq (n - remaining) remaining)).
Proof.
  revert currentIndices.
  induction remaining as [|remaining IH]; intros cur Hrem Hcur;
    cbn [buildIndices].
  - destruct (Z.eqb_spec (Z.of_nat (length cur)) k) as [Heq|Hne].
    + rewrite Heq, Z.sub_diag. cbn. now rewrite app_nil_r.
    + destruct (Z.to_nat (k - Z.of_nat (length cur))) eqn:Hm; [lia|].
      reflexivity.
  - destruct (Z.eqb_spec (Z.of_nat (length cur)) k) as [Heq|Hne].
    + rewrite Heq, Z.sub_diag. cbn [Z.to_nat]. rewrite combinations_zero.
      cbn. now rewrite app_nil_r.
    + destruct (Z.to_nat (k - Z.of_nat (length cur))) as [|m] eqn:Hm; [lia|].
      cbn [seq combinations]. rewrite map_app, map_map.
      replace (S (n - S remaining)) with (n - remaining)%nat by lia.
      f_equal.
      * rewrite IH by (rewrite ?length_app; cbn [length]; lia).
        rewrite length_app. cbn [length].
        replace (Z.to_nat (k - Z.of_nat (length cur + 1))) with m by lia.
        apply map_ext. intros c. now rewrite <- app_assoc.
      * destruct (Z.leb_spec (k - Z.of_nat (length cur))
                             (Z.of_nat n - Z.of_nat (n - S remaining + 1)))
          as [Hfits|Hshort].
        -- rewrite IH by lia. now rewrite Hm.
        -- rewrite combinations_short; [reflexivity|]. rewrite length_seq. lia.
Qed.

Lemma nchoosek_combinations {T : Type} (undefined : T) (arr : list T) (k : Z) :
  nchoosek T undefined arr k
  = if (k <? 0)%Z then [] else combinations T (Z.to_nat k) arr.
Proof.
  unfold nchoosek.
  destruct (Z.ltb_spec k 0) as [Hneg|Hk]; [reflexivity|]. cbn [orb].
  destruct (Z.ltb_spec (Z.of_nat (length arr)) k) as [Hbig|Hle].
  { rewrite combinations_short by lia. reflexivity. }
  destruct (Z.eqb_spec k 0) as [->|H0]; [now rewrite combinations_zero|].
  destruct (Z.eqb_spec k (Z.of_nat (length arr))) as [->|Hn].
  { now rewrite Nat2Z.id, combinations_all. }
  destruct (Z.eqb_spec k 1) as [->|H1]; [now rewrite combinations_one|].
  rewrite buildIndices_combinations by (cbn [length]; lia).
  cbn [length]. rewrite Z.sub_0_r, Nat.sub_diag.
  rewrite map_map. cbn [app].
  rewrite (map_ext _ (map (fun i => nth i arr undefined)))
    by reflexivity.
  now rewrite combinations_map, map_nth_indices.
Qed.

Lemma subsequence_nil_l {T : Type} (l : list T) : subsequence T [] l.
Proof. induction l; constructor; assumption. Qed.

Lemma In_combinations {T : Type} (k : nat) (l c : list T) :
  In c (combinations T k l) <-> subsequence T c l /\ length c = k.
Proof.
  split.
  - revert k c. induction l as [|a l IH]; intros [|k] c Hin;
      cbn [combinations] in Hin.
    + destruct Hin as [<-|[]]. split; [constructor | reflexivity].
    + destruct Hin.
    + destruct Hin as [<-|[]]. split; [apply subsequence_nil_l | reflexivity].
    + apply in_app_or in Hin as [Hin|Hin].
      * apply in_map_iff in Hin as (c' & <- & Hc').
        destruct (IH _ _ Hc') as [Hsub Hlen].
        split; [now constructor | cbn [length]; lia].
      * destruct (IH _ _ Hin) as [Hsub Hlen].
        split; [now constructor | assumption].
  - intros [Hsub Hlen]. revert k Hlen.
    induction Hsub as [|a s l Hsub IH|a s l Hsub IH]; intros k Hlen.
    + subst k. now left.
    + cbn [length] in Hlen. subst k. cbn [combinations].
      apply in_or_app. left. apply in_map, IH. reflexivity.
    + destruct k as [|k].
      * destruct s; [now left | discriminate].
      * cbn [combinations]. apply in_or_app. right. now apply IH.
Qed.

Lemma length_combinations {T : Type} (k : nat) (l : list T) :
  length (combinations T k l) = binomial (length l) k.
Proof.
  revert k. induction l as [|a l IH]; intros [|k];
    cbn [combinations length binomial]; try reflexivity.
  now rewrite length_app, length_map, !IH.
Qed.

(** X20. [nchoosek(arr, k)], for an integer [k], lists exactly the lists
    obtained from [arr] by keeping [k] of its positions, in the order of
    [arr]. *)
Theorem nchoosek_members {T : Type} (undefined : T) (arr c : list T) (k : Z) :
  In c (nchoosek T undefined arr k)
  <-> subsequence T c arr /\ Z.of_nat (length c) = k.
Proof.
  rewrite nchoosek_combinations.
  destruct (Z.ltb_spec k 0) as [Hneg|Hk].
  - split; [intros [] | intros [_ Hlen]; lia].
  - rewrite In_combinations. split; intros [Hsub Hlen]; (split; [exact Hsub | lia]).
Qed.

(** X21. It lists each choice of positions once: the number of lists is the
    binomial coefficient of the length of [arr] and [k], and 0 for a
    negative [k]. *)
Theorem nchoosek_count {T : Type} (undefined : T) (arr : list T) (k : Z) :
  length (nchoosek T undefined arr k)
  = if (k <? 0)%Z then 0%nat else binomial (length arr) (Z.to_nat k).
Proof.
  rewrite nchoosek_combinations.
  destruct (k <? 0)%Z; [reflexivity | apply length_combinations].
Qed.

(** X22. The combinations that contain the first element come first, each
    as that element followed by a combination of the rest, and then come
    those that do not contain it. *)
Theorem nchoosek_first_element
        {T : Type} (undefined : T) (a : T) (arr : list T) (k : Z) :
  (0 <= k)%Z ->
  nchoosek T undefined (a :: arr) (k + 1)
  = map (cons a) (nchoosek T undefined arr k)
    ++ nchoosek T undefined arr (k + 1).
Proof.
  intros Hk. rewrite !nchoosek_combinations.
  destruct (Z.ltb_spec (k + 1) 0) as [Hneg|_]; [lia|].
  destruct (Z.ltb_spec k 0) as [Hneg|_]; [lia|].
  replace (Z.to_nat (k + 1)) with (S (Z.to_nat k)) by lia.
  reflexivity.
Qed.

(** The pairs of four elements. *)
Lemma nchoosek_first_element_witness :
  nchoosek nat 0%nat [1; 2; 3; 4]%nat 2
  = [[1; 2]; [1; 3]; [1; 4]; [2; 3]; [2; 4]; [3; 4]]%nat.
Proof.
  assert (Hk : (0 <= 1)%Z) by lia.
  change 2%Z with (1 + 1)%Z.
  rewrite (nchoosek_first_element 0%nat 1%nat [2; 3; 4]%nat 1 Hk).
  reflexivity.
Defined.

(** X23. [heaviside] is a step: it never decreases, and its value is 0
    below zero and 1 from zero on. *)
Theorem heaviside_step (a b : R) :
  a <= b ->
  heaviside a <= heaviside b
  /\ (a < 0 -> heaviside a = 0) /\ (0 <= b -> heaviside b = 1).
Proof.
  intros Hab. unfold heaviside, geb.
  destruct (leb 0 a) eqn:Ha, (leb 0 b) eqn:Hb;
    rewrite ?leb_true_iff, ?leb_false_iff in *;
    repeat split; intros; lra.
Qed.

Lemma heaviside_step_witness : heaviside (-1) <= heaviside 0.
Proof.
  assert (H : -1 <= 0) by lra.
  exact (proj1 (heaviside_step (-1) 0 H)).
Defined.

End NchoosekFacts.

(** ** More on the results *)

Section ResultFacts.
Import PlacementEngine AiSuggestions InteractivePlanDisplay ManualTable.

Lemma filter_rounded_fixed (len wid : R) (l : list APCoordinate) :
  (forall c, In c l -> rounded c = c /\ within_building len wid c = true) ->
  filter (within_building len wid) (map rounded l) = l.
Proof.
  induction l as [|c l IH]; intros Hall; cbn [map filter]; [reflexivity|].
  destruct (Hall c (or_introl eq_refl)) as [-> ->].
  rewrite IH; [reflexivity|]. intros c' Hc'. apply Hall. now right.
Qed.

Lemma validated_count (len wid : R) (parsedData : list JsonItem)
      (res : OptimizationResult) :
  validate_suggestions len wid parsedData = Returned res ->
  nAP res = Z.of_nat (length (coordinates res)).
Proof.
  unfold validate_suggestions.
  destruct (every_numeric parsedData) as [points|]; [|discriminate].
  destruct (_ && _); intros Hres; injection Hres as <-; reflexivity.
Qed.

(** X24. The validation of the AI answer is idempotent on what it keeps:
    given its own coordinates as an answer, it returns the same
    coordinates and the same count. *)
Theorem validation_idempotent
        (len wid : R) (parsedData : list JsonItem) (res : OptimizationResult) :
  validate_suggestions len wid parsedData = Returned res ->
  exists res',
    validate_suggestions len wid (map item_of_point (coordinates res))
    = Returned res'
    /\ coordinates res' = coordinates res /\ nAP res' = nAP res.
Proof.
  intros Hres.
  pose proof (validate_numeric len wid (coordinates res)) as Hagain.
  cbv zeta in Hagain.
  rewrite filter_rounded_fixed in Hagain.
  - eexists. split; [exact Hagain|]. cbn [coordinates nAP].
    split; [reflexivity|]. symmetry. exact (validated_count _ _ _ _ Hres).
  - intros c Hc.
    destruct (validated_rounded len wid parsedData res c Hres Hc)
      as [(p & ->) Hb].
    split; [|exact Hb]. unfold rounded. cbn [x y].
    now rewrite !toFixed2_idempotent.
Qed.

(** The answer [[{x: 10.004, y: 5}]], kept as (10, 5). *)
Lemma validation_idempotent_witness :
  exists res',
    validate_suggestions 10 10 (map item_of_point [mkAP 10 5]) = Returned res'
    /\ coordinates res' = [mkAP 10 5].
Proof.
  destruct (validation_idempotent 10 10 [item_of_point (mkAP 10.004 5)]
              (mkResult 1 [mkAP 10 5] None) rounded_into_building)
    as (res' & Hres' & Hcoords & _).
  exists res'. split; [exact Hres' | exact Hcoords].
Defined.


(** X26. The table of the manual APs and the plan display use one scale:
    with the natural width of the image and a positive building length the
    two scales are equal, the radius of the coverage circle in natural
    pixels is worth the coverage radius in metres, and the metric X of an
    AP of the image is printed between 0 and the building length (up to
    the rounding). *)
Theorem table_scale_matches_display
        (img : ImageElement) (natural : Dimensions)
        (buildingLength coverageRadiusMeters : R) (ap : APCoordinate) :
  naturalWidth img <> 0%N -> width natural = natW img ->
  0 < buildingLength -> within_image img ap ->
  let scale := pixelsPerMeterScaleManual (Some natural) (Some buildingLength) in
  scale = pixelsPerMeterScale (Some img) buildingLength
  /\ coverageRadiusInOriginalImagePixels
       (Some img) coverageRadiusMeters buildingLength / scale
     = coverageRadiusMeters
  /\ exists v, x_m scale ap = Fixed2 v /\ 0 <= v <= buildingLength + 0.005.
Proof.
  intros Hnw Hnat Hlen [Hx _]. cbv zeta.
  assert (0 < natW img) as HW by (unfold natW; apply IZR_lt; lia).
  assert ((0 <? naturalWidth img)%N = true) as Hpos by (apply N.ltb_lt; lia).
  assert (0 < width natural) as Hwn by lra.
  destruct (scale_available natural buildingLength Hwn Hlen) as [-> Hscale].
  rewrite Hnat in *.
  unfold coverageRadiusInOriginalImagePixels, pixelsPerMeterScale.
  rewrite Hpos, (proj2 (gtb_true_iff buildingLength 0) Hlen). cbn [andb].
  split; [reflexivity|]. split; [field; lra|].
  unfold x_m. rewrite (proj2 (gtb_true_iff _ 0) Hscale).
  eexists. split; [reflexivity|].
  assert (x ap / (natW img / buildingLength)
          = x ap / natW img * buildingLength) as -> by (field; lra).
  destruct (scaled_within (x ap) (natW img) buildingLength HW
              (Rlt_le _ _ Hlen) Hx) as [Hlo Hhi].
  split; [now apply toFixed2_nonneg|].
  eapply Rle_trans; [now apply toFixed2_upper | lra].
Qed.

(** An image 1000 pixels wide for a building of 50 m: 20 pixels a metre. *)
Lemma table_scale_matches_display_witness :
  pixelsPerMeterScaleManual (Some (mkDimensions 1000 500)) (Some 50)
  = pixelsPerMeterScale (Some (mkImage true 1000 500 0 0)) 50.
Proof.
  assert (Hnw : naturalWidth (mkImage true 1000 500 0 0) <> 0%N)
    by discriminate.
  assert (Hnat : width (mkDimensions 1000 500)
                 = natW (mkImage true 1000 500 0 0)) by reflexivity.
  assert (Hlen : 0 < 50) by lra.
  assert (Hin : within_image (mkImage true 1000 500 0 0) (mkAP 100 100)).
  { unfold within_image, natW, natH. cbn. lra. }
  exact (proj1 (table_scale_matches_display (mkImage true 1000 500 0 0)
                  (mkDimensions 1000 500) 50 10 (mkAP 100 100)
                  Hnw Hnat Hlen Hin)).
Defined.

End ResultFacts.

(** * Properties of the arithmetic with rounding *)

(** ** Rounding errors *)

Section RoundedArithmetic.
Import Rounded.
Variable rnd : R -> R.
Hypothesis Hrnd : rounding rnd.

Lemma rnd_bounds (a : R) : 0 <= a -> a * (1 - u) <= rnd a <= a * (1 + u).
Proof.
  intros Ha. pose proof (rnd_error rnd Hrnd a) as H.
  rewrite (Rabs_right a) in H by lra. unfold u in *.
  unfold Rabs in H. destruct (Rcase_abs (rnd a - a)); lra.
Qed.

Lemma rnd_0 : rnd 0 = 0.
Proof. pose proof (rnd_bounds 0 (Rle_refl 0)). lra. Qed.

Lemma rnd_pos (a : R) : 0 < a -> 0 < rnd a.
Proof.
  intros Ha. pose proof (rnd_bounds a (Rlt_le _ _ Ha)) as [H _].
  unfold u in H. assert (0 < a * (1 - / 9007199254740992)); [|lra].
  apply Rmult_lt_0_compat; lra.
Qed.

Lemma near_exact (b : R) : 0 <= b -> near 0 b b.
Proof. intros Hb. unfold near. lra. Qed.

Lemma near_nonneg (k b a : R) :
  0 <= b -> 0 <= k <= 1000 -> near k b a -> 0 <= a.
Proof.
  unfold near. intros Hb Hk [Hlo _].
  assert (0 <= b * (1 - k * 1.2e-16)) by (apply Rmult_le_pos; lra). lra.
Qed.

Lemma near_pos (k b a : R) :
  0 < b -> 0 <= k <= 1000 -> near k b a -> 0 < a.
Proof.
  unfold near. intros Hb Hk [Hlo _].
  assert (0 < b * (1 - k * 1.2e-16)) by (apply Rmult_lt_0_compat; lra). lra.
Qed.

Lemma near_rnd (k b a : R) :
  0 <= b -> 0 <= k <= 1000 -> near k b a -> near (k + 1) b (rnd a).
Proof.
  intros Hb Hk Ha. pose proof (near_nonneg k b a Hb Hk Ha) as Ha0.
  pose proof (rnd_bounds a Ha0) as [Hlo Hhi]. unfold near, u in *.
  destruct Ha as [Hal Hah].
  assert (0 <= (a - b * (1 - k * 1.2e-16)) * (1 - / 9007199254740992))
    by (apply Rmult_le_pos; lra).
  assert (0 <= (b * (1 + k * 1.2e-16) - a) * (1 + / 9007199254740992))
    by (apply Rmult_le_pos; lra).
  assert (0 <= b * (1.2e-16 - / 9007199254740992
                    + k * 1.2e-16 * / 9007199254740992))
    by (apply Rmult_le_pos; lra).
  assert (0 <= b * (1.2e-16 - / 9007199254740992
                    - k * 1.2e-16 * / 9007199254740992))
    by (apply Rmult_le_pos; lra).
  split; lra.
Qed.

Lemma near_mul (k1 k2 b1 b2 a1 a2 : R) :
  0 <= b1 -> 0 <= b2 -> 0 <= k1 <= 100 -> 0 <= k2 <= 100 ->
  near k1 b1 a1 -> near k2 b2 a2 ->
  near (k1 + k2 + 1) (b1 * b2) (a1 * a2).
Proof.
  intros Hb1 Hb2 Hk1 Hk2 H1 H2.
  pose proof (near_nonneg k1 b1 a1 Hb1 ltac:(lra) H1) as Ha1.
  pose proof (near_nonneg k2 b2 a2 Hb2 ltac:(lra) H2) as Ha2.
  unfold near in *. destruct H1 as [L1 U1], H2 as [L2 U2].
  assert (0 <= b1 * (1 - k1 * 1.2e-16)) as P1 by (apply Rmult_le_pos; lra).
  assert (0 <= b2 * (1 - k2 * 1.2e-16)) as P2 by (apply Rmult_le_pos; lra).
  assert (b1 * (1 - k1 * 1.2e-16) * (b2 * (1 - k2 * 1.2e-16)) <= a1 * a2)
    as Lo by (apply Rmult_le_compat; lra).
  assert (a1 * a2 <= b1 * (1 + k1 * 1.2e-16) * (b2 * (1 + k2 * 1.2e-16)))
    as Hi by (apply Rmult_le_compat; lra).
  assert (0 <= b1 * b2) as Hb by (apply Rmult_le_pos; lra).
  assert (0 <= k1 * k2 <= 10000) as Hkk by nra.
  assert (0 <= b1 * b2 * (1.2e-16 - k1 * k2 * 1.2e-16 * 1.2e-16)) as S1
      by (apply Rmult_le_pos; lra).
  assert (0 <= b1 * b2 * (1.2e-16 + k1 * k2 * 1.2e-16 * 1.2e-16)) as S2
      by (apply Rmult_le_pos; lra).
  split; nra.
Qed.

Lemma near_div (k1 k2 b1 b2 a1 a2 : R) :
  0 <= b1 -> 0 < b2 -> 0 <= k1 <= 100 -> 0 <= k2 <= 100 ->
  near k1 b1 a1 -> near k2 b2 a2 ->
  near (k1 + k2 + 2) (b1 / b2) (a1 / a2).
Proof.
  intros Hb1 Hb2 Hk1 Hk2 H1 H2.
  pose proof (near_nonneg k1 b1 a1 Hb1 ltac:(lra) H1) as Ha1.
  pose proof (near_pos k2 b2 a2 Hb2 ltac:(lra) H2) as Ha2.
  assert (0 <= b1 / b2) as Hq.
  { unfold Rdiv. apply Rmult_le_pos; [lra|].
    apply Rlt_le, Rinv_0_lt_compat. exact Hb2. }
  assert (b1 = b1 / b2 * b2) as Hb by (field; lra).
  set (q := b1 / b2) in *.
  unfold near in *. destruct H1 as [L1 U1], H2 as [L2 U2].
  assert (0 <= k1 * k2 <= 10000) as Hkk by nra.
  assert (0 <= k2 * k2 <= 10000) as Hk22 by nra.
  split.
  - apply Rmult_le_reg_r with a2; [exact Ha2|].
    replace (a1 / a2 * a2) with a1 by (field; lra).
    (* q (1 - c d) a2 <= q (1 - c d) b2 (1 + k2 d) <= b1 (1 - k1 d) <= a1 *)
    assert (0 <= q * (1 - (k1 + k2 + 2) * 1.2e-16)) as P
        by (apply Rmult_le_pos; lra).
    assert (q * (1 - (k1 + k2 + 2) * 1.2e-16) * a2
            <= q * (1 - (k1 + k2 + 2) * 1.2e-16) * (b2 * (1 + k2 * 1.2e-16)))
      as S1 by (apply Rmult_le_compat_l; lra).
    assert (0 <= q * b2 * (2 * 1.2e-16
                           + (k1 + k2 + 2) * k2 * 1.2e-16 * 1.2e-16)) as S2.
    { apply Rmult_le_pos; [apply Rmult_le_pos; lra | nra]. }
    rewrite Hb in L1. nra.
  - apply Rmult_le_reg_r with a2; [exact Ha2|].
    replace (a1 / a2 * a2) with a1 by (field; lra).
    assert (0 <= q * (1 + (k1 + k2 + 2) * 1.2e-16)) as P
        by (apply Rmult_le_pos; lra).
    assert (q * (1 + (k1 + k2 + 2) * 1.2e-16) * (b2 * (1 - k2 * 1.2e-16))
            <= q * (1 + (k1 + k2 + 2) * 1.2e-16) * a2)
      as S1 by (apply Rmult_le_compat_l; lra).
    assert (0 <= q * b2 * (2 * 1.2e-16
                           - (k1 + k2 + 2) * k2 * 1.2e-16 * 1.2e-16)) as S2.
    { apply Rmult_le_pos; [apply Rmult_le_pos; lra | nra]. }
    rewrite Hb in U1. nra.
Qed.




End RoundedArithmetic.

(** ** The placement loops *)

Section GridFacts.
Import PlacementEngine.
Variable A : Type.
Variables (target cols : Z).
Variable centre : Z -> Z -> A.

Local Abbreviation len l := (Z.of_nat (length l)).
Local Abbreviation grid from rows :=
  (flat_map (fun r_idx => map (centre r_idx) (indices 0 (Z.to_nat cols)))
            (indices from rows)).

Lemma grid_cols_loop_enum (todo : nat) (r_idx c_idx : Z) (res : list A) :
  GridLoops.cols_loop target centre todo r_idx c_idx res
  = res ++ firstn (Z.to_nat (target - len res))
                  (map (centre r_idx) (indices c_idx todo)).
Proof.
  revert c_idx res. induction todo as [|todo IH]; intros c_idx res.
  - cbn. now rewrite firstn_nil, app_nil_r.
  - cbn [GridLoops.cols_loop indices map]. unfold GridLoops.target_reached.
    destruct (Z.leb_spec target (len res)) as [Hge|Hlt].
    + replace (Z.to_nat (target - len res)) with 0%nat by lia.
      cbn. now rewrite app_nil_r.
    + rewrite IH, length_app. cbn [length].
      replace (Z.to_nat (target - len res))
        with (S (Z.to_nat (target - Z.of_nat (length res + 1)))) by lia.
      cbn [firstn]. rewrite <- app_assoc. reflexivity.
Qed.

Lemma grid_rows_loop_enum (todo : nat) (r_idx : Z) (res : list A) :
  GridLoops.rows_loop target cols centre todo r_idx res
  = res ++ firstn (Z.to_nat (target - len res)) (grid r_idx todo).
Proof.
  revert r_idx res. induction todo as [|todo IH]; intros r_idx res.
  - cbn. now rewrite firstn_nil, app_nil_r.
  - cbn [GridLoops.rows_loop indices flat_map].
    rewrite grid_cols_loop_enum.
    set (row := map (centre r_idx) (indices 0 (Z.to_nat cols))).
    set (n := Z.to_nat (target - len res)).
    rewrite firstn_app. unfold GridLoops.target_reached.
    destruct (Z.leb_spec target (len (res ++ firstn n row))) as [Hge|Hlt].
    + rewrite length_app, length_firstn in Hge.
      replace (n - length row)%nat with 0%nat by lia.
      cbn [firstn]. now rewrite app_nil_r.
    + rewrite IH. rewrite length_app, length_firstn in *.
      rewrite <- app_assoc. f_equal.
      rewrite (@firstn_all2 _ n row) by lia. do 2 f_equal. lia.
Qed.

(** Started on the empty list, the loops return the first [target] cells of
    the grid in row-major order. *)
Lemma grid_rows_loop_row_major (rows : Z) :
  GridLoops.rows_loop target cols centre (Z.to_nat rows) 0 []
  = firstn (Z.to_nat target) (GridLoops.row_major cols centre rows).
Proof.
  rewrite grid_rows_loop_enum. cbn [app length Z.of_nat].
  now rewrite Z.sub_0_r.
Qed.

Lemma grid_length (from : Z) (rows : nat) :
  length (grid from rows) = (rows * Z.to_nat cols)%nat.
Proof.
  revert from. induction rows as [|rows IH]; intros from;
    cbn [indices flat_map]; [reflexivity|].
  rewrite length_app, length_map, indices_length, IH. lia.
Qed.


(** The number of cells the loops return. *)
Lemma grid_loops_length (rows : Z) :
  (0 <= target)%Z -> (0 <= cols)%Z -> (0 <= rows)%Z ->
  len (GridLoops.rows_loop target cols centre (Z.to_nat rows) 0 [])
  = Z.min target (rows * cols).
Proof.
  intros Ht Hc Hr. rewrite grid_rows_loop_row_major.
  unfold GridLoops.row_major. rewrite length_firstn, grid_length.
  rewrite <- Z2Nat.inj_mul by lia.
  assert (0 <= rows * cols)%Z by nia. lia.
Qed.


End GridFacts.

(** ** The placement with rounding *)

Section RoundedPlacement.
Import PlacementEngine.
Variable rnd : R -> R.
Variables radius len wid : R.
Hypothesis Hr : 0 < radius.
Hypothesis Hl : 0 < len.
Hypothesis Hw : 0 < wid.

Local Abbreviation L_calc := (Rounded.L_calc_of rnd radius).
Local Abbreviation target := (Rounded.nAP_target_of rnd radius len wid).
Local Abbreviation cols := (Rounded.placement_cells rnd radius len).
Local Abbreviation rows := (Rounded.placement_cells rnd radius wid).
Local Abbreviation cw := (Rounded.cell_size rnd radius len).
Local Abbreviation ch := (Rounded.cell_size rnd radius wid).
Local Abbreviation res := (Rounded.calculateAPPlacement rnd radius len wid).

(** Past the two guards the function is the grid enumeration, formatted. *)
Lemma rounded_regular :
  Rounded.literal rnd 1e-6 <= L_calc ->
  res
  = mkResult
      (Z.of_nat (length (map (Rounded.formatted rnd)
                    (GridLoops.rows_loop target cols
                       (Rounded.cell_centre rnd cw ch) (Z.to_nat rows) 0 []))))
      (map (Rounded.formatted rnd)
         (GridLoops.rows_loop target cols
            (Rounded.cell_centre rnd cw ch) (Z.to_nat rows) 0 []))
      (Rounded.message_of rnd radius len wid).
Proof.
  intros Hc. unfold Rounded.calculateAPPlacement.
  fold (Rounded.L_calc_of rnd radius). settle_cmp. reflexivity.
Qed.

Lemma rounded_cells_ge_1 (side : R) :
  (1 <= Rounded.placement_cells rnd radius side)%Z.
Proof. unfold Rounded.placement_cells. lia. Qed.

Lemma rounded_target_ge_1 : (1 <= target)%Z.
Proof. unfold Rounded.nAP_target_of. lia. Qed.

(** The count is the target or the size of the grid, whichever is less. *)
Lemma rounded_nAP :
  Rounded.literal rnd 1e-6 <= L_calc ->
  nAP res = Z.min target (rows * cols)
  /\ nAP res = Z.of_nat (length (coordinates res))
  /\ (1 <= nAP res)%Z.
Proof.
  intros Hc. rewrite (rounded_regular Hc). cbn [nAP coordinates].
  pose proof (rounded_cells_ge_1 len). pose proof (rounded_cells_ge_1 wid).
  pose proof rounded_target_ge_1.
  rewrite length_map, grid_loops_length by lia.
  repeat split; nia.
Qed.

End RoundedPlacement.

Section RoundedCount.
Import PlacementEngine.
Variable rnd : R -> R.
Hypothesis Hrnd : Rounded.rounding rnd.
Variable radius : R.
Hypothesis Hr : 0 < radius.

Local Abbreviation L_calc := (Rounded.L_calc_of rnd radius).

Lemma near_sqrt2 : Rounded.near 1 (sqrt 2) (Rounded.Math_sqrt rnd 2).
Proof.
  pose proof sqrt2_pos. unfold Rounded.Math_sqrt.
  replace 1 with (0 + 1) by ring.
  apply (near_rnd rnd Hrnd); [lra | lra | apply near_exact; lra].
Qed.

Lemma near_L_calc : Rounded.near 3 (sqrt 2 * radius) L_calc.
Proof.
  pose proof sqrt2_pos. unfold Rounded.L_calc_of, Rounded.mul.
  replace 3 with (1 + 0 + 1 + 1) by ring.
  apply (near_rnd rnd Hrnd); [nra | lra |].
  apply near_mul; try lra; [exact near_sqrt2 | apply near_exact; lra].
Qed.

Lemma rounded_L_calc_pos : 0 < L_calc.
Proof.
  pose proof sqrt2_pos.
  apply (near_pos 3 (sqrt 2 * radius)); [nra | lra | exact near_L_calc].
Qed.

Lemma near_Area_C :
  Rounded.near 8 (2 * radius ^ 2) (Rounded.Area_C_of rnd radius).
Proof.
  pose proof sqrt2_pos. pose proof sqrt2_sqr as H2.
  assert (0 <= sqrt 2 * radius) by nra.
  unfold Rounded.Area_C_of, Rounded.mul.
  replace (2 * radius ^ 2) with (sqrt 2 * radius * (sqrt 2 * radius))
    by (transitivity (sqrt 2 * sqrt 2 * radius ^ 2); [ring | rewrite H2; ring]).
  replace 8 with (3 + 3 + 1 + 1) by ring.
  apply (near_rnd rnd Hrnd); [nra | lra |].
  apply near_mul; try lra; exact near_L_calc.
Qed.

Lemma rounded_Area_C_pos : 0 < Rounded.Area_C_of rnd radius.
Proof.
  apply (near_pos 8 (2 * radius ^ 2)); [nra | lra | exact near_Area_C].
Qed.





End RoundedCount.

Section RoundedResults.
Import PlacementEngine.

Lemma rounding_exact : Rounded.rounding (fun a : R => a).
Proof.
  split; [intros a b Hab; exact Hab|].
  intros a. unfold Rounded.u.
  replace (a - a) with 0 by ring. rewrite Rabs_R0.
  apply Rmult_le_pos; [lra | apply Rabs_pos].
Qed.



End RoundedResults.

Section RoundedMonotone.
Import PlacementEngine.
Variable rnd : R -> R.
Hypothesis Hrnd : Rounded.rounding rnd.

Lemma div_mono (a1 a2 b1 b2 : R) :
  0 <= a1 <= a2 -> 0 < b1 <= b2 -> a1 / b2 <= a2 / b1.
Proof.
  intros [Ha0 Ha] [Hb0 Hb].
  apply Rle_trans with (a1 / b1).
  - unfold Rdiv. apply Rmult_le_compat_l; [exact Ha0|].
    apply Rinv_le_contravar; assumption.
  - unfold Rdiv. apply Rmult_le_compat_r; [|exact Ha].
    apply Rlt_le, Rinv_0_lt_compat. exact Hb0.
Qed.

Lemma L_calc_mono (r1 r2 : R) :
  r1 <= r2 -> Rounded.L_calc_of rnd r1 <= Rounded.L_calc_of rnd r2.
Proof.
  intros Hr. unfold Rounded.L_calc_of, Rounded.mul.
  apply (Rounded.rnd_monotone rnd Hrnd).
  apply Rmult_le_compat_l; [|exact Hr].
  destruct (near_sqrt2 rnd Hrnd) as [Hlo _]. pose proof sqrt2_pos.
  assert (0 <= sqrt 2 * (1 - 1 * 1.2e-16)) by (apply Rmult_le_pos; lra). lra.
Qed.

Lemma cells_mono (r1 r2 s1 s2 : R) :
  0 < r1 -> r1 <= r2 -> 0 < s1 <= s2 ->
  (Rounded.placement_cells rnd r2 s1 <= Rounded.placement_cells rnd r1 s2)%Z.
Proof.
  intros Hr1 Hr Hs. unfold Rounded.placement_cells, Math_ceil, Rounded.div.
  apply Z.max_le_compat_l, Zceil_le, (Rounded.rnd_monotone rnd Hrnd).
  apply div_mono; [lra|]. split.
  - apply (rounded_L_calc_pos rnd Hrnd r1 Hr1).
  - apply L_calc_mono. exact Hr.
Qed.

Lemma target_mono (r1 r2 l1 l2 w1 w2 : R) :
  0 < r1 -> r1 <= r2 -> 0 < l1 <= l2 -> 0 < w1 <= w2 ->
  (Rounded.nAP_target_of rnd r2 l1 w1 <= Rounded.nAP_target_of rnd r1 l2 w2)%Z.
Proof.
  intros Hr1 Hr Hl Hw. unfold Rounded.nAP_target_of, Math_ceil, Rounded.div.
  apply Z.max_le_compat_l, Zceil_le, (Rounded.rnd_monotone rnd Hrnd).
  apply div_mono.
  - unfold Rounded.mul. split.
    + rewrite <- (rnd_0 rnd Hrnd) at 1.
      apply (Rounded.rnd_monotone rnd Hrnd). nra.
    + apply (Rounded.rnd_monotone rnd Hrnd). nra.
  - split; [apply (rounded_Area_C_pos rnd Hrnd r1 Hr1)|].
    unfold Rounded.Area_C_of, Rounded.mul.
    apply (Rounded.rnd_monotone rnd Hrnd).
    pose proof (rounded_L_calc_pos rnd Hrnd r1 Hr1).
    pose proof (L_calc_mono r1 r2 Hr). nra.
Qed.

End RoundedMonotone.

Section RoundedResults2.
Import PlacementEngine App.

(** X25. For every rounding of the arithmetic, a larger building or a
    smaller radius never gets fewer APs: the count of
    [calculateAPPlacement] does not decrease when the length or the width
    grows, and does not increase when the radius grows. *)
Theorem placement_count_monotone_rounded
        (rnd : R -> R) (r1 r2 l1 l2 w1 w2 : R) :
  Rounded.rounding rnd ->
  0 < r1 -> Rounded.literal rnd 1e-6 <= Rounded.L_calc_of rnd r1 ->
  r1 <= r2 -> 0 < l1 <= l2 -> 0 < w1 <= w2 ->
  (nAP (Rounded.calculateAPPlacement rnd r2 l1 w1)
   <= nAP (Rounded.calculateAPPlacement rnd r1 l2 w2))%Z.
Proof.
  intros Hrnd Hr1 Hc1 Hr [Hl1 Hl] [Hw1 Hw].
  assert (0 < r2) as Hr2 by lra.
  assert (0 < l2) as Hl2 by lra. assert (0 < w2) as Hw2 by lra.
  assert (Rounded.literal rnd 1e-6 <= Rounded.L_calc_of rnd r2) as Hc2.
  { eapply Rle_trans; [exact Hc1 | apply L_calc_mono; assumption]. }
  destruct (rounded_nAP rnd r2 l1 w1 Hr2 Hl1 Hw1 Hc2) as (-> & _).
  destruct (rounded_nAP rnd r1 l2 w2 Hr1 Hl2 Hw2 Hc1) as (-> & _).
  pose proof (target_mono rnd Hrnd r1 r2 l1 l2 w1 w2 Hr1 Hr
                (conj Hl1 Hl) (conj Hw1 Hw)) as Ht.
  pose proof (cells_mono rnd Hrnd r1 r2 l1 l2 Hr1 Hr (conj Hl1 Hl)) as Hx.
  pose proof (cells_mono rnd Hrnd r1 r2 w1 w2 Hr1 Hr (conj Hw1 Hw)) as Hy.
  pose proof (rounded_cells_ge_1 rnd r2 l1). pose proof (rounded_cells_ge_1 rnd r2 w1).
  apply Z.min_le_compat; [exact Ht | nia].
Qed.

(** [place(10, 50, 30)] against [place(10, 14, 14)], in exact arithmetic. *)
Lemma placement_count_monotone_rounded_witness :
  (nAP (Rounded.calculateAPPlacement (fun a : R => a) 10 14 14)
   <= nAP (Rounded.calculateAPPlacement (fun a : R => a) 10 50 30))%Z.
Proof.
  assert (Hb : 1.41 < sqrt 2 < 1.42) by exact sqrt2_bounds.
  assert (H10 : 0 < 10) by lra.
  assert (Hc : Rounded.literal (fun a : R => a) 1e-6
               <= Rounded.L_calc_of (fun a : R => a) 10).
  { unfold Rounded.literal, Rounded.L_calc_of, Rounded.mul, Rounded.Math_sqrt.
    lra. }
  assert (Hr : 10 <= 10) by lra.
  assert (Hl : 0 < 14 <= 50) by lra. assert (Hw : 0 < 14 <= 30) by lra.
  exact (placement_count_monotone_rounded (fun a : R => a) 10 10 14 50 14 30
           rounding_exact H10 Hc Hr Hl Hw).
Defined.




End RoundedResults2.

Section RoundedMetric.
Import InteractivePlanDisplay ManualTable.

Lemma rounded_scale_unavailable
      (rnd : R -> R) (dims : option Dimensions) (len : option R) :
  dims = None \/ (exists d, dims = Some d /\ width d <= 0)
  \/ len = None \/ (exists l, len = Some l /\ l <= 0) ->
  Rounded.pixelsPerMeterScaleManual rnd dims len = 0.
Proof.
  unfold Rounded.pixelsPerMeterScaleManual.
  intros [-> | [(d & -> & Hd) | [-> | (l & -> & Hl)]]].
  - reflexivity.
  - destruct len as [l|]; [|reflexivity].
    apply gtb_false_iff in Hd. now rewrite Hd.
  - now destruct dims.
  - destruct dims as [d|]; [|reflexivity].
    apply gtb_false_iff in Hl. rewrite Hl. now rewrite andb_false_r.
Qed.

Lemma near_metric (rnd : R -> R) (natural len px : R) :
  Rounded.rounding rnd -> 0 < natural -> 0 < len -> 0 <= px ->
  Rounded.near 4 (px / (natural / len))
    (Rounded.div rnd px (Rounded.div rnd natural len)).
Proof.
  intros Hrnd Hn Hl Hp.
  assert (0 < natural / len) as Hs by (apply Rdiv_lt_0_compat; lra).
  assert (0 <= px / (natural / len)) as Hq.
  { unfold Rdiv at 1. apply Rmult_le_pos; [lra|].
    apply Rlt_le, Rinv_0_lt_compat. exact Hs. }
  unfold Rounded.div at 1. replace 4 with (0 + 1 + 2 + 1) by ring.
  apply (near_rnd rnd Hrnd); [lra | lra |].
  apply near_div; try lra; [apply near_exact; lra|].
  unfold Rounded.div. replace 1 with (0 + 1) by ring.
  apply (near_rnd rnd Hrnd); [lra | lra | apply near_exact; lra].
Qed.

(** C8. The metric cells of an AP are the marker ['N/A'], and so no number,
    when the natural width is unknown or not positive or the building length
    is unknown or not positive.  When both are positive the two cells are
    numbers, the pixel coordinates divided by the one scale
    [naturalWidth / buildingLength] as far as the arithmetic and the two
    printed decimals go: for every rounding of the arithmetic the cell of a
    coordinate that is not negative prints, with two decimals, a number
    within four roundings of that quotient, and so is within [0.005], and a
    relative [1e-15], of the quotient itself. *)
Theorem natural_to_metric_rounded
        (rnd : R -> R) (dims : option Dimensions) (len : option R)
        (ap : APCoordinate) :
  (dims = None \/ (exists d, dims = Some d /\ width d <= 0)
   \/ len = None \/ (exists l, len = Some l /\ l <= 0) ->
   Rounded.metric_cells rnd dims len ap = (NA, NA)
   /\ forall v : R, fst (Rounded.metric_cells rnd dims len ap) <> Fixed2 v
                    /\ snd (Rounded.metric_cells rnd dims len ap) <> Fixed2 v)
  /\ (Rounded.rounding rnd ->
      forall (d : Dimensions) (l : R),
        dims = Some d -> len = Some l -> 0 < width d -> 0 < l ->
        let scale := width d / l in
        exists cx cy : R,
          Rounded.metric_cells rnd dims len ap
          = (Fixed2 (toFixed2 cx), Fixed2 (toFixed2 cy))
          /\ (0 <= x ap ->
              Rounded.near 4 (x ap / scale) cx
              /\ Rabs (toFixed2 cx - x ap / scale)
                 <= 0.005 + 1e-15 * (x ap / scale))
          /\ (0 <= y ap ->
              Rounded.near 4 (y ap / scale) cy
              /\ Rabs (toFixed2 cy - y ap / scale)
                 <= 0.005 + 1e-15 * (y ap / scale))).
Proof.
  split.
  - intros Hbad. unfold Rounded.metric_cells, Rounded.x_m, Rounded.y_m.
    rewrite (rounded_scale_unavailable rnd dims len Hbad).
    rewrite (proj2 (gtb_false_iff 0 0)) by lra.
    split; [reflexivity|]. intros v. cbn. split; discriminate.
  - intros Hrnd d l -> -> Hd Hl. cbv zeta.
    assert (0 < Rounded.div rnd (width d) l) as Hscale.
    { unfold Rounded.div. apply (rnd_pos rnd Hrnd).
      apply Rdiv_lt_0_compat; assumption. }
    exists (Rounded.div rnd (x ap) (Rounded.div rnd (width d) l)),
           (Rounded.div rnd (y ap) (Rounded.div rnd (width d) l)).
    split.
    + unfold Rounded.metric_cells, Rounded.x_m, Rounded.y_m,
        Rounded.pixelsPerMeterScaleManual.
      rewrite (proj2 (gtb_true_iff (width d) 0) Hd),
        (proj2 (gtb_true_iff l 0) Hl). cbn [andb].
      now rewrite (proj2 (gtb_true_iff _ 0) Hscale).
    + assert (forall px, 0 <= px ->
                Rounded.near 4 (px / (width d / l))
                  (Rounded.div rnd px (Rounded.div rnd (width d) l))
                /\ Rabs (toFixed2 (Rounded.div rnd px
                                     (Rounded.div rnd (width d) l))
                         - px / (width d / l))
                   <= 0.005 + 1e-15 * (px / (width d / l))) as Hboth.
      { intros px Hpx.
        pose proof (near_metric rnd (width d) l px Hrnd Hd Hl Hpx) as Hnear.
        split; [exact Hnear|].
        assert (0 <= px / (width d / l)) as Hq.
        { unfold Rdiv at 1. apply Rmult_le_pos; [lra|].
          apply Rlt_le, Rinv_0_lt_compat, Rdiv_lt_0_compat; assumption. }
        pose proof (near_nonneg 4 _ _ Hq ltac:(lra) Hnear) as Hc.
        pose proof (toFixed2_error _ Hc) as Herr.
        set (c := Rounded.div rnd px (Rounded.div rnd (width d) l)) in *.
        set (q := px / (width d / l)) in *.
        destruct Hnear as [Hlo Hhi].
        unfold Rabs in *.
        destruct (Rcase_abs (toFixed2 c - c)), (Rcase_abs (toFixed2 c - q));
          lra. }
      split; intros Hp; apply Hboth; exact Hp.
Qed.

(** An image 1000 pixels wide for a building of 50 m, in exact arithmetic:
    20 pixels per metre; and the same AP before the image has loaded. *)
Lemma natural_to_metric_rounded_witness :
  (exists cx cy : R,
      Rounded.metric_cells (fun a : R => a)
        (Some (mkDimensions 1000 800)) (Some 50) (mkAP 300 100)
      = (Fixed2 (toFixed2 cx), Fixed2 (toFixed2 cy))
      /\ Rabs (toFixed2 cx - 15) <= 0.006 /\ Rabs (toFixed2 cy - 5) <= 0.006)
  /\ Rounded.metric_cells (fun a : R => a) None (Some 50) (mkAP 300 100)
     = (NA, NA).
Proof.
  pose (d := mkDimensions 1000 800). pose (ap := mkAP 300 100).
  assert (Hd : 0 < width d) by (cbn; lra). assert (Hl : 0 < 50) by lra.
  split.
  - destruct (proj2 (natural_to_metric_rounded (fun a : R => a)
                       (Some d) (Some 50) ap)
                    rounding_exact d 50 eq_refl eq_refl Hd Hl)
      as (cx & cy & Hcells & Hx & Hy).
    exists cx, cy. split; [exact Hcells|].
    cbn [x y width ap d] in Hx, Hy.
    replace (300 / (1000 / 50)) with 15 in Hx by lra.
    replace (100 / (1000 / 50)) with 5 in Hy by lra.
    split; [pose proof (proj2 (Hx ltac:(lra)))
           | pose proof (proj2 (Hy ltac:(lra)))]; lra.
  - exact (proj1 (proj1 (natural_to_metric_rounded (fun a : R => a)
                           None (Some 50) ap) (or_introl eq_refl))).
Defined.

End RoundedMetric.

(** ** The placement run on binary64 numbers *)

Section Binary64Facts.





(** Where the exact centre of a cell ends in a 5 at the third decimal, the
    computed centre decides the digit printed: with radius 0.109375, length
    3 and width 0.015625 the first centre is [0.5 * (3 / 20)], below 0.075
    by a rounding, and is returned as 0.07. *)
Lemma binary64_tie :
  option_map Binary64.coordinates
    (Binary64.calculateAPPlacement
       (Binary64.decimal 109375 1000000) (Binary64.decimal 3 1)
       (Binary64.decimal 15625 1000000))
  = Some [Binary64.mkAP (Binary64.decimal 7 100) (Binary64.decimal 1 100);
          Binary64.mkAP (Binary64.decimal 22 100) (Binary64.decimal 1 100)].
Proof. vm_compute. reflexivity. Qed.

(** The form filled with area 3, length 3 and width 2: the quotient
    [length * width / area] is exactly 2 and the placement for the computed
    radius [sqrt(3 / 2)] has 3 coordinates. *)
Lemma binary64_submit :
  option_map Binary64.nAP
    (Binary64.calculateAPPlacement
       (PrimFloat.sqrt (PrimFloat.div (Binary64.decimal 3 1)
                                      (Binary64.decimal 2 1)))
       (Binary64.decimal 3 1) (Binary64.decimal 2 1))
  = Some 3%Z.
Proof. vm_compute. reflexivity. Qed.

(** The metric column of an AP at pixel 3 on an image 200 pixels wide for
    a building of length 1: the computed quotient [3 / (200 / 1)] is below
    0.015 by a rounding and is printed as 0.01. *)
Lemma binary64_metric :
  Binary64.toFixed2
    (PrimFloat.div (Binary64.decimal 3 1)
                   (PrimFloat.div (Binary64.decimal 200 1)
                                  (Binary64.decimal 1 1)))
  = Binary64.decimal 1 100.
Proof. vm_compute. reflexivity. Qed.





End Binary64Facts.
